(** * DC power flow: a shallow embedding of [power_grid_sim.py]

    The three functions of the program ([build_b_matrix],
    [solve_linear_system], [dc_power_flow]) are written once, over an
    interface [Arith] for the number type they compute with, and
    instantiated twice:

    - [Float64]: IEEE-754 binary64, the arithmetic Python's [float] runs;
    - [Exact]: the rationals, the arithmetic the algebraic statements of
      the specification are about.

    Python exceptions are values of [result]; lists are Rocq lists, read
    with stdpp's lookup and written with stdpp's insert. *)

From Stdlib Require Import ZArith String QArith Qcanon Qcabs Lia.
From Stdlib Require Import Floats.PrimFloat Floats.SpecFloat Floats.FloatOps.
From Stdlib Require Import Floats.FloatAxioms.
From stdpp Require Import base list.

Set Warnings "-inexact-float".
Set Default Proof Using "Type".

Local Open Scope nat_scope.

(** ** Exceptions and results *)

Inductive exn : Type :=
| ValueError (msg : string)
| IndexError
| ZeroDivisionError.

Inductive result (A : Type) : Type :=
| Ok (a : A)
| Raise (e : exn).

Arguments Ok {A} a.
Arguments Raise {A} e.

Definition bind {A B : Type} (m : result A) (k : A -> result B) : result B :=
  match m with
  | Ok a => k a
  | Raise e => Raise e
  end.

Notation "'let*' x ':=' m 'in' k" := (bind m (fun x => k))
  (at level 10, x name, m at level 100, k at level 200, only parsing).

(** [for x in xs: s = body(x, s)], stopping at the first exception. *)
Fixpoint for_each {X S : Type} (xs : list X) (body : X -> S -> result S)
    (s : S) : result S :=
  match xs with
  | [] => Ok s
  | x :: xs' => let* s' := body x s in for_each xs' body s'
  end.

(** [[f(x) for x in xs]], stopping at the first exception. *)
Fixpoint collect {X Y : Type} (f : X -> result Y) (xs : list X)
    : result (list Y) :=
  match xs with
  | [] => Ok []
  | x :: xs' => let* y := f x in let* ys := collect f xs' in Ok (y :: ys)
  end.

Definition singular_msg : string := "Singular matrix".
Definition mismatch_msg : string :=
  "Mismatch between number of buses and injections".
Definition empty_max_msg : string := "max() arg is an empty sequence".

(** [post P Q m]: the call [m] either returns a value satisfying [P] or
    raises an exception satisfying [Q]. *)
Definition post {A : Type} (P : A -> Prop) (Q : exn -> Prop)
    (m : result A) : Prop :=
  match m with
  | Ok a => P a
  | Raise e => Q e
  end.

Definition never : exn -> Prop := fun _ => False.
Definition anything : exn -> Prop := fun _ => True.

(** The exceptions raised below the dimension check of [dc_power_flow]:
    by indexing, by a division, by the pivot test, by [max]. *)
Definition internal_exn (e : exn) : Prop :=
  e = IndexError \/ e = ZeroDivisionError \/
  e = ValueError singular_msg \/ e = ValueError empty_max_msg.

(** ** Python list indexing *)

(** [l[k]] for an index that is known to be non-negative (a value of
    [range]). *)
Definition item {A : Type} (l : list A) (k : nat) : result A :=
  match l !! k with
  | Some a => Ok a
  | None => Raise IndexError
  end.

(** [l[k] = a] for a non-negative index. *)
Definition store {A : Type} (l : list A) (k : nat) (a : A) : result (list A) :=
  if decide (k < length l) then Ok (<[k := a]> l) else Raise IndexError.

(** An arbitrary integer index: [-len <= i < 0] counts from the end. *)
Definition norm_index (len : nat) (i : Z) : result nat :=
  if ((0 <=? i) && (i <? Z.of_nat len))%Z then Ok (Z.to_nat i)
  else if ((i <? 0) && (- Z.of_nat len <=? i))%Z
       then Ok (Z.to_nat (Z.of_nat len + i))
       else Raise IndexError.

Definition getitem {A : Type} (l : list A) (i : Z) : result A :=
  let* k := norm_index (length l) i in item l k.

Definition setitem {A : Type} (l : list A) (i : Z) (a : A)
    : result (list A) :=
  let* k := norm_index (length l) i in store l k a.

(** [row[-1]] *)
Definition last_item {A : Type} (l : list A) : result A :=
  match last l with
  | Some a => Ok a
  | None => Raise IndexError
  end.

(** ** The arithmetic the program is run with *)

Record Arith : Type := MkArith {
  num : Type;
  zero : num;                      (* the literal 0.0 *)
  one : num;                       (* the literal 1 *)
  eps : num;                       (* the literal 1e-12 *)
  add : num -> num -> num;
  sub : num -> num -> num;
  mul : num -> num -> num;
  quot : num -> num -> num;        (* a / b for b != 0 *)
  absv : num -> num;
  ltb : num -> num -> bool;        (* a < b *)
  is_zero : num -> bool            (* a == 0 *)
}.

(** A matrix is a list of rows; a line is a triple [(i, j, x)]. *)
Abbreviation matrix K := (list (list (num K))).
Abbreviation line K := (Z * Z * num K)%type.

Section Program.

Context {K : Arith}.

Local Abbreviation F := (num K).

(** [a / b]: Python raises on a zero divisor. *)
Definition py_div (a b : F) : result F :=
  if is_zero K b then Raise ZeroDivisionError else Ok (quot K a b).

(** [B[i][j] = f(B[i][j])], the augmented assignments [+=], [-=] on an
    entry of a list of lists, with integer indices. *)
Definition aug_assign (B : matrix K) (i j : Z) (f : F -> F) : result (matrix K) :=
  let* row := getitem B i in
  let* v := getitem row j in
  let* row' := setitem row j (f v) in
  setitem B i row'.

(** The same with indices taken from a [range]. *)
Definition aug_at (M : matrix K) (r j : nat) (f : F -> result F)
    : result (matrix K) :=
  let* row := item M r in
  let* v := item row j in
  let* v' := f v in
  let* row' := store row j v' in
  store M r row'.

(** *** build_b_matrix *)

Definition zeros (n : nat) : matrix K := replicate n (replicate n (zero K)).

Definition add_line (l : line K) (B : matrix K) : result (matrix K) :=
  let '(i, j, x) := l in
  let* b := py_div (one K) x in
  let* B := aug_assign B i i (fun v => add K v b) in
  let* B := aug_assign B j j (fun v => add K v b) in
  let* B := aug_assign B i j (fun v => sub K v b) in
  aug_assign B j i (fun v => sub K v b).

Definition build_b_matrix (num_nodes : Z) (lines : list (line K))
    : result (matrix K) :=
  for_each lines add_line (zeros (Z.to_nat num_nodes)).

(** *** solve_linear_system *)

(** [[row[:] + [b_val] for row, b_val in zip(A, b)]] *)
Definition augment (A : matrix K) (b : list F) : matrix K :=
  zip_with (fun row b_val => row ++ [b_val]) A b.

(** [abs(M[r][i])], the key of the pivot search. *)
Definition pivot_key (M : matrix K) (i r : nat) : result F :=
  let* row := item M r in
  let* v := item row i in
  Ok (absv K v).

(** [max(rs, key=key)]: the first element whose key no later key
    exceeds; a candidate replaces the current one only when its key is
    strictly greater. *)
Fixpoint max_from (key : nat -> result F) (rs : list nat)
    (best : nat) (best_key : F) : result nat :=
  match rs with
  | [] => Ok best
  | r :: rs' =>
      let* k := key r in
      if ltb K best_key k then max_from key rs' r k
      else max_from key rs' best best_key
  end.

Definition py_max (key : nat -> result F) (rs : list nat) : result nat :=
  match rs with
  | [] => Raise (ValueError empty_max_msg)
  | r :: rs' => let* k := key r in max_from key rs' r k
  end.

(** [M[i], M[p] = M[p], M[i]] *)
Definition swap_rows (M : matrix K) (i p : nat) : result (matrix K) :=
  let* row_p := item M p in
  let* row_i := item M i in
  let* M := store M i row_p in
  store M p row_i.

(** [for j in range(i, n + 1): M[i][j] /= pivot] *)
Definition normalize (n i : nat) (pivot : F) (M : matrix K) : result (matrix K) :=
  for_each (seq i (n + 1 - i))
    (fun j M => aug_at M i j (fun v => py_div v pivot)) M.

(** [for j in range(i, n + 1): M[r][j] -= factor * M[i][j]] *)
Definition eliminate_row (n i r : nat) (factor : F) (M : matrix K)
    : result (matrix K) :=
  for_each (seq i (n + 1 - i))
    (fun j M =>
       aug_at M r j (fun v =>
         let* row_i := item M i in
         let* w := item row_i j in
         Ok (sub K v (mul K factor w)))) M.

(** The loop over [r in range(n)], skipping [r == i]. *)
Definition eliminate (n i : nat) (M : matrix K) : result (matrix K) :=
  for_each (seq 0 n)
    (fun r M =>
       if decide (r = i) then Ok M
       else
         let* row_r := item M r in
         let* factor := item row_r i in
         eliminate_row n i r factor M) M.

(** One iteration of the loop over the pivot column [i]. *)
Definition pivot_step (n i : nat) (M : matrix K) : result (matrix K) :=
  let* pivot_row := py_max (pivot_key M i) (seq i (n - i)) in
  let* M := swap_rows M i pivot_row in
  let* row_i := item M i in
  let* pivot := item row_i i in
  if ltb K (absv K pivot) (eps K) then Raise (ValueError singular_msg)
  else
    let* M := normalize n i pivot M in
    eliminate n i M.

(** The working matrix after the pivot columns [0 .. k-1]. *)
Definition pivot_steps (n k : nat) (M : matrix K) : result (matrix K) :=
  for_each (seq 0 k) (pivot_step n) M.

(** [[M[i][-1] for i in range(n)]] *)
Definition read_solution (n : nat) (M : matrix K) : result (list F) :=
  collect (fun i => let* row := item M i in last_item row) (seq 0 n).

Definition solve_linear_system (A : matrix K) (b : list F) : result (list F) :=
  let n := length A in
  let* M := pivot_steps n n (augment A b) in
  read_solution n M.

(** *** dc_power_flow *)

Definition line_flow (angles : list F) (l : line K) : result (line K) :=
  let '(i, j, x) := l in
  let* a_i := getitem angles i in
  let* a_j := getitem angles j in
  let* flow := py_div (sub K a_i a_j) x in
  Ok (i, j, flow).

(** [[row[1:] for row in B[1:]]] *)
Definition drop_slack (B : matrix K) : matrix K := map (drop 1) (drop 1 B).

Definition dc_power_flow (num_nodes : Z) (lines : list (line K))
    (injections : list F) : result (list F * list (line K)) :=
  if decide (Z.of_nat (length injections) <> num_nodes)
  then Raise (ValueError mismatch_msg)
  else
    let* B := build_b_matrix num_nodes lines in
    let B_reduced := drop_slack B in
    let P_reduced := drop 1 injections in
    let* angles_unknown := solve_linear_system B_reduced P_reduced in
    let angles := zero K :: angles_unknown in
    let* flows := collect (line_flow angles) lines in
    Ok (angles, flows).

End Program.


(** ** The two instances *)

Definition Float64 : Arith :=
  {| num := float;
     zero := 0%float;
     one := 1%float;
     eps := 1e-12%float;
     add := PrimFloat.add;
     sub := PrimFloat.sub;
     mul := PrimFloat.mul;
     quot := PrimFloat.div;
     absv := PrimFloat.abs;
     ltb := PrimFloat.ltb;
     is_zero := fun x => PrimFloat.eqb x 0%float |}.

Definition Qc_ltb (a b : Qc) : bool :=
  match (a ?= b)%Qc with
  | Lt => true
  | _ => false
  end.

(** The threshold of the pivot test: the value of the double that the
    literal [1e-12] denotes, [4951760157141521 * 2^-92], a little below
    [10^-12]. *)
Definition Qc_eps : Qc :=
  Q2Qc (4951760157141521 # 4951760157141521099596496896).

Definition Exact : Arith :=
  {| num := Qc;
     zero := 0%Qc;
     one := 1%Qc;
     eps := Qc_eps;
     add := Qcplus;
     sub := Qcminus;
     mul := Qcmult;
     quot := Qcdiv;
     absv := Qcabs;
     ltb := Qc_ltb;
     is_zero := fun x => if Qc_eq_dec x 0%Qc then true else false |}.


(** ** Notions the statements are phrased with *)

Section Notions.

Context {K : Arith}.

Local Abbreviation F := (num K).

(** [M[r][c]], read as [0.0] outside the matrix. *)
Definition entry (M : matrix K) (r c : nat) : F := nth c (nth r M []) (zero K).

(** [M] has [rows] rows, all of length [cols]. *)
Definition shape (rows cols : nat) (M : matrix K) : Prop :=
  length M = rows /\ forall r, r < rows -> length (nth r M []) = cols.

(** The same as a test. *)
Definition has_shape (rows cols : nat) (M : matrix K) : bool :=
  (length M =? rows) && forallb (fun row => length row =? cols) M.

(** [M[r][j] = v] on a list of lists. *)
Definition set_entry (M : matrix K) (r j : nat) (v : F) : matrix K :=
  <[r := <[j := v]> (nth r M [])]> M.

(** The row that [M[i], M[p] = M[p], M[i]] leaves at index [r]. *)
Definition swap_idx (i p r : nat) : nat :=
  if decide (r = i) then p else if decide (r = p) then i else r.

(** A line whose bus indices lie in [[0, N)] and whose reactance is not
    zero. *)
Definition valid_line (N : Z) (l : line K) : bool :=
  let '(i, j, x) := l in
  ((0 <=? i) && (i <? N) && (0 <=? j) && (j <? N))%Z && negb (is_zero K x).

Definition valid_lines (N : Z) (lines : list (line K)) : bool :=
  forallb (valid_line N) lines.

(** What the four augmented assignments of one line do to the value [v]
    held at position [(r, c)]. *)
Definition line_effect (l : line K) (r c : nat) (v : F) : F :=
  let '(i, j, x) := l in
  let b := quot K (one K) x in
  let i := Z.to_nat i in
  let j := Z.to_nat j in
  let v := if decide (r = i /\ c = i) then add K v b else v in
  let v := if decide (r = j /\ c = j) then add K v b else v in
  let v := if decide (r = i /\ c = j) then sub K v b else v in
  if decide (r = j /\ c = i) then sub K v b else v.

(** The flow entry the program appends for line [l], given the angles. *)
Definition flow_of (angles : list F) (l f : line K) : Prop :=
  exists a_i a_j,
    getitem angles l.1.1 = Ok a_i /\ getitem angles l.1.2 = Ok a_j /\
    f = (l.1.1, l.1.2, quot K (sub K a_i a_j) l.2).

(** Line [l] has an end at bus [r]; joins the buses [r] and [c]; joins a
    bus to itself. *)
Definition touches (r : nat) (l : line K) : bool :=
  ((l.1.1 =? Z.of_nat r) || (l.1.2 =? Z.of_nat r))%Z.

Definition joins (r c : nat) (l : line K) : bool :=
  (((l.1.1 =? Z.of_nat r) && (l.1.2 =? Z.of_nat c)) ||
   ((l.1.1 =? Z.of_nat c) && (l.1.2 =? Z.of_nat r)))%Z.

Definition self_loop (l : line K) : bool := (l.1.1 =? l.1.2)%Z.

(** Bus [u] is reached from bus 0 along at most [k] lines. *)
Fixpoint reach (lines : list (line K)) (k u : nat) : bool :=
  match k with
  | 0 => u =? 0
  | S k' =>
      reach lines k' u ||
      existsb (fun l =>
                 ((l.1.1 =? Z.of_nat u)%Z && reach lines k' (Z.to_nat l.1.2)) ||
                 ((l.1.2 =? Z.of_nat u)%Z && reach lines k' (Z.to_nat l.1.1)))
              lines
  end.

(** With [N] buses a path needs fewer than [N] lines. *)
Definition connected_to_slack (N : Z) (lines : list (line K)) (u : nat)
    : bool :=
  reach lines (Z.to_nat N) u.

(** A path of lines from bus [u] to bus [v]. *)
Inductive path (lines : list (line K)) (u : nat) : nat -> Prop :=
| path_here : path lines u u
| path_line (w v : nat) (l : line K) :
    path lines u w -> l ∈ lines -> joins w v l = true -> path lines u v.

(** The row-by-vector product, summed from the left, and [A * x]. *)
Definition dot (u v : list F) : F :=
  foldl (add K) (zero K) (zip_with (mul K) u v).

Definition mat_vec (A : matrix K) (x : list F) : list F :=
  map (fun row => dot row x) A.

End Notions.

(** ** Notions of exact linear algebra *)

(** [f 0 + ... + f (n - 1)] *)
Fixpoint sum_upto (n : nat) (f : nat -> Qc) : Qc :=
  match n with
  | 0 => 0%Qc
  | S n' => (sum_upto n' f + f n')%Qc
  end.

Definition delta (r c : nat) : Qc := if decide (r = c) then 1%Qc else 0%Qc.

Definition Qc_max (a b : Qc) : Qc := if Qc_ltb a b then b else a.

(** The largest [abs(M[r][i])] for [r] in [range(i, n)]. *)
Definition column_max (M : matrix Exact) (i n : nat) : Qc :=
  foldr (fun r acc => Qc_max (Qcabs (entry M r i)) acc) 0%Qc (seq i (n - i)).

(** During [solve_linear_system A b] the loop reaches pivot column [i]
    and the largest candidate pivot there is below the threshold. *)
Definition small_pivot_at (A : matrix Exact) (b : list Qc) (i : nat) : bool :=
  match pivot_steps (length A) i (augment A b) with
  | Ok M => Qc_ltb (column_max M i (length A)) Qc_eps
  | Raise _ => false
  end.

Definition no_small_pivot (A : matrix Exact) (b : list Qc) : bool :=
  forallb (fun i => negb (small_pivot_at A b i)) (seq 0 (length A)).

(** The entry at [(r, c)] after the pivot step of column [i] that selected
    row [p]: rows swapped, row [i] divided by the pivot from column [i]
    on, the multiple of row [i] subtracted from the other rows. *)
Definition pivot_entry (M : matrix Exact) (i p r c : nat) : Qc :=
  let S r c := entry M (swap_idx i p r) c in
  let pivot := S i i in
  if decide (c < i) then S r c
  else if decide (r = i) then (S i c / pivot)%Qc
  else (S r c - S r i * (S i c / pivot))%Qc.

(** The first [i] columns are those of the identity. *)
Definition reduced (n i : nat) (M : matrix Exact) : Prop :=
  forall r c, r < n -> c < i -> entry M r c = delta r c.

(** Every row of the augmented matrix is orthogonal to [y]. *)
Definition annihilates (n : nat) (y : nat -> Qc) (M : matrix Exact) : Prop :=
  forall r, r < n -> sum_upto (n + 1) (fun c => entry M r c * y c)%Qc = 0%Qc.

(** What one line adds to the entry at [(r, c)]. *)
Definition line_delta (l : line Exact) (r c : nat) : Qc :=
  let '(i, j, x) := l in
  let i := Z.to_nat i in
  let j := Z.to_nat j in
  ((1 / x) * (delta r i * delta i c + delta r j * delta j c
              - delta r i * delta j c - delta r j * delta i c))%Qc.

(** What a list of lines adds to the entry at [(r, c)]. *)
Definition delta_sum (lines : list (line Exact)) (r c : nat) : Qc :=
  foldr (fun l acc => (line_delta l r c + acc)%Qc) 0%Qc lines.

(** The sum of [1 / x] over a list of lines. *)
Definition susceptance_sum (ls : list (line Exact)) : Qc :=
  foldr (fun l acc => (1 / l.2 + acc)%Qc) 0%Qc ls.

(** [A] has a non-zero vector in its kernel. *)
Definition singular (n : nat) (A : matrix Exact) : Prop :=
  exists v : nat -> Qc,
    (exists k, k < n /\ v k <> 0%Qc) /\
    forall r, r < n -> sum_upto n (fun c => entry A r c * v c)%Qc = 0%Qc.

(** ** Concrete networks and systems *)

(** The network of [main]. *)
Definition main_lines : list (line Float64) :=
  [(0%Z, 1%Z, 0.1%float); (0%Z, 2%Z, 0.2%float); (1%Z, 2%Z, 0.15%float)].

Definition main_injections : list float :=
  [100.0%float; (-40.0)%float; (-60.0)%float].

Definition main_angles : list float :=
  [0%float; (-5.7777777777777768)%float; (-8.4444444444444429)%float].

Definition main_flows : list (line Float64) :=
  [(0%Z, 1%Z, 57.777777777777764%float);
   (0%Z, 2%Z, 42.222222222222214%float);
   (1%Z, 2%Z, 17.777777777777775%float)].

(** The same network over the rationals. *)
Definition Qc_of (a : Z) (b : positive) : Qc := Q2Qc (a # b).

Definition main_lines_exact : list (line Exact) :=
  [(0%Z, 1%Z, Qc_of 1 10); (0%Z, 2%Z, Qc_of 2 10); (1%Z, 2%Z, Qc_of 15 100)].

Definition main_injections_exact : list Qc :=
  [Qc_of 100 1; Qc_of (-40) 1; Qc_of (-60) 1].

(** A line from a bus to itself. *)
Definition loop_lines : list (line Float64) := [(0%Z, 0%Z, 1%float)].
Definition loop_lines_exact : list (line Exact) := [(0%Z, 0%Z, 1%Qc)].

(** Three lines at bus 0, and the same lines in the reverse order. *)
Definition star_lines : list (line Float64) :=
  [(0%Z, 1%Z, 0.1%float); (0%Z, 2%Z, 0.2%float); (0%Z, 3%Z, 0.3%float)].

Definition star_lines_reversed : list (line Float64) :=
  [(0%Z, 3%Z, 0.3%float); (0%Z, 2%Z, 0.2%float); (0%Z, 1%Z, 0.1%float)].

Definition star_lines_exact : list (line Exact) :=
  [(0%Z, 1%Z, Qc_of 1 10); (0%Z, 2%Z, Qc_of 2 10); (0%Z, 3%Z, Qc_of 3 10)].

(** Four buses: bus 0 touches no line, the buses 1, 2, 3 form a triangle
    of lines with small reactances. *)
Definition island_lines : list (line Float64) :=
  [(1%Z, 2%Z, 0.0001%float); (2%Z, 3%Z, 0.0003%float);
   (1%Z, 3%Z, 0.0007%float)].

Definition island_injections : list float :=
  [0%float; 1%float; 2%float; (-3)%float].

Definition island_angles : list float :=
  [0%float; 0.0001480823863636363%float; 0.00013899147727272718%float;
   (-0.00048828125)%float].

Definition island_flows : list (line Float64) :=
  [(1%Z, 2%Z, 0.090909090909091148%float);
   (2%Z, 3%Z, 2.0909090909090908%float);
   (1%Z, 3%Z, 0.90909090909090906%float)].

Definition island_lines_exact : list (line Exact) :=
  [(1%Z, 2%Z, Qc_of 1 10000); (2%Z, 3%Z, Qc_of 3 10000);
   (1%Z, 3%Z, Qc_of 7 10000)].

Definition island_injections_exact : list Qc :=
  [Qc_of 0 1; Qc_of 1 1; Qc_of 2 1; Qc_of (-3) 1].

(** A system that passes the pivot test: its second pivot is [2^-39],
    about [1.8e-12].  The entry [1.000000000001819] is [1 + 2^-39] and
    [1.0000009536743164] is [1 + 2^-20], both exactly. *)
Definition near_singular_A : matrix Float64 :=
  [[1%float; 1%float]; [1%float; 1.000000000001819%float]].

Definition near_singular_x : list float :=
  [1%float; 1.0000009536743164%float].

Definition near_singular_b : list float :=
  [2.0000009536743164%float; 2.0000009536761354%float].

(** A well-conditioned system over the rationals. *)
Definition small_A : matrix Exact :=
  [[Qc_of 2 1; Qc_of 1 1]; [Qc_of 1 1; Qc_of 3 1]].

Definition small_x : list Qc := [Qc_of 1 1; Qc_of 2 1].

(** A matrix whose second column is twice the first. *)
Definition rank_one_A : matrix Exact :=
  [[Qc_of 1 1; Qc_of 2 1]; [Qc_of 2 1; Qc_of 4 1]].

Definition rank_one_b : list Qc := [Qc_of 1 1; Qc_of 1 1].

(** ** Notions for the behaviour at the edges *)

Section EdgeNotions.

Context {K : Arith}.

(** The non-negative index that Python reads a negative index as. *)
Definition wrap_index (N i : Z) : Z := if (i <? 0)%Z then (N + i)%Z else i.

Definition wrap_line (N : Z) (l : line K) : line K :=
  (wrap_index N l.1.1, wrap_index N l.1.2, l.2).

(** Both bus indices of the line are accepted by a list of length [N]. *)
Definition in_range (N : Z) (l : line K) : bool :=
  ((- N <=? l.1.1) && (l.1.1 <? N) && (- N <=? l.1.2) && (l.1.2 <? N))%Z.

(** The line with its two ends exchanged. *)
Definition flip_line (l : line K) : line K := (l.1.2, l.1.1, l.2).

(** The lines, those marked [true] with their ends exchanged. *)
Definition flip_some (flips : list bool) (lines : list (line K))
    : list (line K) :=
  zip_with (fun (b : bool) l => if b then flip_line l else l) flips lines.

End EdgeNotions.

(** The flow entry of a line whose ends were exchanged. *)
Definition negate_flow (f : line Exact) : line Exact :=
  (f.1.2, f.1.1, (- f.2)%Qc).

Definition negate_some (flips : list bool) (flows : list (line Exact))
    : list (line Exact) :=
  zip_with (fun (b : bool) f => if b then negate_flow f else f) flips flows.

(** The flows leaving bus [k] minus the flows entering it. *)
Definition net_outflow (flows : list (line Exact)) (k : nat) : Qc :=
  foldr (fun f acc =>
           ((delta k (Z.to_nat f.1.1) - delta k (Z.to_nat f.1.2)) * f.2
            + acc)%Qc)
        0%Qc flows.

(** ** Concrete inputs at the edges *)

(** The matrix of the network of [main] in binary64. *)
Definition main_B : matrix Float64 :=
  [[15%float; (-10)%float; (-5)%float];
   [(-10)%float; 16.666666666666668%float; (-6.666666666666667)%float];
   [(-5)%float; (-6.666666666666667)%float; 11.666666666666668%float]].

(** The network of [main] with some bus indices counted from the end. *)
Definition main_lines_negative : list (line Float64) :=
  [(0%Z, (-2)%Z, 0.1%float); ((-3)%Z, 2%Z, 0.2%float);
   (1%Z, (-1)%Z, 0.15%float)].

(** One valid line, then a line of zero reactance, then a line whose
    indices no matrix of three rows has. *)
Definition first_line : list (line Float64) := [(0%Z, 1%Z, 0.1%float)].
Definition stray_lines : list (line Float64) := [(7%Z, 7%Z, 0.5%float)].

(** The lines whose ends are exchanged: the first and the third. *)
Definition main_flips : list bool := [true; false; true].

(** The result of the run of [main] over the rationals. *)
Definition main_angles_exact : list Qc :=
  [Qc_of 0 1; Qc_of (-52) 9; Qc_of (-76) 9].

Definition main_flows_exact : list (line Exact) :=
  [(0%Z, 1%Z, Qc_of 520 9); (0%Z, 2%Z, Qc_of 380 9);
   (1%Z, 2%Z, Qc_of 160 9)].

(** The right-hand side [small_A * small_x]. *)
Definition small_b : list Qc := [Qc_of 4 1; Qc_of 7 1].

(** A vector that [rank_one_A] sends to zero. *)
Definition rank_one_v : list Qc := [Qc_of 2 1; Qc_of (-1) 1].

(** A line parallel to the third line of [main]. *)
Definition parallel_line_exact : list (line Exact) :=
  [(1%Z, 2%Z, Qc_of 3 10)].

(** ** Notions for runs that are compared *)

(** Two runs end alike: both return, or both raise the same exception. *)
Definition same_outcome {A B : Type} (m : result A) (m' : result B) : Prop :=
  match m, m' with
  | Ok _, Ok _ => True
  | Raise e, Raise e' => e = e'
  | _, _ => False
  end.

(** Two working matrices agree left of the last column. *)
Definition same_left {K : Arith} (n : nat) (M M' : matrix K) : Prop :=
  forall r c, r < n -> c < n -> entry M r c = entry M' r c.

(** [a * u + b * v], entry by entry. *)
Definition combine (a b : Qc) (u v : list Qc) : list Qc :=
  zip_with (fun p q => (a * p + b * q)%Qc) u v.

(** The flows [a * f + b * g], line by line. *)
Definition combine_flows (a b : Qc) (f g : list (line Exact))
    : list (line Exact) :=
  zip_with (fun p q : line Exact => (p.1.1, p.1.2, (a * p.2 + b * q.2)%Qc))
           f g.

(** A second right-hand side for [small_A], and its solution. *)
Definition small_b' : list Qc := [Qc_of 2 1; Qc_of 1 1].
Definition small_x' : list Qc := [Qc_of 1 1; Qc_of 0 1].

(** A second run on the network of [main]: nine units from bus 0 to
    bus 1. *)
Definition transfer_injections_exact : list Qc :=
  [Qc_of 9 1; Qc_of (-9) 1; Qc_of 0 1].

Definition transfer_angles_exact : list Qc :=
  [Qc_of 0 1; Qc_of (-7) 10; Qc_of (-2) 5].

Definition transfer_flows_exact : list (line Exact) :=
  [(0%Z, 1%Z, Qc_of 7 1); (0%Z, 2%Z, Qc_of 2 1); (1%Z, 2%Z, Qc_of (-2) 1)].

(** Injections of one unit at each of four buses. *)
Definition unit_injections : list float :=
  [1%float; 1%float; 1%float; 1%float].

(** ** Notions for the pivot test where [<] is an order *)

Section OrderNotions.

Context {K : Arith}.

Local Abbreviation F := (num K).

(** [<] is transitive, and total on the values that satisfy [ok]: such a
    value, if [a] is not below it, is below whatever [a] is below. *)
Definition ordered_on (ok : F -> bool) : Prop :=
  (forall a b c : F,
     ltb K a b = true -> ltb K b c = true -> ltb K a c = true) /\
  (forall a b c : F,
     ok b = true -> ltb K a b = false -> ltb K a c = true ->
     ltb K b c = true).

(** The candidate pivots of column [i]: the entries of rows [i .. n-1]. *)
Definition candidates (M : matrix K) (i n : nat) : list F :=
  map (fun r => entry M r i) (seq i (n - i)).

(** The largest absolute value among the candidates of column [i] is
    below the threshold: the absolute value of every candidate is. *)
Definition all_below (M : matrix K) (i n : nat) : bool :=
  forallb (fun v => ltb K (absv K v) (eps K)) (candidates M i n).

(** During [solve_linear_system A b] the loop reaches pivot column [i]
    and the largest absolute value among its candidates is below the
    threshold. *)
Definition largest_below_at (A : matrix K) (b : list F) (i : nat) : bool :=
  match pivot_steps (length A) i (augment A b) with
  | Ok M => all_below M i (length A)
  | Raise _ => false
  end.

(** The absolute values of the candidates of pivot column [i] satisfy
    [ok], if the loop reaches that column. *)
Definition comparable_at (ok : F -> bool) (A : matrix K) (b : list F)
    (i : nat) : bool :=
  match pivot_steps (length A) i (augment A b) with
  | Ok M => forallb (fun v => ok (absv K v)) (candidates M i (length A))
  | Raise _ => true
  end.

Definition comparable_candidates (ok : F -> bool) (A : matrix K)
    (b : list F) : bool :=
  forallb (comparable_at ok A b) (seq 0 (length A)).

(** [sum(row)] *)
Definition row_sum (row : list F) : F := foldl (add K) (zero K) row.

End OrderNotions.

(** The doubles that [<] orders: all but NaN. *)
Definition not_nan (v : float) : bool := negb (PrimFloat.is_nan v).

(** The place of a double that is not NaN in the order of the doubles:
    its class, then exponent and mantissa, negated for the negative
    ones. *)
Definition rank (x : spec_float) : Z * Z * Z :=
  match x with
  | S754_nan => (0, 0, 0)
  | S754_zero _ => (0, 0, 0)
  | S754_infinity s => (if s then -2 else 2, 0, 0)
  | S754_finite s m e =>
      if s then (-1, - e, - Z.pos m) else (1, e, Z.pos m)
  end%Z.

Definition rank_lt (p q : Z * Z * Z) : Prop :=
  (p.1.1 < q.1.1 \/
   (p.1.1 = q.1.1 /\ (p.1.2 < q.1.2 \/ (p.1.2 = q.1.2 /\ p.2 < q.2))))%Z.

(** Two systems with the same rows in the two orders; one entry of the
    first column is NaN, the other is [1e-13]. *)
Definition nan_first_A : matrix Float64 :=
  [[nan; 1%float]; [1e-13%float; 1%float]].

Definition nan_last_A : matrix Float64 :=
  [[1e-13%float; 1%float]; [nan; 1%float]].

Definition unit_rhs : list float := [1%float; 1%float].

(** A matrix of rank one in binary64. *)
Definition rank_one_A_float : matrix Float64 :=
  [[1%float; 2%float]; [2%float; 4%float]].

(** One line whose reactance is a subnormal double, and two lines whose
    susceptances differ by sixteen orders of magnitude. *)
Definition tiny_reactance_lines : list (line Float64) :=
  [(0%Z, 1%Z, 1e-320%float)].

Definition skewed_lines : list (line Float64) :=
  [(0%Z, 1%Z, 1e-16%float); (0%Z, 2%Z, 1%float)].

Definition skewed_B : matrix Float64 :=
  [[10000000000000000%float; (-10000000000000000)%float; (-1)%float];
   [(-10000000000000000)%float; 10000000000000000%float; 0%float];
   [(-1)%float; 0%float; 1%float]].

(** * Rules for [post] *)

Section Calculus.

Lemma post_bind {A B : Type} (P : B -> Prop) (Q : exn -> Prop)
    (m : result A) (k : A -> result B) :
  post (fun a => post P Q (k a)) Q m -> post P Q (bind m k).
Proof. destruct m; simpl; auto. Qed.

Lemma post_mono {A : Type} (P P' : A -> Prop) (Q Q' : exn -> Prop)
    (m : result A) :
  post P Q m -> (forall a, P a -> P' a) -> (forall e, Q e -> Q' e) ->
  post P' Q' m.
Proof. destruct m; simpl; auto. Qed.

Lemma post_and {A : Type} (P P' : A -> Prop) (Q Q' : exn -> Prop)
    (m : result A) :
  post P Q m -> post P' Q' m ->
  post (fun a => P a /\ P' a) (fun e => Q e /\ Q' e) m.
Proof. destruct m; simpl; auto. Qed.

Lemma post_never {A : Type} (P : A -> Prop) (m : result A) :
  post P never m <-> exists a, m = Ok a /\ P a.
Proof.
  destruct m as [a|e]; simpl; split.
  - intros H. exists a. auto.
  - intros (a' & [= <-] & H). exact H.
  - intros [].
  - intros (a' & [=] & _).
Qed.

Lemma post_Ok {A : Type} (P : A -> Prop) (Q : exn -> Prop) (m : result A)
    (a : A) :
  post P Q m -> m = Ok a -> P a.
Proof. intros H ->. exact H. Qed.

Lemma post_Raise {A : Type} (P : A -> Prop) (Q : exn -> Prop)
    (m : result A) (e : exn) :
  post P Q m -> m = Raise e -> Q e.
Proof. intros H ->. exact H. Qed.

Lemma bind_Ok {A B : Type} (m : result A) (k : A -> result B) (a : A) :
  m = Ok a -> bind m k = k a.
Proof. intros ->. reflexivity. Qed.

Lemma bind_Raise {A B : Type} (m : result A) (k : A -> result B) (e : exn) :
  m = Raise e -> bind m k = Raise e.
Proof. intros ->. reflexivity. Qed.

(** A loop over a list, with an invariant on the elements already
    processed. *)
Lemma post_for_each_from {X S : Type} (I : list X -> S -> Prop)
    (Q : exn -> Prop) (body : X -> S -> result S) (all : list X) :
  (forall done x rest s, all = done ++ x :: rest -> I done s ->
     post (I (done ++ [x])) Q (body x s)) ->
  forall rest done s, all = done ++ rest -> I done s ->
  post (I all) Q (for_each rest body s).
Proof.
  intros Hbody rest. induction rest as [|x rest IH]; intros done s Hall HI.
  - rewrite app_nil_r in Hall. subst. exact HI.
  - simpl. apply post_bind.
    eapply post_mono; [exact (Hbody done x rest s Hall HI) | | auto].
    intros s' HI'. apply (IH (done ++ [x])); [|exact HI'].
    rewrite <- app_assoc. exact Hall.
Qed.

Lemma post_for_each {X S : Type} (I : list X -> S -> Prop)
    (Q : exn -> Prop) (body : X -> S -> result S) (xs : list X) (s : S) :
  I [] s ->
  (forall done x rest s, xs = done ++ x :: rest -> I done s ->
     post (I (done ++ [x])) Q (body x s)) ->
  post (I xs) Q (for_each xs body s).
Proof.
  intros H0 Hbody.
  exact (post_for_each_from I Q body xs Hbody xs [] s eq_refl H0).
Qed.

(** A loop over [range(a, a + k)], with an invariant on the next index. *)
Lemma post_for_each_seq {S : Type} (I : nat -> S -> Prop) (Q : exn -> Prop)
    (body : nat -> S -> result S) (k a : nat) (s : S) :
  I a s ->
  (forall j s, a <= j < a + k -> I j s -> post (I (Datatypes.S j)) Q (body j s)) ->
  post (I (a + k)) Q (for_each (seq a k) body s).
Proof.
  revert a s. induction k as [|k IH]; intros a s H0 Hbody.
  - simpl. rewrite Nat.add_0_r. exact H0.
  - simpl. apply post_bind.
    eapply post_mono; [apply (Hbody a s); [lia | exact H0] | | auto].
    intros s' HI'. simpl in HI'.
    replace (a + Datatypes.S k) with (Datatypes.S a + k) by lia.
    apply IH; [exact HI'|].
    intros j s'' Hj. apply Hbody. lia.
Qed.

Lemma post_collect {X Y : Type} (R : X -> Y -> Prop) (Q : exn -> Prop)
    (f : X -> result Y) (xs : list X) :
  (forall x, x ∈ xs -> post (R x) Q (f x)) ->
  post (fun ys => Forall2 R xs ys) Q (collect f xs).
Proof.
  induction xs as [|x xs IH]; intros H; simpl.
  - constructor.
  - apply post_bind.
    eapply post_mono; [apply H; left | | auto].
    intros y Hy. apply post_bind.
    eapply post_mono; [apply IH; intros x' Hx'; apply H; right; exact Hx' | | auto].
    intros ys Hys. simpl. constructor; assumption.
Qed.

(** The loop raises exactly when some iteration does, after the
    iterations before it returned. *)
Lemma for_each_app {X S : Type} (body : X -> S -> result S)
    (xs ys : list X) (s : S) :
  for_each (xs ++ ys) body s =
  bind (for_each xs body s) (for_each ys body).
Proof.
  revert s. induction xs as [|x xs IH]; intros s; simpl; [reflexivity|].
  destruct (body x s) as [s'|e]; simpl; [apply IH | reflexivity].
Qed.

Lemma for_each_seq_Raise {S : Type} (body : nat -> S -> result S)
    (k : nat) (s : S) (e : exn) :
  for_each (seq 0 k) body s = Raise e <->
  exists i s_i, i < k /\ for_each (seq 0 i) body s = Ok s_i /\
                body i s_i = Raise e.
Proof.
  induction k as [|k IH].
  - simpl. split; [discriminate | intros (i & _ & Hi & _); lia].
  - rewrite seq_S, for_each_app. simpl.
    destruct (for_each (seq 0 k) body s) as [s_k|e'] eqn:Hk; simpl.
    + split.
      * destruct (body k s_k) as [s'|e'] eqn:Hb; simpl; [discriminate|].
        intros [= ->]. exists k, s_k. split; [lia|]. auto.
      * intros (i & s_i & Hi & Hrun & Hb).
        destruct (decide (i = k)) as [->|Hne].
        -- rewrite Hk in Hrun. injection Hrun as ->. rewrite Hb. reflexivity.
        -- assert (Hlt : i < k) by lia.
           assert (Hex : exists i s_i, i < k /\
                     for_each (seq 0 i) body s = Ok s_i /\
                     body i s_i = Raise e) by (exists i, s_i; auto).
           apply IH in Hex. discriminate.
    + split.
      * intros [= ->]. destruct (proj1 IH eq_refl) as (i & s_i & Hi & H1 & H2).
        exists i, s_i. split; [lia|]. auto.
      * intros (i & s_i & Hi & Hrun & Hb).
        destruct (decide (i = k)) as [->|Hne].
        -- rewrite Hk in Hrun. discriminate.
        -- assert (Hex : exists i s_i, i < k /\
                     for_each (seq 0 i) body s = Ok s_i /\
                     body i s_i = Raise e) by (exists i, s_i; split; [lia|auto]).
           apply IH in Hex. congruence.
Qed.

End Calculus.

(** * Indexing *)

Section Indexing.

Context {A : Type}.

Lemma item_lt (l : list A) (k : nat) (d : A) :
  k < length l -> item l k = Ok (nth k l d).
Proof.
  intros Hk. unfold item.
  destruct (nth_lookup_or_length l k d) as [-> | Hge]; [reflexivity | lia].
Qed.

Lemma item_ge (l : list A) (k : nat) :
  length l <= k -> item l k = Raise IndexError.
Proof.
  intros Hk. unfold item. rewrite lookup_ge_None_2 by exact Hk. reflexivity.
Qed.

Lemma store_lt (l : list A) (k : nat) (a : A) :
  k < length l -> store l k a = Ok (<[k := a]> l).
Proof. intros Hk. unfold store. destruct (decide _); [reflexivity | lia]. Qed.

Lemma norm_index_range (len : nat) (i : Z) :
  (0 <= i < Z.of_nat len)%Z -> norm_index len i = Ok (Z.to_nat i).
Proof.
  intros [H0 H1]. unfold norm_index.
  destruct (Z.leb_spec 0 i); [|lia].
  destruct (Z.ltb_spec i (Z.of_nat len)); [reflexivity | lia].
Qed.

Lemma getitem_range (l : list A) (i : Z) (d : A) :
  (0 <= i < Z.of_nat (length l))%Z ->
  getitem l i = Ok (nth (Z.to_nat i) l d).
Proof.
  intros Hi. unfold getitem. rewrite norm_index_range by exact Hi. simpl.
  apply item_lt. lia.
Qed.

Lemma setitem_range (l : list A) (i : Z) (a : A) :
  (0 <= i < Z.of_nat (length l))%Z ->
  setitem l i a = Ok (<[Z.to_nat i := a]> l).
Proof.
  intros Hi. unfold setitem. rewrite norm_index_range by exact Hi. simpl.
  apply store_lt. lia.
Qed.

Lemma nth_insert (l : list A) (j c : nat) (v d : A) :
  j < length l ->
  nth c (<[j := v]> l) d = if decide (c = j) then v else nth c l d.
Proof.
  intros Hj. rewrite !nth_lookup. destruct (decide (c = j)) as [->|Hne].
  - rewrite list_lookup_insert_eq by exact Hj. reflexivity.
  - rewrite list_lookup_insert_ne by auto. reflexivity.
Qed.

(** The exceptions indexing can raise. *)
Lemma post_item (l : list A) (k : nat) :
  post (fun _ => True) (fun e => e = IndexError) (item l k).
Proof. unfold item. destruct (l !! k); simpl; auto. Qed.

Lemma post_store (l : list A) (k : nat) (a : A) :
  post (fun l' => length l' = length l) (fun e => e = IndexError)
       (store l k a).
Proof.
  unfold store. destruct (decide _); simpl; [apply length_insert | reflexivity].
Qed.

Lemma post_norm_index (len : nat) (i : Z) :
  post (fun k => k < len) (fun e => e = IndexError) (norm_index len i).
Proof.
  unfold norm_index.
  destruct (Z.leb_spec 0 i), (Z.ltb_spec i (Z.of_nat len)); simpl; try lia;
    destruct (Z.ltb_spec i 0), (Z.leb_spec (- Z.of_nat len) i); simpl;
    try reflexivity; lia.
Qed.

Lemma post_getitem (l : list A) (i : Z) :
  post (fun _ => True) (fun e => e = IndexError) (getitem l i).
Proof.
  unfold getitem. apply post_bind.
  eapply post_mono; [apply post_norm_index | | auto].
  intros k _. apply post_item.
Qed.

Lemma post_setitem (l : list A) (i : Z) (a : A) :
  post (fun l' => length l' = length l) (fun e => e = IndexError)
       (setitem l i a).
Proof.
  unfold setitem. apply post_bind.
  eapply post_mono; [apply post_norm_index | | auto].
  intros k _. apply post_store.
Qed.

Lemma post_last_item (l : list A) :
  post (fun _ => True) (fun e => e = IndexError) (last_item l).
Proof. unfold last_item. destruct (last l); simpl; auto. Qed.

Lemma last_item_nth (l : list A) (d : A) :
  l <> [] -> last_item l = Ok (nth (length l - 1) l d).
Proof.
  intros Hl. unfold last_item. rewrite last_lookup.
  replace (pred (length l)) with (length l - 1) by lia.
  assert (Hlen : length l - 1 < length l).
  { destruct l; [congruence | simpl; lia]. }
  destruct (nth_lookup_or_length l (length l - 1) d) as [-> | Hge];
    [reflexivity | lia].
Qed.

End Indexing.

(** * Entries of a list of lists *)

Section Entries.

Context {K : Arith}.

Local Abbreviation F := (num K).

Lemma shape_length (rows cols : nat) (M : matrix K) :
  shape rows cols M -> length M = rows.
Proof. intros [H _]. exact H. Qed.

Lemma shape_row (rows cols : nat) (M : matrix K) (r : nat) :
  shape rows cols M -> r < rows -> length (nth r M []) = cols.
Proof. intros [_ H]. apply H. Qed.

Lemma has_shape_shape (rows cols : nat) (M : matrix K) :
  has_shape rows cols M = true -> shape rows cols M.
Proof.
  unfold has_shape. rewrite andb_true_iff, Nat.eqb_eq, forallb_forall.
  intros [Hlen Hrows]. split; [exact Hlen|].
  intros r Hr. apply Nat.eqb_eq. apply Hrows. apply nth_In. lia.
Qed.

Lemma shape_has_shape (rows cols : nat) (M : matrix K) :
  shape rows cols M -> has_shape rows cols M = true.
Proof.
  intros [Hlen Hrows]. unfold has_shape.
  rewrite andb_true_iff, Nat.eqb_eq, forallb_forall.
  split; [exact Hlen|]. intros row Hin. apply Nat.eqb_eq.
  destruct (In_nth M row [] Hin) as (r & Hr & <-). apply Hrows. lia.
Qed.

Lemma shape_set_entry (rows cols : nat) (M : matrix K) (r j : nat) (v : F) :
  shape rows cols M -> shape rows cols (set_entry M r j v).
Proof.
  intros [Hlen Hrows]. unfold set_entry. split.
  - rewrite length_insert. exact Hlen.
  - intros r' Hr'. destruct (decide (r < rows)) as [Hr|Hr].
    + rewrite nth_insert by lia. destruct (decide (r' = r)) as [->|_].
      * rewrite length_insert. auto.
      * auto.
    + rewrite list_insert_ge by lia. auto.
Qed.

Lemma entry_set_entry (rows cols : nat) (M : matrix K) (r j : nat) (v : F)
    (r' c' : nat) :
  shape rows cols M -> r < rows -> j < cols ->
  entry (set_entry M r j v) r' c' =
  if decide (r' = r /\ c' = j) then v else entry M r' c'.
Proof.
  intros [Hlen Hrows] Hr Hj. unfold entry, set_entry.
  rewrite nth_insert by lia.
  destruct (decide (r' = r)) as [->|Hne].
  - rewrite nth_insert by (rewrite Hrows; lia).
    destruct (decide (c' = j)) as [->|Hne'].
    + rewrite decide_True by auto. reflexivity.
    + rewrite decide_False by (intros [_ ?]; auto). reflexivity.
  - rewrite decide_False by (intros [? _]; auto). reflexivity.
Qed.

(** When the new value is computed from the old one, the update reads
    pointwise. *)
Lemma entry_set_entry_fun (rows cols : nat) (M : matrix K) (r j : nat)
    (f : F -> F) (r' c' : nat) :
  shape rows cols M -> r < rows -> j < cols ->
  entry (set_entry M r j (f (entry M r j))) r' c' =
  if decide (r' = r /\ c' = j) then f (entry M r' c') else entry M r' c'.
Proof.
  intros HM Hr Hj. rewrite (entry_set_entry rows cols) by assumption.
  destruct (decide _) as [[-> ->]|_]; reflexivity.
Qed.

Lemma aug_at_eq (rows cols : nat) (M : matrix K) (r j : nat)
    (f : F -> result F) (v' : F) :
  shape rows cols M -> r < rows -> j < cols ->
  f (entry M r j) = Ok v' ->
  aug_at M r j f = Ok (set_entry M r j v').
Proof.
  intros [Hlen Hrows] Hr Hj Hf. unfold aug_at.
  rewrite (item_lt M r []) by lia. simpl.
  rewrite (item_lt _ j (zero K)) by (rewrite Hrows; lia). simpl.
  fold (entry M r j). rewrite Hf. simpl.
  rewrite store_lt by (rewrite Hrows; lia). simpl.
  rewrite store_lt by lia. reflexivity.
Qed.

Lemma aug_assign_eq (rows cols : nat) (B : matrix K) (i j : Z) (f : F -> F) :
  shape rows cols B ->
  (0 <= i < Z.of_nat rows)%Z -> (0 <= j < Z.of_nat cols)%Z ->
  aug_assign B i j f =
  Ok (set_entry B (Z.to_nat i) (Z.to_nat j)
        (f (entry B (Z.to_nat i) (Z.to_nat j)))).
Proof.
  intros [Hlen Hrows] Hi Hj. unfold aug_assign.
  rewrite (getitem_range B i []) by lia. simpl.
  assert (Hrow : length (nth (Z.to_nat i) B []) = cols) by (apply Hrows; lia).
  rewrite (getitem_range _ j (zero K)) by lia. simpl.
  rewrite setitem_range by lia. simpl.
  rewrite setitem_range by lia. reflexivity.
Qed.

Lemma shape_zeros (n : nat) : shape n n (zeros (K := K) n).
Proof.
  unfold zeros. split.
  - apply length_replicate.
  - intros r Hr. rewrite nth_lookup, lookup_replicate_2 by exact Hr.
    simpl. apply length_replicate.
Qed.

Lemma entry_zeros (n r c : nat) : entry (zeros (K := K) n) r c = zero K.
Proof.
  unfold entry, zeros. rewrite !nth_lookup.
  destruct (decide (r < n)) as [Hr|Hr].
  - rewrite lookup_replicate_2 by exact Hr. simpl.
    destruct (decide (c < n)) as [Hc|Hc].
    + rewrite lookup_replicate_2 by exact Hc. reflexivity.
    + rewrite lookup_ge_None_2 by (rewrite length_replicate; lia). reflexivity.
  - rewrite (lookup_ge_None_2 (replicate n _) r)
      by (rewrite length_replicate; lia).
    reflexivity.
Qed.

(** Two matrices of one shape with the same entries are equal. *)
Lemma matrix_ext (rows cols : nat) (M M' : matrix K) :
  shape rows cols M -> shape rows cols M' ->
  (forall r c, r < rows -> c < cols -> entry M r c = entry M' r c) ->
  M = M'.
Proof.
  intros [Hlen Hrows] [Hlen' Hrows'] Hent.
  apply (nth_ext _ _ [] []); [congruence|].
  intros r Hr. rewrite Hlen in Hr.
  apply (nth_ext _ _ (zero K) (zero K)).
  - rewrite Hrows, Hrows' by exact Hr. reflexivity.
  - intros c Hc. rewrite Hrows in Hc by exact Hr. apply Hent; assumption.
Qed.

End Entries.

(** * build_b_matrix, in every arithmetic *)

Section Build.

Context {K : Arith}.

Local Abbreviation F := (num K).

Lemma internal_not_mismatch (e : exn) :
  internal_exn e -> e <> ValueError mismatch_msg.
Proof. intros [-> | [-> | [-> | ->]]]; discriminate. Qed.

Lemma post_py_div (a b : F) :
  post (fun q => q = quot K a b) (fun e => e = ZeroDivisionError)
       (py_div a b).
Proof. unfold py_div. destruct (is_zero K b); simpl; reflexivity. Qed.

Lemma post_aug_assign (B : matrix K) (i j : Z) (f : F -> F) :
  post (fun B' => length B' = length B) internal_exn (aug_assign B i j f).
Proof.
  unfold aug_assign. apply post_bind.
  eapply post_mono; [apply post_getitem | | intros e ->; left; reflexivity].
  intros row _. apply post_bind.
  eapply post_mono; [apply post_getitem | | intros e ->; left; reflexivity].
  intros v _. apply post_bind.
  eapply post_mono; [apply post_setitem | | intros e ->; left; reflexivity].
  intros row' _.
  eapply post_mono; [apply post_setitem | | intros e ->; left; reflexivity].
  auto.
Qed.

Lemma post_add_line (l : line K) (B : matrix K) :
  post (fun B' => length B' = length B) internal_exn (add_line l B).
Proof.
  destruct l as [[i j] x]. unfold add_line. apply post_bind.
  eapply post_mono;
    [apply post_py_div | | intros e ->; right; left; reflexivity].
  intros b _. apply post_bind.
  eapply post_mono; [apply post_aug_assign | | auto].
  intros B1 H1. apply post_bind.
  eapply post_mono; [apply post_aug_assign | | auto].
  intros B2 H2. apply post_bind.
  eapply post_mono; [apply post_aug_assign | | auto].
  intros B3 H3.
  eapply post_mono; [apply post_aug_assign | | auto].
  intros B4 H4. congruence.
Qed.

(** Whatever the lines are, a matrix that is returned has [num_nodes]
    rows, and the exceptions are those of indexing and division. *)
Lemma post_build_b_matrix (num_nodes : Z) (lines : list (line K)) :
  post (fun B => length B = Z.to_nat num_nodes) internal_exn
       (build_b_matrix num_nodes lines).
Proof.
  unfold build_b_matrix.
  apply (post_for_each
           (fun _ (B : matrix K) => length B = Z.to_nat num_nodes)).
  - apply shape_length with (cols := Z.to_nat num_nodes). apply shape_zeros.
  - intros done l rest B _ HB.
    eapply post_mono; [apply post_add_line | | auto].
    intros B' HB'. congruence.
Qed.

Lemma valid_line_inv (N : Z) (i j : Z) (x : F) :
  valid_line N (i, j, x) = true ->
  (0 <= i < N)%Z /\ (0 <= j < N)%Z /\ is_zero K x = false.
Proof.
  unfold valid_line. rewrite !andb_true_iff, negb_true_iff.
  rewrite !Z.leb_le, !Z.ltb_lt. intuition lia.
Qed.

(** One valid line on a square matrix: no exception, and every entry
    changes as [line_effect] says. *)
Lemma add_line_entries (N : Z) (l : line K) (B : matrix K) :
  valid_line N l = true ->
  shape (Z.to_nat N) (Z.to_nat N) B ->
  exists B',
    add_line l B = Ok B' /\
    shape (Z.to_nat N) (Z.to_nat N) B' /\
    forall r c, entry B' r c = line_effect l r c (entry B r c).
Proof.
  destruct l as [[i j] x]. intros Hv HB.
  apply valid_line_inv in Hv as (Hi & Hj & Hx).
  set (n := Z.to_nat N) in *.
  assert (Hi' : (0 <= i < Z.of_nat n)%Z) by lia.
  assert (Hj' : (0 <= j < Z.of_nat n)%Z) by lia.
  unfold add_line, py_div. rewrite Hx. simpl.
  set (b := quot K (one K) x).
  rewrite (aug_assign_eq n n) by assumption. simpl.
  set (B1 := set_entry B _ _ _).
  assert (HB1 : shape n n B1) by (apply shape_set_entry; exact HB).
  rewrite (aug_assign_eq n n) by assumption. simpl.
  set (B2 := set_entry B1 _ _ _).
  assert (HB2 : shape n n B2) by (apply shape_set_entry; exact HB1).
  rewrite (aug_assign_eq n n) by assumption. simpl.
  set (B3 := set_entry B2 _ _ _).
  assert (HB3 : shape n n B3) by (apply shape_set_entry; exact HB2).
  rewrite (aug_assign_eq n n) by assumption.
  eexists. split; [reflexivity|]. split; [apply shape_set_entry; exact HB3|].
  intros r c. unfold line_effect. fold b.
  rewrite (entry_set_entry_fun n n _ _ _ (fun v => sub K v b))
    by (assumption || lia).
  subst B3.
  rewrite (entry_set_entry_fun n n _ _ _ (fun v => sub K v b))
    by (assumption || lia).
  subst B2.
  rewrite (entry_set_entry_fun n n _ _ _ (fun v => add K v b))
    by (assumption || lia).
  subst B1.
  rewrite (entry_set_entry_fun n n _ _ _ (fun v => add K v b))
    by (assumption || lia).
  reflexivity.
Qed.

Lemma valid_lines_app (N : Z) (xs ys : list (line K)) :
  valid_lines N (xs ++ ys) = true ->
  valid_lines N xs = true /\ valid_lines N ys = true.
Proof. unfold valid_lines. rewrite forallb_app, andb_true_iff. auto. Qed.

(** On valid lines the matrix is built, it is square, and each entry is
    the fold of [line_effect] over the lines, in their order. *)
Lemma build_b_matrix_entries (N : Z) (lines : list (line K)) :
  valid_lines N lines = true ->
  exists B,
    build_b_matrix N lines = Ok B /\
    shape (Z.to_nat N) (Z.to_nat N) B /\
    forall r c,
      entry B r c = foldl (fun v l => line_effect l r c v) (zero K) lines.
Proof.
  intros Hv. apply post_never. unfold build_b_matrix.
  apply (post_for_each
           (fun done (B : matrix K) =>
              shape (Z.to_nat N) (Z.to_nat N) B /\
              forall r c,
                entry B r c =
                foldl (fun v l => line_effect l r c v) (zero K) done)).
  - split; [apply shape_zeros|]. intros r c. apply entry_zeros.
  - intros done l rest B Heq [HB Hent].
    assert (Hl : valid_line N l = true).
    { rewrite Heq in Hv. apply valid_lines_app in Hv as [_ Hv].
      simpl in Hv. apply andb_true_iff in Hv as [Hv _]. exact Hv. }
    destruct (add_line_entries N l B Hl HB) as (B' & -> & HB' & Hent').
    simpl. split; [exact HB'|].
    intros r c. rewrite foldl_app. simpl. rewrite Hent', Hent. reflexivity.
Qed.

(** The effect of a line is the same at [(r, c)] and at [(c, r)]. *)
Lemma line_effect_sym (l : line K) (r c : nat) (v : F) :
  line_effect l r c v = line_effect l c r v.
Proof.
  destruct l as [[i j] x]. unfold line_effect.
  set (a := Z.to_nat i). set (b := Z.to_nat j).
  destruct (decide (r = c)) as [->|Hrc]; [reflexivity|].
  destruct (decide (r = a)), (decide (c = a)),
           (decide (r = b)), (decide (c = b));
    try (exfalso; lia);
    repeat match goal with
      | |- context [decide ?P] =>
          first [ rewrite (decide_True (P := P)) by lia
                | rewrite (decide_False (P := P)) by lia ]
      end;
    reflexivity.
Qed.

Lemma foldl_line_effect_sym (lines : list (line K)) (r c : nat) (v : F) :
  foldl (fun v l => line_effect l r c v) v lines =
  foldl (fun v l => line_effect l c r v) v lines.
Proof.
  revert v. induction lines as [|l lines IH]; intros v; simpl; [reflexivity|].
  rewrite line_effect_sym. apply IH.
Qed.

(** In every arithmetic the matrix built from valid lines is symmetric:
    the two entries are computed by the same operations. *)
Lemma build_b_matrix_symmetric (N : Z) (lines : list (line K)) (B : matrix K) :
  valid_lines N lines = true ->
  build_b_matrix N lines = Ok B ->
  forall r c, entry B r c = entry B c r.
Proof.
  intros Hv HB r c.
  destruct (build_b_matrix_entries N lines Hv) as (B' & HB' & _ & Hent).
  assert (B' = B) as -> by congruence.
  rewrite !Hent. apply foldl_line_effect_sym.
Qed.

End Build.

(** * The exceptions of the solver, and the length of its result *)

Section Internal.

Context {K : Arith}.

Local Abbreviation F := (num K).

Lemma post_bind_internal {A B : Type} (P : B -> Prop) (m : result A)
    (k : A -> result B) :
  post (fun _ => True) internal_exn m ->
  (forall a, post P internal_exn (k a)) ->
  post P internal_exn (bind m k).
Proof.
  intros Hm Hk. apply post_bind.
  eapply post_mono; [exact Hm | | auto]. intros a _. apply Hk.
Qed.

Lemma item_internal {A : Type} (l : list A) (k : nat) :
  post (fun _ => True) internal_exn (item l k).
Proof.
  eapply post_mono; [apply post_item | auto | intros e ->; left; reflexivity].
Qed.

Lemma store_internal {A : Type} (l : list A) (k : nat) (a : A) :
  post (fun _ => True) internal_exn (store l k a).
Proof.
  eapply post_mono; [apply post_store | auto | intros e ->; left; reflexivity].
Qed.

Lemma getitem_internal {A : Type} (l : list A) (i : Z) :
  post (fun _ => True) internal_exn (getitem l i).
Proof.
  eapply post_mono;
    [apply post_getitem | auto | intros e ->; left; reflexivity].
Qed.

Lemma last_item_internal {A : Type} (l : list A) :
  post (fun _ => True) internal_exn (last_item l).
Proof.
  eapply post_mono;
    [apply post_last_item | auto | intros e ->; left; reflexivity].
Qed.

Lemma py_div_internal (a b : F) :
  post (fun _ => True) internal_exn (py_div a b).
Proof.
  eapply post_mono;
    [apply post_py_div | auto | intros e ->; right; left; reflexivity].
Qed.

Lemma for_each_internal {X S : Type} (body : X -> S -> result S)
    (xs : list X) (s : S) :
  (forall x s, post (fun _ => True) internal_exn (body x s)) ->
  post (fun _ => True) internal_exn (for_each xs body s).
Proof.
  intros Hbody. apply (post_for_each (fun _ _ => True)); [exact I|].
  intros done x rest s' _ _. apply Hbody.
Qed.

Lemma aug_at_internal (M : matrix K) (r j : nat) (f : F -> result F) :
  (forall v, post (fun _ => True) internal_exn (f v)) ->
  post (fun _ => True) internal_exn (aug_at M r j f).
Proof.
  intros Hf. unfold aug_at.
  apply post_bind_internal; [apply item_internal | intros row].
  apply post_bind_internal; [apply item_internal | intros v].
  apply post_bind_internal; [apply Hf | intros v'].
  apply post_bind_internal; [apply store_internal | intros row'].
  apply store_internal.
Qed.

Lemma pivot_key_internal (M : matrix K) (i r : nat) :
  post (fun _ => True) internal_exn (pivot_key M i r).
Proof.
  unfold pivot_key.
  apply post_bind_internal; [apply item_internal | intros row].
  apply post_bind_internal; [apply item_internal | intros v].
  exact I.
Qed.

Lemma max_from_internal (key : nat -> result F) (rs : list nat)
    (best : nat) (best_key : F) :
  (forall r, post (fun _ => True) internal_exn (key r)) ->
  post (fun _ => True) internal_exn (max_from key rs best best_key).
Proof.
  intros Hkey. revert best best_key.
  induction rs as [|r rs IH]; intros best best_key; simpl; [exact I|].
  apply post_bind_internal; [apply Hkey | intros k].
  destruct (ltb K best_key k); apply IH.
Qed.

Lemma py_max_internal (key : nat -> result F) (rs : list nat) :
  (forall r, post (fun _ => True) internal_exn (key r)) ->
  post (fun _ => True) internal_exn (py_max key rs).
Proof.
  intros Hkey. destruct rs as [|r rs]; simpl.
  - right; right; right. reflexivity.
  - apply post_bind_internal; [apply Hkey | intros k].
    apply max_from_internal. exact Hkey.
Qed.

Lemma swap_rows_internal (M : matrix K) (i p : nat) :
  post (fun _ => True) internal_exn (swap_rows M i p).
Proof.
  unfold swap_rows.
  apply post_bind_internal; [apply item_internal | intros row_p].
  apply post_bind_internal; [apply item_internal | intros row_i].
  apply post_bind_internal; [apply store_internal | intros M'].
  apply store_internal.
Qed.

Lemma normalize_internal (n i : nat) (pivot : F) (M : matrix K) :
  post (fun _ => True) internal_exn (normalize n i pivot M).
Proof.
  unfold normalize. apply for_each_internal. intros j M'.
  apply aug_at_internal. intros v. apply py_div_internal.
Qed.

Lemma eliminate_row_internal (n i r : nat) (factor : F) (M : matrix K) :
  post (fun _ => True) internal_exn (eliminate_row n i r factor M).
Proof.
  unfold eliminate_row. apply for_each_internal. intros j M'.
  apply aug_at_internal. intros v.
  apply post_bind_internal; [apply item_internal | intros row_i].
  apply post_bind_internal; [apply item_internal | intros w].
  exact I.
Qed.

Lemma eliminate_internal (n i : nat) (M : matrix K) :
  post (fun _ => True) internal_exn (eliminate n i M).
Proof.
  unfold eliminate. apply for_each_internal. intros r M'.
  destruct (decide (r = i)); [exact I|].
  apply post_bind_internal; [apply item_internal | intros row_r].
  apply post_bind_internal; [apply item_internal | intros factor].
  apply eliminate_row_internal.
Qed.

Lemma pivot_step_internal (n i : nat) (M : matrix K) :
  post (fun _ => True) internal_exn (pivot_step n i M).
Proof.
  unfold pivot_step.
  apply post_bind_internal;
    [apply py_max_internal; intros r; apply pivot_key_internal | intros p].
  apply post_bind_internal; [apply swap_rows_internal | intros M1].
  apply post_bind_internal; [apply item_internal | intros row_i].
  apply post_bind_internal; [apply item_internal | intros pivot].
  destruct (ltb K (absv K pivot) (eps K)).
  - right; right; left. reflexivity.
  - apply post_bind_internal; [apply normalize_internal | intros M2].
    apply eliminate_internal.
Qed.

Lemma read_solution_length (n : nat) (M : matrix K) :
  post (fun x => length x = n) internal_exn (read_solution n M).
Proof.
  unfold read_solution.
  eapply post_mono;
    [apply (post_collect (fun _ _ => True) internal_exn) | | auto].
  - intros r _.
    apply post_bind_internal; [apply item_internal | intros row].
    apply last_item_internal.
  - intros x Hx. apply Forall2_length in Hx. rewrite <- Hx.
    apply length_seq.
Qed.

(** Whatever the arguments are, a returned solution has as many entries
    as [A] has rows. *)
Lemma solve_linear_system_length (A : matrix K) (b : list F) :
  post (fun x => length x = length A) internal_exn (solve_linear_system A b).
Proof.
  unfold solve_linear_system.
  apply post_bind_internal; [|intros M; apply read_solution_length].
  unfold pivot_steps. apply for_each_internal. intros i M.
  apply pivot_step_internal.
Qed.

Lemma line_flow_spec (angles : list F) (l : line K) :
  post (flow_of angles l) internal_exn (line_flow angles l).
Proof.
  destruct l as [[i j] x]. unfold line_flow. apply post_bind.
  destruct (getitem angles i) as [a_i|e] eqn:Hi; simpl;
    [|apply (post_Raise _ _ _ _ (getitem_internal angles i) Hi)].
  apply post_bind.
  destruct (getitem angles j) as [a_j|e] eqn:Hj; simpl;
    [|apply (post_Raise _ _ _ _ (getitem_internal angles j) Hj)].
  apply post_bind.
  eapply post_mono;
    [apply post_py_div | | intros e ->; right; left; reflexivity].
  intros q ->. simpl. exists a_i, a_j. auto.
Qed.

End Internal.

(** * dc_power_flow, in every arithmetic *)

Section FlowEngine.

Context {K : Arith}.

Local Abbreviation F := (num K).

Lemma length_drop_slack (B : matrix K) :
  length (drop_slack B) = length B - 1.
Proof. unfold drop_slack. rewrite length_map, length_drop. reflexivity. Qed.

Lemma nth_drop_1 {A : Type} (l : list A) (k : nat) (d : A) :
  nth k (drop 1 l) d = nth (S k) l d.
Proof. rewrite !nth_lookup, lookup_drop. reflexivity. Qed.

Lemma entry_drop_slack (B : matrix K) (r c : nat) :
  entry (drop_slack B) r c = entry B (S r) (S c).
Proof.
  unfold entry, drop_slack.
  change (@nil F) with (drop 1 (@nil F)) at 1.
  rewrite map_nth, !nth_drop_1. reflexivity.
Qed.

Lemma shape_drop_slack (n : nat) (B : matrix K) :
  shape n n B -> shape (n - 1) (n - 1) (drop_slack B).
Proof.
  intros [Hlen Hrows]. split.
  - rewrite length_drop_slack. lia.
  - intros r Hr. unfold drop_slack.
    change (@nil F) with (drop 1 (@nil F)).
    rewrite map_nth, nth_drop_1, length_drop, Hrows by lia. reflexivity.
Qed.

(** Past the dimension check only [internal_exn] exceptions are raised. *)
Lemma dc_power_flow_internal (num_nodes : Z) (lines : list (line K))
    (injections : list F) :
  Z.of_nat (length injections) = num_nodes ->
  post (fun _ => True) internal_exn
       (dc_power_flow num_nodes lines injections).
Proof.
  intros Hlen. unfold dc_power_flow.
  destruct (decide _) as [Hne|_]; [contradiction|].
  apply post_bind_internal.
  { eapply post_mono; [apply post_build_b_matrix | auto | auto]. }
  intros B. apply post_bind_internal.
  { eapply post_mono; [apply solve_linear_system_length | auto | auto]. }
  intros x. apply post_bind_internal; [|intros flows; exact I].
  eapply post_mono;
    [apply (post_collect (fun _ _ => True) internal_exn) | auto | auto].
  intros l _.
  eapply post_mono; [apply line_flow_spec | auto | auto].
Qed.

(** C5. [dc_power_flow] raises the dimension-mismatch [ValueError] if and
    only if the length of the injection vector differs from [num_nodes].
    The statement is for every line list, also one on which
    [build_b_matrix] would raise: the check comes first, and nothing that
    runs after it raises this exception. *)
Theorem dc_power_flow_mismatch_iff (num_nodes : Z) (lines : list (line K))
    (injections : list F) :
  dc_power_flow num_nodes lines injections = Raise (ValueError mismatch_msg)
  <-> Z.of_nat (length injections) <> num_nodes.
Proof.
  split.
  - intros Hraise Hlen.
    pose proof (dc_power_flow_internal num_nodes lines injections Hlen) as H.
    rewrite Hraise in H. simpl in H.
    apply internal_not_mismatch in H. congruence.
  - intros Hne. unfold dc_power_flow.
    destruct (decide _) as [_|Heq]; [reflexivity | contradiction].
Qed.

(** The mismatch is reported without looking at the lines. *)
Lemma dc_power_flow_mismatch_first (num_nodes : Z)
    (lines lines' : list (line K)) (injections : list F) :
  Z.of_nat (length injections) <> num_nodes ->
  dc_power_flow num_nodes lines injections =
  dc_power_flow num_nodes lines' injections.
Proof.
  intros Hne. unfold dc_power_flow.
  destruct (decide _) as [_|Heq]; [reflexivity | contradiction].
Qed.

(** C3, as amended. When [dc_power_flow] returns [(angles, flows)]:
    [angles] is [0.0] followed by the solution of the reduced system, so
    its length is [num_nodes] whenever [num_nodes >= 1]; and [flows] has
    one entry per input line, in the input order, the entry of line
    [(i, j, x)] being [(i, j, (angles[i] - angles[j]) / x)]. *)
Theorem dc_power_flow_returns (num_nodes : Z) (lines : list (line K))
    (injections : list F) (angles : list F) (flows : list (line K)) :
  dc_power_flow num_nodes lines injections = Ok (angles, flows) ->
  ((1 <= num_nodes)%Z -> length angles = Z.to_nat num_nodes) /\
  angles !! 0 = Some (zero K) /\
  (exists B,
     build_b_matrix num_nodes lines = Ok B /\
     solve_linear_system (drop_slack B) (drop 1 injections) =
       Ok (drop 1 angles)) /\
  length flows = length lines /\
  Forall2 (flow_of angles) lines flows.
Proof.
  unfold dc_power_flow. destruct (decide _) as [|_]; [discriminate|].
  destruct (build_b_matrix num_nodes lines) as [B|e] eqn:HB;
    simpl; [|discriminate].
  destruct (solve_linear_system _ _) as [x|e] eqn:Hx; simpl; [|discriminate].
  destruct (collect _ lines) as [fl|e] eqn:Hfl; simpl; [|discriminate].
  intros [= <- <-].
  assert (Hflows : Forall2 (flow_of (zero K :: x)) lines fl).
  { refine (post_Ok _ _ _ _ (post_collect _ internal_exn _ _ _) Hfl).
    intros l _. apply line_flow_spec. }
  split; [|split; [reflexivity|split; [|split]]].
  - intros HN.
    pose proof (post_Ok _ _ _ _ (post_build_b_matrix num_nodes lines) HB)
      as HlenB.
    pose proof (post_Ok _ _ _ _ (solve_linear_system_length _ _) Hx) as Hlenx.
    simpl in HlenB, Hlenx. rewrite length_drop_slack in Hlenx.
    simpl. lia.
  - exists B. split; [reflexivity|]. exact Hx.
  - symmetry. exact (Forall2_length _ _ _ Hflows).
  - exact Hflows.
Qed.

(** C10. The empty system is solved without any test, and a one-bus
    network is accepted with any injection at the slack bus. *)
Theorem degenerate_empty_system :
  solve_linear_system (K := K) [] [] = Ok [] /\
  forall p : F, dc_power_flow 1 [] [p] = Ok ([zero K], []).
Proof. split; [reflexivity|]. intros p. reflexivity. Qed.

End FlowEngine.

(** * The loops of one pivot step, entry by entry *)

Section PivotLoops.

Context {K : Arith}.

Local Abbreviation F := (num K).

Lemma item_row (rows cols : nat) (M : matrix K) (r : nat) :
  shape rows cols M -> r < rows -> item M r = Ok (nth r M []).
Proof. intros [Hlen _] Hr. apply item_lt. lia. Qed.

Lemma item_entry (rows cols : nat) (M : matrix K) (r c : nat) :
  shape rows cols M -> r < rows -> c < cols ->
  item (nth r M []) c = Ok (entry M r c).
Proof. intros [_ Hrows] Hr Hc. apply item_lt. rewrite Hrows; lia. Qed.

Lemma pivot_key_eq (rows cols : nat) (M : matrix K) (i r : nat) :
  shape rows cols M -> r < rows -> i < cols ->
  pivot_key M i r = Ok (absv K (entry M r i)).
Proof.
  intros HM Hr Hi. unfold pivot_key.
  rewrite (item_row rows cols) by assumption. simpl.
  rewrite (item_entry rows cols) by assumption. reflexivity.
Qed.

Lemma swap_rows_entries (rows cols : nat) (M : matrix K) (i p : nat) :
  shape rows cols M -> i < rows -> p < rows ->
  exists M',
    swap_rows M i p = Ok M' /\ shape rows cols M' /\
    forall r c, entry M' r c = entry M (swap_idx i p r) c.
Proof.
  intros HM Hi Hp. pose proof HM as [Hlen Hrows]. unfold swap_rows.
  rewrite (item_row rows cols M p), (item_row rows cols M i) by assumption.
  simpl. rewrite store_lt by lia. simpl.
  rewrite store_lt by (rewrite length_insert; lia).
  eexists. split; [reflexivity|]. split.
  - split; [rewrite !length_insert; exact Hlen|].
    intros r Hr. rewrite nth_insert by (rewrite length_insert; lia).
    destruct (decide (r = p)) as [->|_]; [auto|].
    rewrite nth_insert by lia.
    destruct (decide (r = i)) as [->|_]; auto.
  - intros r c. unfold entry, swap_idx.
    rewrite nth_insert by (rewrite length_insert; lia).
    destruct (decide (r = p)) as [->|Hne].
    + destruct (decide (p = i)) as [->|_]; reflexivity.
    + rewrite nth_insert by lia.
      destruct (decide (r = i)); reflexivity.
Qed.

Lemma normalize_entries (n i : nat) (pivot : F) (M : matrix K) :
  shape n (n + 1) M -> i < n -> is_zero K pivot = false ->
  exists M',
    normalize n i pivot M = Ok M' /\ shape n (n + 1) M' /\
    forall r c,
      entry M' r c =
      if decide (r = i /\ i <= c <= n) then quot K (entry M r c) pivot
      else entry M r c.
Proof.
  intros HM Hi Hpv. unfold normalize.
  pose proof (post_for_each_seq
    (fun j (M' : matrix K) =>
       shape n (n + 1) M' /\
       forall r c,
         entry M' r c =
         if decide (r = i /\ i <= c < j) then quot K (entry M r c) pivot
         else entry M r c)
    never
    (fun j M => aug_at M i j (fun v => py_div v pivot))
    (n + 1 - i) i M) as Hloop.
  apply post_never in Hloop.
  - destruct Hloop as (M' & HM' & Hshape & Hent).
    exists M'. split; [exact HM'|]. split; [exact Hshape|].
    intros r c. rewrite Hent.
    destruct (decide (r = i /\ i <= c <= n)), (decide (r = i /\ i <= c < i + (n + 1 - i)));
      try reflexivity; exfalso; lia.
  - split; [exact HM|]. intros r c.
    rewrite decide_False by lia. reflexivity.
  - intros j M1 Hj [HM1 Hent].
    assert (Hdiv : py_div (entry M1 i j) pivot =
                   Ok (quot K (entry M1 i j) pivot)).
    { unfold py_div. rewrite Hpv. reflexivity. }
    rewrite (aug_at_eq n (n + 1) M1 i j _ _ HM1) by (lia || exact Hdiv).
    simpl. split; [apply shape_set_entry; exact HM1|].
    intros r c. rewrite (entry_set_entry n (n + 1)) by (assumption || lia).
    rewrite !Hent.
    destruct (decide (r = i /\ c = j)) as [[-> ->]|Hne].
    + rewrite decide_False by lia. rewrite decide_True by lia. reflexivity.
    + destruct (decide (r = i /\ i <= c < j)),
               (decide (r = i /\ i <= c < S j));
        try reflexivity; exfalso; lia.
Qed.

Lemma eliminate_row_entries (n i r : nat) (factor : F) (M : matrix K) :
  shape n (n + 1) M -> i < n -> r < n -> r <> i ->
  exists M',
    eliminate_row n i r factor M = Ok M' /\ shape n (n + 1) M' /\
    forall a c,
      entry M' a c =
      if decide (a = r /\ i <= c <= n)
      then sub K (entry M a c) (mul K factor (entry M i c))
      else entry M a c.
Proof.
  intros HM Hi Hr Hne. unfold eliminate_row.
  pose proof (post_for_each_seq
    (fun j (M' : matrix K) =>
       shape n (n + 1) M' /\
       forall a c,
         entry M' a c =
         if decide (a = r /\ i <= c < j)
         then sub K (entry M a c) (mul K factor (entry M i c))
         else entry M a c)
    never
    (fun j M =>
       aug_at M r j (fun v =>
         bind (item M i) (fun row_i =>
         bind (item row_i j) (fun w =>
         Ok (sub K v (mul K factor w))))))
    (n + 1 - i) i M) as Hloop.
  apply post_never in Hloop.
  - destruct Hloop as (M' & HM' & Hshape & Hent).
    exists M'. split; [exact HM'|]. split; [exact Hshape|].
    intros a c. rewrite Hent.
    destruct (decide (a = r /\ i <= c <= n)),
             (decide (a = r /\ i <= c < i + (n + 1 - i)));
      try reflexivity; exfalso; lia.
  - split; [exact HM|]. intros a c.
    rewrite decide_False by lia. reflexivity.
  - intros j M1 Hj [HM1 Hent].
    assert (Hf : bind (item M1 i) (fun row_i =>
                 bind (item row_i j) (fun w =>
                 Ok (sub K (entry M1 r j) (mul K factor w)))) =
                 Ok (sub K (entry M1 r j) (mul K factor (entry M1 i j)))).
    { rewrite (item_row n (n + 1)) by assumption. simpl.
      rewrite (item_entry n (n + 1)) by (assumption || lia). reflexivity. }
    rewrite (aug_at_eq n (n + 1) M1 r j _ _ HM1) by (lia || exact Hf).
    simpl. split; [apply shape_set_entry; exact HM1|].
    intros a c. rewrite (entry_set_entry n (n + 1)) by (assumption || lia).
    rewrite !Hent.
    destruct (decide (a = r /\ c = j)) as [[-> ->]|Hne'].
    + rewrite decide_False by lia. rewrite decide_False by lia.
      rewrite decide_True by lia. reflexivity.
    + destruct (decide (a = r /\ i <= c < j)),
               (decide (a = r /\ i <= c < S j));
        try reflexivity; exfalso; lia.
Qed.

Lemma eliminate_entries (n i : nat) (M : matrix K) :
  shape n (n + 1) M -> i < n ->
  exists M',
    eliminate n i M = Ok M' /\ shape n (n + 1) M' /\
    forall a c,
      entry M' a c =
      if decide (a <> i /\ a < n /\ i <= c <= n)
      then sub K (entry M a c) (mul K (entry M a i) (entry M i c))
      else entry M a c.
Proof.
  intros HM Hi. unfold eliminate.
  pose proof (post_for_each_seq
    (fun r (M' : matrix K) =>
       shape n (n + 1) M' /\
       forall a c,
         entry M' a c =
         if decide (a <> i /\ a < r /\ i <= c <= n)
         then sub K (entry M a c) (mul K (entry M a i) (entry M i c))
         else entry M a c)
    never
    (fun r M =>
       if decide (r = i) then Ok M
       else bind (item M r) (fun row_r =>
            bind (item row_r i) (fun factor =>
            eliminate_row n i r factor M)))
    n 0 M) as Hloop.
  apply post_never in Hloop.
  - exact Hloop.
  - split; [exact HM|]. intros a c.
    rewrite decide_False by lia. reflexivity.
  - intros r M1 Hr [HM1 Hent].
    destruct (decide (r = i)) as [->|Hne]; simpl.
    + split; [exact HM1|]. intros a c. rewrite Hent.
      destruct (decide (a <> i /\ a < i /\ i <= c <= n)),
               (decide (a <> i /\ a < S i /\ i <= c <= n));
        try reflexivity; exfalso; lia.
    + rewrite (item_row n (n + 1)) by (assumption || lia). simpl.
      rewrite (item_entry n (n + 1)) by (assumption || lia). simpl.
      destruct (eliminate_row_entries n i r (entry M1 r i) M1)
        as (M2 & -> & HM2 & Hent2); [assumption || lia ..|].
      simpl. split; [exact HM2|].
      intros a c. rewrite Hent2, !Hent.
      destruct (decide (a = r /\ i <= c <= n)) as [[-> Hc]|Hne'].
      * rewrite (decide_False (P := r <> i /\ r < r /\ i <= c <= n)) by lia.
        rewrite (decide_False (P := r <> i /\ r < r /\ i <= i <= n)) by lia.
        rewrite (decide_False (P := i <> i /\ _)) by lia.
        rewrite decide_True by lia. reflexivity.
      * destruct (decide (a <> i /\ a < r /\ i <= c <= n)),
                 (decide (a <> i /\ a < S r /\ i <= c <= n));
          try reflexivity; exfalso; lia.
Qed.

Lemma length_augment (A : matrix K) (b : list F) :
  length A = length b -> length (augment A b) = length A.
Proof.
  intros H. unfold augment. rewrite length_zip_with. lia.
Qed.

Lemma nth_augment (A : matrix K) (b : list F) (r : nat) :
  length A = length b -> r < length A ->
  nth r (augment A b) [] = nth r A [] ++ [nth r b (zero K)].
Proof.
  intros Hlen Hr. unfold augment. rewrite nth_lookup, lookup_zip_with.
  destruct (nth_lookup_or_length A r []) as [-> | ?]; [|lia]. simpl.
  destruct (nth_lookup_or_length b r (zero K)) as [-> | ?]; [|lia].
  reflexivity.
Qed.

Lemma shape_augment (n : nat) (A : matrix K) (b : list F) :
  shape n n A -> length b = n -> shape n (n + 1) (augment A b).
Proof.
  intros [Hlen Hrows] Hb. split.
  - rewrite length_augment; congruence.
  - intros r Hr. rewrite nth_augment by lia.
    rewrite length_app, Hrows by exact Hr. reflexivity.
Qed.

Lemma entry_augment (n : nat) (A : matrix K) (b : list F) (r c : nat) :
  shape n n A -> length b = n -> r < n ->
  entry (augment A b) r c =
  if decide (c < n) then entry A r c
  else if decide (c = n) then nth r b (zero K) else zero K.
Proof.
  intros [Hlen Hrows] Hb Hr. unfold entry.
  rewrite nth_augment by lia.
  destruct (decide (c < n)) as [Hc|Hc].
  - rewrite app_nth1 by (rewrite Hrows; lia). reflexivity.
  - rewrite app_nth2 by (rewrite Hrows; lia). rewrite Hrows by exact Hr.
    destruct (decide (c = n)) as [->|Hne].
    + rewrite Nat.sub_diag. reflexivity.
    + destruct (c - n) as [|[|k]] eqn:Hk; [lia|reflexivity|reflexivity].
Qed.

Lemma read_solution_eq (n : nat) (M : matrix K) :
  shape n (n + 1) M ->
  read_solution n M = Ok (map (fun r => entry M r n) (seq 0 n)).
Proof.
  intros HM. unfold read_solution.
  assert (Hgen : forall rs, (forall r, r ∈ rs -> r < n) ->
    collect (fun i => bind (item M i) (fun row => last_item row)) rs =
    Ok (map (fun r => entry M r n) rs)).
  { induction rs as [|r rs IH]; intros Hrs; simpl; [reflexivity|].
    assert (Hr : r < n) by (apply Hrs; left).
    rewrite (item_row n (n + 1)) by assumption. simpl.
    pose proof (shape_row n (n + 1) M r HM Hr) as Hrow.
    rewrite (last_item_nth _ (zero K))
      by (intros Hnil; rewrite Hnil in Hrow; simpl in Hrow; lia).
    simpl. rewrite IH by (intros r' Hr'; apply Hrs; right; exact Hr').
    simpl. rewrite Hrow. replace (n + 1 - 1) with n by lia. reflexivity. }
  apply Hgen. intros r Hr. apply elem_of_seq in Hr. lia.
Qed.

End PivotLoops.

(** * Reachability from the slack bus *)

Section Reachability.

Context {K : Arith}.

Variable N : Z.
Variable lines : list (line K).
Hypothesis lines_valid : valid_lines N lines = true.

Lemma valid_line_in (l : line K) :
  l ∈ lines -> (0 <= l.1.1 < N)%Z /\ (0 <= l.1.2 < N)%Z.
Proof using lines_valid.
  intros Hl. unfold valid_lines in lines_valid.
  rewrite forallb_forall in lines_valid.
  apply list_elem_of_In in Hl. specialize (lines_valid l Hl).
  destruct l as [[i j] x]. apply valid_line_inv in lines_valid. tauto.
Qed.

Lemma reach_S (k u : nat) :
  reach lines (S k) u =
  reach lines k u ||
  existsb (fun l =>
             ((l.1.1 =? Z.of_nat u)%Z && reach lines k (Z.to_nat l.1.2)) ||
             ((l.1.2 =? Z.of_nat u)%Z && reach lines k (Z.to_nat l.1.1)))
          lines.
Proof using Type. reflexivity. Qed.

Lemma reach_mono (k u : nat) :
  reach lines k u = true -> reach lines (S k) u = true.
Proof using Type. intros H. rewrite reach_S, H. reflexivity. Qed.

Lemma reach_le (k k' u : nat) :
  k <= k' -> reach lines k u = true -> reach lines k' u = true.
Proof using Type.
  induction 1 as [|k' _ IH]; [auto|]. intros H. apply reach_mono. auto.
Qed.

Lemma reach_slack (k : nat) : reach lines k 0 = true.
Proof using Type. apply (reach_le 0 k); [lia | reflexivity]. Qed.

(** A line carries reachability from one of its ends to the other. *)
Lemma reach_line (k w u : nat) (l : line K) :
  l ∈ lines -> joins w u l = true -> reach lines k w = true ->
  reach lines (S k) u = true.
Proof using Type.
  intros Hl Hj Hw. rewrite reach_S. apply orb_true_iff. right.
  apply existsb_exists. exists l. split; [apply list_elem_of_In; exact Hl|].
  unfold joins in Hj. apply orb_true_iff in Hj as [Hj|Hj];
    apply andb_true_iff in Hj as [H1 H2];
    apply Z.eqb_eq in H1; apply Z.eqb_eq in H2; apply orb_true_iff.
  - right. rewrite H2, Z.eqb_refl, H1, Nat2Z.id. exact Hw.
  - left. rewrite H1, Z.eqb_refl, H2, Nat2Z.id. exact Hw.
Qed.

Lemma reach_S_inv (k u : nat) :
  reach lines (S k) u = true ->
  reach lines k u = true \/
  exists l w, l ∈ lines /\ joins w u l = true /\ reach lines k w = true.
Proof using lines_valid.
  rewrite reach_S. intros H. apply orb_true_iff in H as [H|H]; [left; exact H|].
  right. apply existsb_exists in H as (l & Hl & H).
  apply list_elem_of_In in Hl.
  destruct (valid_line_in l Hl) as [H1 H2].
  apply orb_true_iff in H as [H|H]; apply andb_true_iff in H as [He Hr];
    apply Z.eqb_eq in He.
  - exists l, (Z.to_nat l.1.2). split; [exact Hl|]. split; [|exact Hr].
    unfold joins. rewrite Z2Nat.id by lia. rewrite He, !Z.eqb_refl.
    apply orb_true_r.
  - exists l, (Z.to_nat l.1.1). split; [exact Hl|]. split; [|exact Hr].
    unfold joins. rewrite Z2Nat.id by lia. rewrite He, !Z.eqb_refl.
    reflexivity.
Qed.

Lemma existsb_pointwise {A : Type} (f g : A -> bool) (l : list A) :
  (forall x, f x = g x) -> existsb f l = existsb g l.
Proof using Type.
  intros H. induction l as [|x l IH]; [reflexivity|].
  cbn [existsb]. rewrite H, IH. reflexivity.
Qed.

(** Once a round adds no bus, no later round does. *)
Lemma reach_stable_S (k : nat) :
  (forall u, reach lines (S k) u = reach lines k u) ->
  forall u, reach lines (S (S k)) u = reach lines (S k) u.
Proof using Type.
  intros Hst u. rewrite (reach_S (S k) u).
  assert (Hext :
    existsb (fun l =>
      ((l.1.1 =? Z.of_nat u)%Z && reach lines (S k) (Z.to_nat l.1.2)) ||
      ((l.1.2 =? Z.of_nat u)%Z && reach lines (S k) (Z.to_nat l.1.1))) lines =
    existsb (fun l =>
      ((l.1.1 =? Z.of_nat u)%Z && reach lines k (Z.to_nat l.1.2)) ||
      ((l.1.2 =? Z.of_nat u)%Z && reach lines k (Z.to_nat l.1.1))) lines).
  { apply existsb_pointwise. intros l. rewrite !Hst. reflexivity. }
  rewrite Hext, (reach_S k u). clear Hext.
  set (E := existsb _ lines).
  destruct (reach lines k u), E; reflexivity.
Qed.

(** Beyond the buses nothing is reached but bus 0 itself. *)
Lemma reach_outside (k u : nat) :
  Z.to_nat N <= u -> reach lines (S k) u = reach lines k u.
Proof using lines_valid.
  intros Hu. rewrite reach_S.
  destruct (existsb _ lines) eqn:E; [|apply orb_false_r].
  apply existsb_exists in E as (l & Hl & H).
  apply list_elem_of_In in Hl. destruct (valid_line_in l Hl) as [H1 H2].
  exfalso. apply orb_true_iff in H as [H|H]; apply andb_true_iff in H as [He _];
    apply Z.eqb_eq in He; lia.
Qed.

Lemma filter_length_mono {A : Type} (f g : A -> bool) (l : list A) :
  (forall x, f x = true -> g x = true) ->
  length (List.filter f l) <= length (List.filter g l).
Proof using Type.
  intros Hfg. induction l as [|x l IH]; simpl; [lia|].
  destruct (f x) eqn:Hf.
  - rewrite (Hfg x Hf). simpl. lia.
  - destruct (g x); simpl; lia.
Qed.

Lemma filter_length_strict {A : Type} (f g : A -> bool) (l : list A)
    (x0 : A) :
  (forall x, f x = true -> g x = true) ->
  In x0 l -> f x0 = false -> g x0 = true ->
  length (List.filter f l) < length (List.filter g l).
Proof using Type.
  intros Hfg Hin Hf0 Hg0. induction l as [|x l IH]; [inversion Hin|].
  pose proof (filter_length_mono f g l Hfg) as Hmono.
  destruct Hin as [->|Hin]; simpl.
  - rewrite Hf0, Hg0. simpl. lia.
  - specialize (IH Hin). destruct (f x) eqn:Hf.
    + rewrite (Hfg x Hf). simpl. lia.
    + destruct (g x); simpl; lia.
Qed.

Lemma filter_true_length {A : Type} (l : list A) :
  length (List.filter (fun _ => true) l) = length l.
Proof using Type.
  induction l as [|x l IH]; simpl; [reflexivity | f_equal; exact IH].
Qed.

(** Either round [k] is already stable or it has reached more than [k]
    buses. *)
Lemma reach_stable_or_grows (k : nat) :
  1 <= Z.to_nat N ->
  (forall u, reach lines (S k) u = reach lines k u) \/
  k + 1 <= length (List.filter (reach lines k) (seq 0 (Z.to_nat N))).
Proof using lines_valid.
  intros HN. induction k as [|k IH].
  - right. replace (Z.to_nat N) with (S (Z.to_nat N - 1)) by lia.
    simpl. lia.
  - destruct IH as [Hst|Hcount]; [left; apply reach_stable_S; exact Hst|].
    destruct (forallb (fun u => Bool.eqb (reach lines (S k) u)
                                         (reach lines k u))
                      (seq 0 (Z.to_nat N))) eqn:E.
    + left. apply reach_stable_S.
      intros u. destruct (decide (u < Z.to_nat N)) as [Hu|Hu].
      * rewrite forallb_forall in E. apply Bool.eqb_prop. apply E.
        apply in_seq. lia.
      * apply reach_outside. lia.
    + right.
      assert (Hex : exists u, In u (seq 0 (Z.to_nat N)) /\
                reach lines k u = false /\
                reach lines (S k) u = true).
      { clear -E. induction (seq 0 (Z.to_nat N)) as [|u us IHus];
          [discriminate|].
        cbn [forallb] in E. apply andb_false_iff in E as [E|E].
        - exists u. split; [left; reflexivity|].
          destruct (reach lines k u) eqn:H1.
          + apply reach_mono in H1. rewrite H1 in E. discriminate.
          + split; [reflexivity|].
            destruct (reach lines (S k) u); [reflexivity | discriminate].
        - destruct (IHus E) as (u' & Hin & H). exists u'.
          split; [right; exact Hin | exact H]. }
      destruct Hex as (u & Hin & H1 & H2).
      pose proof (filter_length_strict (reach lines k)
                    (reach lines (S k)) _ u
                    (fun x => reach_mono k x) Hin H1 H2) as Hlt.
      lia.
Qed.

(** After [N] rounds the reached set is closed under the lines. *)
Lemma reach_stable :
  1 <= Z.to_nat N ->
  forall u, reach lines (S (Z.to_nat N)) u = reach lines (Z.to_nat N) u.
Proof using lines_valid.
  intros HN.
  destruct (reach_stable_or_grows (Z.to_nat N) HN) as [Hst|Hcount];
    [exact Hst|].
  exfalso.
  pose proof (filter_length_mono (reach lines (Z.to_nat N)) (fun _ => true)
                (seq 0 (Z.to_nat N)) (fun _ _ => eq_refl)) as Hle.
  assert (Hall : length (List.filter (fun _ : nat => true)
                                     (seq 0 (Z.to_nat N))) = Z.to_nat N).
  { rewrite filter_true_length. apply length_seq. }
  lia.
Qed.

(** The two ends of a line are reached together. *)
Lemma connected_ends (l : line K) :
  1 <= Z.to_nat N -> l ∈ lines ->
  connected_to_slack N lines (Z.to_nat l.1.1) =
  connected_to_slack N lines (Z.to_nat l.1.2).
Proof using lines_valid.
  intros HN Hl. unfold connected_to_slack.
  destruct (valid_line_in l Hl) as [H1 H2].
  assert (J12 : joins (Z.to_nat l.1.1) (Z.to_nat l.1.2) l = true).
  { unfold joins. rewrite !Z2Nat.id by lia. rewrite !Z.eqb_refl. reflexivity. }
  assert (J21 : joins (Z.to_nat l.1.2) (Z.to_nat l.1.1) l = true).
  { unfold joins. rewrite !Z2Nat.id by lia. rewrite !Z.eqb_refl.
    apply orb_true_r. }
  destruct (reach lines (Z.to_nat N) (Z.to_nat l.1.1)) eqn:E1.
  - symmetry. rewrite <- reach_stable by exact HN.
    exact (reach_line _ _ _ l Hl J12 E1).
  - destruct (reach lines (Z.to_nat N) (Z.to_nat l.1.2)) eqn:E2;
      [|reflexivity].
    pose proof (reach_line _ _ _ l Hl J21 E2) as H.
    rewrite reach_stable in H by exact HN. congruence.
Qed.

(** [connected_to_slack] decides the existence of a path from bus 0. *)
Lemma connected_to_slack_path (u : nat) :
  1 <= Z.to_nat N ->
  connected_to_slack N lines u = true <-> path lines 0 u.
Proof using lines_valid.
  intros HN. unfold connected_to_slack. split.
  - generalize (Z.to_nat N) as k. intros k. revert u.
    induction k as [|k IH]; intros u H.
    + simpl in H. apply Nat.eqb_eq in H. subst. constructor.
    + apply reach_S_inv in H as [H|(l & w & Hl & Hj & Hw)]; [auto|].
      exact (path_line lines 0 w u l (IH w Hw) Hl Hj).
  - induction 1 as [|w v l _ IH Hl Hj].
    + apply reach_slack.
    + rewrite <- reach_stable by exact HN.
      exact (reach_line _ _ _ l Hl Hj IH).
Qed.

End Reachability.

(** * Concrete runs *)

Section Runs.

Local Open Scope float_scope.

(** What [main] computes. *)
Lemma main_run :
  dc_power_flow (K := Float64) 3 main_lines main_injections =
  Ok (main_angles, main_flows).
Proof. vm_compute. reflexivity. Qed.

(** C9, as amended. On the network of [main], [dc_power_flow] returns
    [angles[0] == 0.0], [angles[1]] within [5e-5] of [-5.7778] and
    [angles[2]] within [5e-5] of [-8.4444]; the flows on the two lines
    leaving bus 0 sum to [100.0] within [1e-9]. *)
Theorem main_angles_and_balance :
  exists a1 a2 f01 f02 f12,
    dc_power_flow (K := Float64) 3 main_lines main_injections =
      Ok ([0; a1; a2], [(0%Z, 1%Z, f01); (0%Z, 2%Z, f02); (1%Z, 2%Z, f12)]) /\
    (abs (a1 - (-5.7778)) <? 5e-5) = true /\
    (abs (a2 - (-8.4444)) <? 5e-5) = true /\
    (abs (f01 + f02 - 100.0) <? 1e-9) = true.
Proof.
  exists (-5.7777777777777768), (-8.4444444444444429),
         57.777777777777764, 42.222222222222214, 17.777777777777775.
  split; [exact main_run|]. repeat split; vm_compute; reflexivity.
Qed.

(** C9, the claim as stated fails: the angles [dc_power_flow] returns
    on the network of [main] are further than [5e-5] from the quoted
    [-0.0495] and [-0.0827]. *)
Lemma main_angles_not_as_quoted :
  dc_power_flow (K := Float64) 3 main_lines main_injections =
    Ok ([0; -5.7777777777777768; -8.4444444444444429], main_flows) /\
  (5e-5 <? abs (-5.7777777777777768 - (-0.0495))) = true /\
  (5e-5 <? abs (-8.4444444444444429 - (-0.0827))) = true.
Proof. split; [exact main_run|]. split; vm_compute; reflexivity. Qed.

(** C3, the claim as stated fails: with [num_nodes = 0] the call returns
    an angle vector of length 1. *)
Lemma no_bus_run :
  dc_power_flow (K := Float64) 0 [] [] = Ok ([0], []) /\
  length [0] <> Z.to_nat 0.
Proof. split; [reflexivity | discriminate]. Qed.

(** C8, the claim as stated fails: in binary64 the sum of the same
    susceptances in another order rounds differently, so the entry at
    [(0, 0)] differs between a line list and its reverse. *)
Lemma star_order_matters :
  valid_lines (K := Float64) 4 star_lines = true /\
  star_lines ≡ₚ star_lines_reversed /\
  build_b_matrix 4 star_lines =
    Ok [[18.333333333333332; -10; -5; -3.3333333333333335];
        [-10; 10; 0; 0]; [-5; 0; 5; 0];
        [-3.3333333333333335; 0; 0; 3.3333333333333335]] /\
  build_b_matrix 4 star_lines_reversed =
    Ok [[18.333333333333336; -10; -5; -3.3333333333333335];
        [-10; 10; 0; 0]; [-5; 0; 5; 0];
        [-3.3333333333333335; 0; 0; 3.3333333333333335]] /\
  (18.333333333333332 =? 18.333333333333336) = false.
Proof.
  split; [reflexivity|]. split; [apply Permutation_rev|].
  split; [vm_compute; reflexivity|]. split; vm_compute; reflexivity.
Qed.

(** C6, the claim as stated fails: four buses, none of the buses 1, 2, 3
    joined to bus 0; the rounded pivots stay above [1e-12] and the call
    returns angles and flows instead of raising. *)
Lemma island_run :
  valid_lines (K := Float64) 4 island_lines = true /\
  Z.of_nat (length island_injections) = 4%Z /\
  connected_to_slack 4 island_lines 1 = false /\
  dc_power_flow (K := Float64) 4 island_lines island_injections =
    Ok (island_angles, island_flows).
Proof.
  split; [reflexivity|]. split; [reflexivity|].
  split; vm_compute; reflexivity.
Qed.

(** C1, the claim as stated fails: the system passes the pivot test, and
    the solver returns a vector whose two entries are each about [9.5e-7]
    away from those of [x], far more than [1e-9]. *)
Lemma near_singular_run :
  mat_vec near_singular_A near_singular_x = near_singular_b /\
  solve_linear_system (K := Float64) near_singular_A near_singular_b =
    Ok [1.0000009536743164; 1] /\
  (1e-9 <? abs (1.0000009536743164 - 1)) = true /\
  (1e-9 <? abs (1 - 1.0000009536743164)) = true.
Proof.
  split; [vm_compute; reflexivity|]. split; [vm_compute; reflexivity|].
  split; vm_compute; reflexivity.
Qed.

(** C2, the claim as stated fails: the one line [(0, 0, 1.0)] touches
    bus 0, the sum of [1/x] over the lines touching bus 0 is 1, and the
    entry [B[0][0]] is 0, in binary64 and over the rationals. *)
Lemma loop_run :
  valid_lines (K := Float64) 1 loop_lines = true /\
  build_b_matrix (K := Float64) 1 loop_lines = Ok [[0]] /\
  valid_lines (K := Exact) 1 loop_lines_exact = true /\
  build_b_matrix (K := Exact) 1 loop_lines_exact = Ok [[0%Qc]] /\
  susceptance_sum (List.filter (touches 0) loop_lines_exact) = 1%Qc /\
  0%Qc <> 1%Qc.
Proof.
  split; [reflexivity|]. split; [vm_compute; reflexivity|].
  split; [reflexivity|]. split; [|split; [|discriminate]].
  - vm_compute. reflexivity.
  - apply Qc_is_canon. reflexivity.
Qed.

End Runs.

(** * Exact arithmetic *)

(** Entries of a matrix over [Exact] are rationals. *)
Ltac over_Qc :=
  change (num Exact) with Qc in *;
  repeat match goal with
    | |- context [@entry Exact ?M ?r ?c] =>
        let q := fresh "q" in
        set (q := (@entry Exact M r c : Qc)) in *; clearbody q
    end.

Section ExactArithmetic.

Local Open Scope Qc_scope.

Lemma Qc_ltb_lt (a b : Qc) : Qc_ltb a b = true <-> a < b.
Proof.
  unfold Qc_ltb. rewrite Qclt_alt.
  destruct (a ?= b); split; congruence.
Qed.

Lemma Qc_ltb_ge (a b : Qc) : Qc_ltb a b = false <-> b <= a.
Proof.
  split.
  - intros H. apply Qcnot_lt_le. intros Hlt.
    apply Qc_ltb_lt in Hlt. congruence.
  - intros H. destruct (Qc_ltb a b) eqn:E; [|reflexivity].
    apply Qc_ltb_lt in E. exfalso. exact (Qcle_not_lt _ _ H E).
Qed.

Lemma Qc_eps_pos : 0 < Qc_eps.
Proof. reflexivity. Qed.

Lemma is_zero_exact (x : Qc) : is_zero Exact x = false <-> x <> 0.
Proof.
  simpl. destruct (Qc_eq_dec x 0); split; congruence.
Qed.

(** A pivot that passes the test is not zero. *)
Lemma pivot_not_zero (p : Qc) : Qc_ltb (Qcabs p) Qc_eps = false -> p <> 0.
Proof.
  intros H Hp. subst p. apply Qc_ltb_ge in H.
  exact (Qcle_not_lt _ _ H Qc_eps_pos).
Qed.

Lemma sum_upto_ext (n : nat) (f g : nat -> Qc) :
  (forall c, (c < n)%nat -> f c = g c) -> sum_upto n f = sum_upto n g.
Proof.
  induction n as [|n IH]; intros H; simpl; [reflexivity|].
  rewrite IH by (intros c Hc; apply H; lia). rewrite H by lia. reflexivity.
Qed.

Lemma sum_upto_zero (n : nat) : sum_upto n (fun _ => 0) = 0.
Proof. induction n as [|n IH]; simpl; [reflexivity|]. rewrite IH. ring. Qed.

Lemma sum_upto_linear (n : nat) (a b : Qc) (f g : nat -> Qc) :
  sum_upto n (fun c => a * f c + b * g c) =
  a * sum_upto n f + b * sum_upto n g.
Proof. induction n as [|n IH]; simpl; [ring|]. rewrite IH. ring. Qed.

Lemma sum_upto_delta (n r : nat) (f : nat -> Qc) :
  sum_upto n (fun c => delta r c * f c) = if decide (r < n)%nat then f r else 0.
Proof.
  induction n as [|n IH]; simpl.
  - reflexivity.
  - rewrite IH. unfold delta.
    destruct (decide (r = n)) as [->|Hne].
    + rewrite decide_False by lia. rewrite decide_True by lia. ring.
    + destruct (decide (r < n)%nat), (decide (r < S n)%nat);
        try (exfalso; lia); ring.
Qed.

Lemma sum_upto_cut (n : nat) (f y : nat -> Qc) (z : Qc) :
  sum_upto n (fun c => f c * (if decide (c < n)%nat then y c else z)) =
  sum_upto n (fun c => f c * y c).
Proof.
  apply sum_upto_ext. intros c Hc. rewrite decide_True by exact Hc.
  reflexivity.
Qed.

(** Peeling the first term instead of the last. *)
Lemma sum_upto_first (n : nat) (f : nat -> Qc) :
  sum_upto (S n) f = f 0%nat + sum_upto n (fun c => f (S c)).
Proof.
  induction n as [|n IH].
  - simpl. ring.
  - change (sum_upto (S (S n)) f) with (sum_upto (S n) f + f (S n)).
    rewrite IH. simpl. ring.
Qed.

End ExactArithmetic.

(** * The pivot step over the rationals *)

Section ExactPivot.

Local Open Scope Qc_scope.

(** [max] returns an element of the list with the largest key. *)
Lemma max_from_exact (g : nat -> Qc) (key : nat -> result Qc)
    (rs : list nat) (best : nat) :
  (forall r, r ∈ rs -> key r = Ok (g r)) ->
  exists p,
    max_from (K := Exact) key rs best (g best) = Ok p /\
    (p = best \/ p ∈ rs) /\
    g best <= g p /\
    forall r, r ∈ rs -> g r <= g p.
Proof.
  revert best. induction rs as [|r rs IH]; intros best Hkey; simpl.
  - exists best. split; [reflexivity|]. split; [left; reflexivity|].
    split; [apply Qcle_refl|]. intros r Hr. inversion Hr.
  - rewrite (Hkey r) by left. simpl.
    assert (Hkey' : forall r', r' ∈ rs -> key r' = Ok (g r'))
      by (intros r' Hr'; apply Hkey; right; exact Hr').
    destruct (Qc_ltb (g best) (g r)) eqn:Hlt.
    + destruct (IH r Hkey') as (p & Hp & Hin & Hge & Hall).
      apply Qc_ltb_lt in Hlt.
      exists p. split; [exact Hp|]. split.
      { right. destruct Hin as [->|Hin]; [left | right; exact Hin]. }
      split.
      { apply Qcle_trans with (g r); [apply Qclt_le_weak; exact Hlt | exact Hge]. }
      intros r' Hr'. apply elem_of_cons in Hr' as [->|Hr']; auto.
    + destruct (IH best Hkey') as (p & Hp & Hin & Hge & Hall).
      apply Qc_ltb_ge in Hlt.
      exists p. split; [exact Hp|]. split.
      { destruct Hin as [->|Hin]; [left; reflexivity | right; right; exact Hin]. }
      split; [exact Hge|].
      intros r' Hr'. apply elem_of_cons in Hr' as [->|Hr']; auto.
      apply Qcle_trans with (g best); assumption.
Qed.

(** The pivot search of column [i]: a row [p] in [range(i, n)] whose
    entry in column [i] is the largest in absolute value. *)
Lemma pivot_search (n i : nat) (M : matrix Exact) :
  shape n (n + 1) M -> (i < n)%nat ->
  exists p,
    py_max (pivot_key M i) (seq i (n - i)) = Ok p /\
    (i <= p < n)%nat /\
    forall r, (i <= r < n)%nat ->
      Qcabs (entry M r i) <= Qcabs (entry M p i).
Proof.
  intros HM Hi.
  replace (n - i)%nat with (S (n - i - 1)) by lia. simpl.
  rewrite (pivot_key_eq n (n + 1)) by (assumption || lia). simpl.
  destruct (max_from_exact (fun r => Qcabs (entry M r i)) (pivot_key M i)
              (seq (S i) (n - i - 1)) i) as (p & Hp & Hin & Hge & Hall).
  { intros r Hr. apply elem_of_seq in Hr.
    apply (pivot_key_eq (K := Exact) n (n + 1)); assumption || lia. }
  exists p. split; [exact Hp|]. split.
  - destruct Hin as [->|Hin]; [lia|]. apply elem_of_seq in Hin. lia.
  - intros r Hr. destruct (decide (r = i)) as [->|Hne]; [exact Hge|].
    apply Hall. apply elem_of_seq. lia.
Qed.

(** One pivot step on a well-shaped working matrix: either the selected
    pivot is below the threshold and the step raises, or the step returns
    the matrix described by [pivot_entry]. *)
Lemma pivot_step_exact (n i : nat) (M : matrix Exact) :
  shape n (n + 1) M -> (i < n)%nat ->
  exists p,
    (i <= p < n)%nat /\
    (forall r, (i <= r < n)%nat ->
       Qcabs (entry M r i) <= Qcabs (entry M p i)) /\
    if Qc_ltb (Qcabs (entry M p i)) Qc_eps
    then pivot_step n i M = Raise (ValueError singular_msg)
    else exists M',
        pivot_step n i M = Ok M' /\ shape n (n + 1) M' /\
        forall r c, (r < n)%nat -> (c <= n)%nat ->
          entry M' r c = pivot_entry M i p r c.
Proof.
  intros HM Hi.
  destruct (pivot_search n i M HM Hi) as (p & Hmax & Hp & Hlargest).
  exists p. split; [exact Hp|]. split; [exact Hlargest|].
  unfold pivot_step. rewrite Hmax. cbn [bind].
  destruct (swap_rows_entries n (n + 1) M i p HM) as (M1 & -> & HM1 & Hent1);
    [lia..|].
  cbn [bind]. rewrite (item_row n (n + 1)) by assumption. cbn [bind].
  rewrite (item_entry n (n + 1)) by (assumption || lia). cbn [bind].
  assert (Hpv : entry M1 i i = entry M p i).
  { rewrite Hent1. unfold swap_idx. rewrite decide_True by reflexivity.
    reflexivity. }
  rewrite Hpv. cbn [ltb absv eps Exact].
  destruct (Qc_ltb (Qcabs (entry M p i)) Qc_eps) eqn:Htest; [reflexivity|].
  assert (Hnz : is_zero Exact (entry M p i) = false).
  { apply is_zero_exact. apply pivot_not_zero. exact Htest. }
  destruct (normalize_entries n i (entry M p i) M1 HM1 Hi Hnz)
    as (M2 & -> & HM2 & Hent2).
  cbn [bind].
  destruct (eliminate_entries n i M2 HM2 Hi) as (M3 & -> & HM3 & Hent3).
  exists M3. split; [reflexivity|]. split; [exact HM3|].
  intros r c Hr Hc. rewrite Hent3, !Hent2, !Hent1. unfold pivot_entry.
  assert (Hii : swap_idx i p i = p).
  { unfold swap_idx. rewrite decide_True by reflexivity. reflexivity. }
  rewrite !Hii.
  destruct (decide (c < i)%nat) as [Hci|Hci].
  - rewrite (decide_False (P := r <> i /\ _)) by lia.
    rewrite (decide_False (P := r = i /\ _)) by lia. reflexivity.
  - destruct (decide (r = i)) as [->|Hri].
    + rewrite (decide_False (P := i <> i /\ _)) by lia.
      rewrite decide_True by lia. rewrite Hii. reflexivity.
    + rewrite (decide_True (P := r <> i /\ _)) by lia.
      rewrite (decide_False (P := r = i /\ (i <= c <= n)%nat)) by lia.
      rewrite (decide_False (P := r = i /\ (i <= i <= n)%nat)) by lia.
      rewrite (decide_True (P := i = i /\ _)) by lia.
      reflexivity.
Qed.

End ExactPivot.

(** * Gauss-Jordan elimination over the rationals *)

Section ExactSolve.

Local Open Scope Qc_scope.

Lemma swap_idx_lt (n i p r : nat) :
  (i < n)%nat -> (p < n)%nat -> (r < n)%nat -> (swap_idx i p r < n)%nat.
Proof. intros. unfold swap_idx. repeat case_decide; lia. Qed.

Lemma delta_swap_idx (i p r c : nat) :
  (i <= p)%nat -> (c < i)%nat -> delta (swap_idx i p r) c = delta r c.
Proof.
  intros Hp Hc. unfold delta, swap_idx.
  repeat case_decide; try reflexivity; exfalso; lia.
Qed.

(** On a matrix whose first [i] columns are reduced, the step acts on
    whole rows: the columns it skips hold zeros in the pivot row. *)
Lemma pivot_entry_rows (n i p : nat) (M : matrix Exact) (r c : nat) :
  (i <= p < n)%nat -> reduced n i M -> entry M p i <> 0 ->
  (r < n)%nat ->
  pivot_entry M i p r c =
  if decide (r = i) then entry M p c / entry M p i
  else entry M (swap_idx i p r) c
       - entry M (swap_idx i p r) i * (entry M p c / entry M p i).
Proof.
  intros Hp Hred Hpv Hr. unfold pivot_entry.
  assert (Hii : swap_idx i p i = p).
  { unfold swap_idx. rewrite decide_True by reflexivity. reflexivity. }
  rewrite !Hii.
  destruct (decide (c < i)%nat) as [Hc|Hc]; [|reflexivity].
  assert (Hpc : entry M p c = 0).
  { rewrite Hred by lia. unfold delta. rewrite decide_False by lia.
    reflexivity. }
  destruct (decide (r = i)) as [->|Hri].
  - rewrite Hii, Hpc. (over_Qc; field). exact Hpv.
  - rewrite Hpc. (over_Qc; field). exact Hpv.
Qed.

Lemma pivot_step_reduced (n i p : nat) (M M' : matrix Exact) :
  (i <= p < n)%nat -> reduced n i M -> entry M p i <> 0 ->
  (forall r c, (r < n)%nat -> (c <= n)%nat ->
     entry M' r c = pivot_entry M i p r c) ->
  reduced n (S i) M'.
Proof.
  intros Hp Hred Hpv Hent r c Hr Hc.
  rewrite Hent by lia. unfold pivot_entry.
  assert (Hii : swap_idx i p i = p).
  { unfold swap_idx. rewrite decide_True by reflexivity. reflexivity. }
  destruct (decide (c < i)%nat) as [Hci|Hci].
  - rewrite Hred by (try apply swap_idx_lt; lia).
    apply delta_swap_idx; lia.
  - assert (c = i) as -> by lia. rewrite !Hii.
    unfold delta. destruct (decide (r = i)) as [->|Hri].
    + over_Qc. field. exact Hpv.
    + over_Qc. field. exact Hpv.
Qed.

Lemma pivot_step_annihilates (n i p : nat) (y : nat -> Qc)
    (M M' : matrix Exact) :
  (i <= p < n)%nat -> reduced n i M -> entry M p i <> 0 ->
  annihilates n y M ->
  (forall r c, (r < n)%nat -> (c <= n)%nat ->
     entry M' r c = pivot_entry M i p r c) ->
  annihilates n y M'.
Proof.
  intros Hp Hred Hpv Hann Hent r Hr.
  set (pv := entry M p i) in *.
  pose proof (Hann p ltac:(lia)) as Hrow_p.
  pose proof (Hann (swap_idx i p r) ltac:(apply swap_idx_lt; lia)) as Hrow_r.
  rewrite (sum_upto_ext _ _
    (fun c => (if decide (r = i) then / pv else - (entry M (swap_idx i p r) i / pv))
              * (entry M p c * y c)
              + (if decide (r = i) then 0 else 1)
              * (entry M (swap_idx i p r) c * y c))).
  - rewrite sum_upto_linear, Hrow_p, Hrow_r. (over_Qc; ring).
  - intros c Hc. rewrite Hent by lia.
    rewrite (pivot_entry_rows n) by assumption. fold pv.
    destruct (decide (r = i)); (over_Qc; field); exact Hpv.
Qed.

(** The loop over the pivot columns keeps the shape, reduces one more
    column per iteration, and keeps every vector the rows annihilate; the
    only exception it raises is the one of the pivot test. *)
Lemma pivot_steps_exact (n k : nat) (y : nat -> Qc) (M0 : matrix Exact) :
  shape n (n + 1) M0 -> annihilates n y M0 -> (k <= n)%nat ->
  post (fun M => shape n (n + 1) M /\ reduced n k M /\ annihilates n y M)
       (fun e => e = ValueError singular_msg)
       (pivot_steps n k M0).
Proof.
  intros HM0 Hann Hk. unfold pivot_steps.
  apply (post_for_each_seq
    (fun j M => shape n (n + 1) M /\ reduced n j M /\ annihilates n y M)
    (fun e => e = ValueError singular_msg) (pivot_step n) k 0 M0).
  - split; [exact HM0|]. split; [|exact Hann]. intros r c _ Hc. lia.
  - intros i M Hi (HM & Hred & HannM).
    destruct (pivot_step_exact n i M HM) as (p & Hp & _ & Hstep); [lia|].
    destruct (Qc_ltb (Qcabs (entry M p i)) Qc_eps) eqn:Htest.
    + rewrite Hstep. reflexivity.
    + destruct Hstep as (M' & -> & HM' & Hent).
      pose proof (pivot_not_zero _ Htest) as Hpv.
      simpl. split; [exact HM'|]. split.
      * exact (pivot_step_reduced n i p M M' Hp Hred Hpv Hent).
      * exact (pivot_step_annihilates n i p y M M' Hp Hred Hpv HannM Hent).
Qed.

(** The heart of the correctness proof.  If [y] satisfies
    [A[r] . y + b[r] * y[n] = 0] for every row, the solver either raises
    the singular-matrix exception or returns [x'] with
    [y[r] + x'[r] * y[n] = 0] for every [r]. *)
Lemma solve_linear_system_annihilator (n : nat) (A : matrix Exact)
    (b : list Qc) (y : nat -> Qc) :
  shape n n A -> length b = n ->
  (forall r, (r < n)%nat ->
     sum_upto n (fun c => entry A r c * y c) + nth r b 0 * y n = 0) ->
  post (fun x' => length x' = n /\
                  forall r, (r < n)%nat -> y r + nth r x' 0 * y n = 0)
       (fun e => e = ValueError singular_msg)
       (solve_linear_system A b).
Proof.
  intros HA Hb Hy. unfold solve_linear_system.
  rewrite (shape_length n n A HA).
  assert (HM0 : shape n (n + 1) (augment A b)) by (apply shape_augment; auto).
  assert (Hann : annihilates n y (augment A b)).
  { intros r Hr. replace (n + 1)%nat with (S n) by lia. simpl.
    rewrite (entry_augment n) by assumption.
    rewrite decide_False by lia. rewrite decide_True by reflexivity.
    rewrite <- (Hy r Hr). f_equal. apply sum_upto_ext. intros c Hc.
    rewrite (entry_augment n) by assumption.
    rewrite decide_True by exact Hc. reflexivity. }
  apply post_bind.
  eapply post_mono; [apply (pivot_steps_exact n n y _ HM0 Hann); lia | | auto].
  intros M (HM & Hred & HannM).
  rewrite (read_solution_eq n M HM). cbn [post]. split.
  - rewrite length_map. apply length_seq.
  - intros r Hr.
    assert (Hnth : nth r (map (fun r => entry M r n) (seq 0 n)) 0
                   = entry M r n).
    { rewrite nth_lookup, list_lookup_fmap, lookup_seq_lt by exact Hr.
      reflexivity. }
    change (num Exact) with Qc in *. rewrite Hnth.
    pose proof (HannM r Hr) as Hrow.
    replace (n + 1)%nat with (S n) in Hrow by lia. simpl in Hrow.
    rewrite <- Hrow. f_equal.
    rewrite (sum_upto_ext _ _ (fun c => delta r c * y c)).
    + rewrite sum_upto_delta. rewrite decide_True by exact Hr. reflexivity.
    + intros c Hc. rewrite Hred by assumption. reflexivity.
Qed.

End ExactSolve.

(** * The pivot test *)

Section PivotTest.

Local Open Scope Qc_scope.

Lemma Qc_max_l (a b : Qc) : a <= Qc_max a b.
Proof.
  unfold Qc_max. destruct (Qc_ltb a b) eqn:E.
  - apply Qc_ltb_lt in E. apply Qclt_le_weak. exact E.
  - apply Qcle_refl.
Qed.

Lemma Qc_max_r (a b : Qc) : b <= Qc_max a b.
Proof.
  unfold Qc_max. destruct (Qc_ltb a b) eqn:E.
  - apply Qcle_refl.
  - apply Qc_ltb_ge in E. exact E.
Qed.

Lemma Qc_max_lub (a b m : Qc) : a <= m -> b <= m -> Qc_max a b <= m.
Proof. intros Ha Hb. unfold Qc_max. destruct (Qc_ltb a b); assumption. Qed.

Lemma foldr_max_le (g : nat -> Qc) (l : list nat) (m : Qc) :
  0 <= m -> (forall r, r ∈ l -> g r <= m) ->
  foldr (fun r acc => Qc_max (g r) acc) 0 l <= m.
Proof.
  intros Hm. induction l as [|r l IH]; intros H; simpl; [exact Hm|].
  apply Qc_max_lub; [apply H; left|].
  apply IH. intros r' Hr'. apply H. right. exact Hr'.
Qed.

Lemma foldr_max_ge (g : nat -> Qc) (l : list nat) (p : nat) :
  p ∈ l -> g p <= foldr (fun r acc => Qc_max (g r) acc) 0 l.
Proof.
  induction l as [|r l IH]; intros Hp; simpl; [inversion Hp|].
  apply elem_of_cons in Hp as [->|Hp].
  - apply Qc_max_l.
  - apply Qcle_trans with (foldr (fun r acc => Qc_max (g r) acc) 0 l);
      [apply IH; exact Hp | apply Qc_max_r].
Qed.

(** The key of the row that [max] selects is the largest absolute value
    of the column. *)
Lemma column_max_selected (M : matrix Exact) (i n p : nat) :
  (i <= p < n)%nat ->
  (forall r, (i <= r < n)%nat -> Qcabs (entry M r i) <= Qcabs (entry M p i)) ->
  column_max M i n = Qcabs (entry M p i).
Proof.
  intros Hp Hall. unfold column_max. apply Qcle_antisym.
  - apply foldr_max_le; [apply Qcabs_nonneg|].
    intros r Hr. apply elem_of_seq in Hr. apply Hall. lia.
  - apply (foldr_max_ge (fun r => Qcabs (entry M r i))).
    apply elem_of_seq. lia.
Qed.

Lemma annihilates_zero (n : nat) (M : matrix Exact) :
  annihilates n (fun _ => 0) M.
Proof.
  intros r _. rewrite (sum_upto_ext _ _ (fun _ => 0)).
  - apply sum_upto_zero.
  - intros c _. over_Qc. ring.
Qed.

(** The working matrix keeps its shape. *)
Lemma pivot_steps_shape (n k : nat) (M0 M : matrix Exact) :
  shape n (n + 1) M0 -> (k <= n)%nat -> pivot_steps n k M0 = Ok M ->
  shape n (n + 1) M.
Proof.
  intros HM0 Hk Hrun.
  pose proof (pivot_steps_exact n k (fun _ => 0) M0 HM0
                (annihilates_zero n M0) Hk) as H.
  rewrite Hrun in H. simpl in H. tauto.
Qed.

(** The step at column [i] raises exactly when the column maximum is
    below the threshold. *)
Lemma pivot_step_raises (n i : nat) (M : matrix Exact) :
  shape n (n + 1) M -> (i < n)%nat ->
  (Qc_ltb (column_max M i n) Qc_eps = true ->
   pivot_step n i M = Raise (ValueError singular_msg)) /\
  (Qc_ltb (column_max M i n) Qc_eps = false ->
   exists M', pivot_step n i M = Ok M').
Proof.
  intros HM Hi.
  destruct (pivot_step_exact n i M HM Hi) as (p & Hp & Hall & Hstep).
  rewrite (column_max_selected M i n p Hp Hall).
  destruct (Qc_ltb (Qcabs (entry M p i)) Qc_eps).
  - split; [intros _; exact Hstep | discriminate].
  - split; [discriminate|]. intros _.
    destruct Hstep as (M' & HM' & _). exists M'. exact HM'.
Qed.

(** Which calls raise the singular-matrix exception. *)
Lemma solve_linear_system_raises_iff (n : nat) (A : matrix Exact)
    (b : list Qc) :
  shape n n A -> length b = n ->
  solve_linear_system A b = Raise (ValueError singular_msg) <->
  exists i, (i < n)%nat /\ small_pivot_at A b i = true.
Proof.
  intros HA Hb.
  assert (HM0 : shape n (n + 1) (augment A b)) by (apply shape_augment; auto).
  unfold small_pivot_at, solve_linear_system.
  rewrite (shape_length n n A HA). split.
  - intros Hraise.
    destruct (pivot_steps n n (augment A b)) as [M|e] eqn:Hrun.
    + pose proof (pivot_steps_shape n n _ M HM0 (Nat.le_refl n) Hrun) as HM.
      simpl in Hraise. rewrite (read_solution_eq n M HM) in Hraise.
      discriminate.
    + simpl in Hraise. injection Hraise as ->.
      apply for_each_seq_Raise in Hrun as (i & Mi & Hi & Hrun & Hstep).
      exists i. split; [exact Hi|].
      change (for_each (seq 0 i) (pivot_step n) (augment A b))
        with (pivot_steps n i (augment A b)) in Hrun.
      rewrite Hrun.
      pose proof (pivot_steps_shape n i _ Mi HM0 ltac:(lia) Hrun) as HMi.
      destruct (pivot_step_raises n i Mi HMi Hi) as [_ Hok].
      destruct (Qc_ltb (column_max Mi i n) Qc_eps); [reflexivity|].
      destruct (Hok eq_refl) as (M' & HM'). congruence.
  - intros (i & Hi & Hsmall).
    destruct (pivot_steps n i (augment A b)) as [Mi|e] eqn:Hrun;
      [|discriminate].
    pose proof (pivot_steps_shape n i _ Mi HM0 ltac:(lia) Hrun) as HMi.
    destruct (pivot_step_raises n i Mi HMi Hi) as [Hraise _].
    assert (Hloop : pivot_steps n n (augment A b)
                    = Raise (ValueError singular_msg)).
    { apply for_each_seq_Raise. exists i, Mi. auto. }
    rewrite Hloop. reflexivity.
Qed.

(** X23. On a square system, over the rationals, [solve_linear_system]
    raises the singular-matrix [ValueError] exactly when, at some pivot
    column [i] that the loop reaches, the largest absolute value in
    column [i] among the rows [i .. n-1] of the working matrix,
    [column_max], is below the threshold. *)
Theorem solve_linear_system_singular_column_max (n : nat) (A : matrix Exact)
    (b : list Qc) :
  has_shape n n A = true -> length b = n ->
  solve_linear_system A b = Raise (ValueError singular_msg) <->
  exists i, (i < n)%nat /\ small_pivot_at A b i = true.
Proof.
  intros HA Hb. apply has_shape_shape in HA.
  exact (solve_linear_system_raises_iff n A b HA Hb).
Qed.

End PivotTest.

(** * Solving recovers the unknowns *)

Section RoundTrip.

Local Open Scope Qc_scope.

Lemma foldl_add_sum (u v : list Qc) (acc : Qc) :
  foldl Qcplus acc (zip_with Qcmult u v) =
  acc + sum_upto (length u) (fun c => nth c u 0 * nth c v 0).
Proof.
  revert v acc. induction u as [|a u IH]; intros v acc.
  - simpl. ring.
  - destruct v as [|b v].
    + simpl length. rewrite (sum_upto_ext _ _ (fun _ => 0)).
      * rewrite sum_upto_zero. simpl. ring.
      * intros c _. destruct c; simpl; ring.
    + simpl length. rewrite sum_upto_first. simpl. rewrite IH. ring.
Qed.

Lemma dot_sum (u v : list Qc) :
  dot (K := Exact) u v =
  sum_upto (length u) (fun c => nth c u 0 * nth c v 0).
Proof.
  unfold dot. cbn [add mul zero Exact]. rewrite foldl_add_sum.
  change (num Exact) with Qc. ring.
Qed.

Lemma length_mat_vec (A : matrix Exact) (x : list Qc) :
  length (mat_vec A x) = length A.
Proof. unfold mat_vec. apply length_map. Qed.

Lemma nth_mat_vec (n : nat) (A : matrix Exact) (x : list Qc) (r : nat) :
  shape n n A -> (r < n)%nat ->
  nth r (mat_vec A x) 0 = sum_upto n (fun c => entry A r c * nth c x 0).
Proof.
  intros [Hlen Hrows] Hr. unfold mat_vec.
  rewrite nth_lookup, list_lookup_fmap.
  destruct (nth_lookup_or_length A r []) as [-> | ?]; [|lia]. simpl.
  rewrite dot_sum, Hrows by exact Hr. reflexivity.
Qed.

(** A singular-matrix exception is raised only if some pivot is small. *)
Lemma no_small_pivot_not_singular (n : nat) (A : matrix Exact) (b : list Qc) :
  shape n n A -> length b = n -> no_small_pivot A b = true ->
  solve_linear_system A b <> Raise (ValueError singular_msg).
Proof.
  intros HA Hb Hno Hraise.
  apply (solve_linear_system_raises_iff n A b HA Hb) in Hraise
    as (i & Hi & Hsmall).
  unfold no_small_pivot in Hno. rewrite forallb_forall in Hno.
  specialize (Hno i). rewrite Hsmall in Hno.
  assert (Hin : In i (seq 0 (length A))).
  { apply in_seq. rewrite (shape_length n n A HA). lia. }
  specialize (Hno Hin). discriminate.
Qed.

(** C1, as amended: over the rationals.  If the elimination on [A] meets
    no pivot below [1e-12], then for every [x] the call
    [solve_linear_system A (A * x)] returns [x] itself, which in
    particular satisfies [A * x' = b]. *)
Theorem solve_linear_system_round_trip (n : nat) (A : matrix Exact)
    (x : list Qc) :
  has_shape n n A = true -> length x = n ->
  no_small_pivot A (mat_vec A x) = true ->
  exists x',
    solve_linear_system A (mat_vec A x) = Ok x' /\
    x' = x /\ mat_vec A x' = mat_vec A x.
Proof.
  intros HA Hx Hno. apply has_shape_shape in HA.
  assert (Hb : length (mat_vec A x) = n).
  { rewrite length_mat_vec. exact (shape_length n n A HA). }
  pose proof (no_small_pivot_not_singular n A _ HA Hb Hno) as Hns.
  pose proof (solve_linear_system_annihilator n A (mat_vec A x)
    (fun c => if decide (c < n)%nat then nth c x 0 else -(1)) HA Hb) as Hpost.
  destruct (solve_linear_system A (mat_vec A x)) as [x'|e].
  - exists x'. split; [reflexivity|].
    assert (Hxx : x' = x); [|split; [exact Hxx | rewrite Hxx; reflexivity]].
    simpl in Hpost. destruct Hpost as [Hlen Heq].
    + intros r Hr. rewrite (nth_mat_vec n) by assumption.
      rewrite decide_False by lia.
      rewrite (sum_upto_cut n (fun c => entry A r c) (fun c => nth c x 0)).
      change (num Exact) with Qc. ring.
    + apply (nth_ext _ _ 0 0); [congruence|].
      intros r Hr. rewrite Hlen in Hr. specialize (Heq r Hr).
      rewrite decide_True in Heq by exact Hr.
      rewrite decide_False in Heq by lia.
      change (num Exact) with Qc in *.
      assert (Hd : nth r x' 0 = nth r x 0 - (nth r x 0 + nth r x' 0 * - (1)))
        by ring.
      rewrite Heq in Hd. rewrite Hd. ring.
  - exfalso. apply Hns. f_equal. simpl in Hpost. apply Hpost.
    intros r Hr. rewrite (nth_mat_vec n) by assumption.
    rewrite decide_False by lia.
    rewrite (sum_upto_cut n (fun c => entry A r c) (fun c => nth c x 0)).
    change (num Exact) with Qc. ring.
Qed.

(** A matrix with a non-zero vector in its kernel makes the solver raise,
    whatever the right-hand side. *)
Lemma solve_linear_system_singular (n : nat) (A : matrix Exact) (b : list Qc) :
  shape n n A -> length b = n -> singular n A ->
  solve_linear_system A b = Raise (ValueError singular_msg).
Proof.
  intros HA Hb (v & (k & Hk & Hvk) & Hker).
  pose proof (solve_linear_system_annihilator n A b
    (fun c => if decide (c < n)%nat then v c else 0) HA Hb) as Hpost.
  assert (Hpre : forall r, (r < n)%nat ->
    sum_upto n (fun c => entry A r c *
                         (if decide (c < n)%nat then v c else 0)) +
    nth r b 0 * (if decide (n < n)%nat then v n else 0) = 0).
  { intros r Hr. rewrite decide_False by lia.
    rewrite (sum_upto_cut n (fun c => entry A r c) v).
    rewrite (Hker r Hr). ring. }
  specialize (Hpost Hpre).
  destruct (solve_linear_system A b) as [x'|e]; simpl in Hpost.
  - exfalso. destruct Hpost as [_ Heq]. specialize (Heq k Hk).
    rewrite decide_True in Heq by exact Hk.
    rewrite decide_False in Heq by lia.
    apply Hvk. rewrite <- Heq. ring.
  - rewrite Hpost. reflexivity.
Qed.

End RoundTrip.

(** * The susceptance matrix over the rationals *)

Section ExactBuild.

Local Open Scope Qc_scope.

Lemma line_effect_exact (l : line Exact) (r c : nat) (v : Qc) :
  line_effect (K := Exact) l r c v = v + line_delta l r c.
Proof.
  destruct l as [[i j] x]. unfold line_effect, line_delta, delta.
  cbn [add sub quot one Exact].
  set (a := Z.to_nat i). set (b := Z.to_nat j).
  destruct (decide (r = a)), (decide (a = c)),
           (decide (r = b)), (decide (b = c));
    repeat match goal with
      | |- context [decide ?P] =>
          first [ rewrite (decide_True (P := P)) by lia
                | rewrite (decide_False (P := P)) by lia ]
      end;
    (over_Qc; ring).
Qed.

Lemma foldl_line_effect_exact (lines : list (line Exact)) (r c : nat)
    (v : Qc) :
  foldl (fun v l => line_effect (K := Exact) l r c v) v lines =
  v + delta_sum lines r c.
Proof.
  revert v. induction lines as [|l lines IH]; intros v; simpl.
  - (over_Qc; ring).
  - rewrite IH, line_effect_exact. (over_Qc; ring).
Qed.

(** Over the rationals the built matrix holds, at every position, the sum
    of what the lines add there. *)
Lemma build_b_matrix_exact (N : Z) (lines : list (line Exact)) :
  valid_lines N lines = true ->
  exists B,
    build_b_matrix N lines = Ok B /\
    shape (Z.to_nat N) (Z.to_nat N) B /\
    forall r c, entry B r c = delta_sum lines r c.
Proof.
  intros Hv.
  destruct (build_b_matrix_entries N lines Hv) as (B & HB & Hshape & Hent).
  exists B. split; [exact HB|]. split; [exact Hshape|].
  intros r c. rewrite Hent, foldl_line_effect_exact.
  cbn [zero Exact]. (over_Qc; ring).
Qed.

Lemma delta_sum_cons (l : line Exact) (lines : list (line Exact))
    (r c : nat) :
  delta_sum (l :: lines) r c = line_delta l r c + delta_sum lines r c.
Proof. reflexivity. Qed.

Lemma delta_sum_Permutation (lines lines' : list (line Exact)) (r c : nat) :
  lines ≡ₚ lines' -> delta_sum lines r c = delta_sum lines' r c.
Proof.
  induction 1 as [|l ls ls' _ IH|l l' ls|ls1 ls2 ls3 _ IH1 _ IH2].
  - reflexivity.
  - rewrite !delta_sum_cons, IH. reflexivity.
  - rewrite !delta_sum_cons. ring.
  - congruence.
Qed.

Lemma valid_lines_Permutation (N : Z) (lines lines' : list (line Exact)) :
  lines ≡ₚ lines' -> valid_lines N lines = valid_lines N lines'.
Proof.
  unfold valid_lines.
  induction 1 as [|l ls ls' _ IH|l l' ls|ls1 ls2 ls3 _ IH1 _ IH2];
    cbn [forallb].
  - reflexivity.
  - rewrite IH. reflexivity.
  - destruct (valid_line N l), (valid_line N l'); reflexivity.
  - congruence.
Qed.

(** C8, as amended: over the rationals.  The matrix built from a valid
    line list does not depend on the order of the lines. *)
Theorem build_b_matrix_Permutation (N : Z) (lines lines' : list (line Exact)) :
  valid_lines N lines = true -> lines ≡ₚ lines' ->
  exists B,
    build_b_matrix N lines = Ok B /\ build_b_matrix N lines' = Ok B.
Proof.
  intros Hv Hperm.
  assert (Hv' : valid_lines N lines' = true).
  { rewrite <- (valid_lines_Permutation N lines lines' Hperm). exact Hv. }
  destruct (build_b_matrix_exact N lines Hv) as (B & HB & Hshape & Hent).
  destruct (build_b_matrix_exact N lines' Hv') as (B' & HB' & Hshape' & Hent').
  exists B. split; [exact HB|]. rewrite HB'. f_equal.
  apply (matrix_ext (Z.to_nat N) (Z.to_nat N)); try assumption.
  intros r c _ _. rewrite Hent, Hent'. symmetry.
  apply delta_sum_Permutation. exact Hperm.
Qed.

End ExactBuild.

(** * Row sums and the kernel of the susceptance matrix *)

Section ExactRows.

Local Open Scope Qc_scope.

Lemma delta_sym (r c : nat) : delta r c = delta c r.
Proof. unfold delta. repeat case_decide; try reflexivity; exfalso; lia. Qed.

(** One line against a weight [w] on the buses: the row of its two ends
    gets plus and minus the difference of their weights. *)
Lemma sum_line_delta (n : nat) (i j : Z) (x : Qc) (r : nat)
    (w : nat -> Qc) :
  (Z.to_nat i < n)%nat -> (Z.to_nat j < n)%nat ->
  sum_upto n (fun c => line_delta (i, j, x) r c * w c) =
  (1 / x) * (delta r (Z.to_nat i) - delta r (Z.to_nat j))
          * (w (Z.to_nat i) - w (Z.to_nat j)).
Proof.
  intros Hi Hj. unfold line_delta.
  set (a := Z.to_nat i) in *. set (b := Z.to_nat j) in *.
  rewrite (sum_upto_ext _ _
    (fun c => ((1 / x) * (delta r a - delta r b)) * (delta a c * w c)
              + ((1 / x) * (delta r b - delta r a)) * (delta b c * w c)))
    by (intros c _; ring).
  rewrite sum_upto_linear, !sum_upto_delta.
  rewrite !decide_True by assumption. ring.
Qed.

(** A weight that takes the same value at the two ends of every line is
    in the kernel of the built matrix. *)
Lemma delta_sum_kernel (N : Z) (lines : list (line Exact)) (w : nat -> Qc)
    (r : nat) :
  valid_lines N lines = true ->
  (forall l, l ∈ lines -> w (Z.to_nat l.1.1) = w (Z.to_nat l.1.2)) ->
  sum_upto (Z.to_nat N) (fun c => delta_sum lines r c * w c) = 0.
Proof.
  intros Hv Hw. induction lines as [|l lines IH].
  - rewrite (sum_upto_ext _ _ (fun _ => 0)) by (intros c _; simpl; ring).
    apply sum_upto_zero.
  - cbn [valid_lines forallb] in Hv. apply andb_true_iff in Hv as [Hl Hv].
    rewrite (sum_upto_ext _ _
      (fun c => 1 * (line_delta l r c * w c)
                + 1 * (delta_sum lines r c * w c)))
      by (intros c _; rewrite delta_sum_cons; ring).
    rewrite sum_upto_linear.
    rewrite IH by (assumption || (intros l' Hl'; apply Hw; right; exact Hl')).
    destruct l as [[i j] x].
    apply valid_line_inv in Hl as (Hi & Hj & _).
    rewrite (sum_line_delta (Z.to_nat N)) by lia.
    specialize (Hw (i, j, x) ltac:(left)). simpl in Hw. rewrite Hw. ring.
Qed.

Lemma build_b_matrix_kernel (N : Z) (lines : list (line Exact))
    (B : matrix Exact) (w : nat -> Qc) (r : nat) :
  valid_lines N lines = true ->
  build_b_matrix N lines = Ok B ->
  (forall l, l ∈ lines -> w (Z.to_nat l.1.1) = w (Z.to_nat l.1.2)) ->
  sum_upto (Z.to_nat N) (fun c => entry B r c * w c) = 0.
Proof.
  intros Hv HB Hw.
  destruct (build_b_matrix_exact N lines Hv) as (B' & HB' & _ & Hent).
  assert (B' = B) as -> by congruence.
  rewrite (sum_upto_ext _ _ (fun c => delta_sum lines r c * w c))
    by (intros c _; rewrite Hent; reflexivity).
  apply delta_sum_kernel; assumption.
Qed.

(** C7, as amended: over the rationals.  Every row of the matrix built
    from a valid line list sums to zero (self-loops or not); hence, when
    there is at least one bus, the vector of ones is a non-zero vector
    of the kernel and the matrix is singular. *)
Theorem build_b_matrix_row_sums (N : Z) (lines : list (line Exact)) :
  valid_lines N lines = true ->
  exists B,
    build_b_matrix N lines = Ok B /\
    (forall r, (r < Z.to_nat N)%nat ->
       sum_upto (Z.to_nat N) (fun c => entry B r c) = 0) /\
    ((1 <= N)%Z -> singular (Z.to_nat N) B).
Proof.
  intros Hv.
  destruct (build_b_matrix_exact N lines Hv) as (B & HB & _ & _).
  exists B. split; [exact HB|].
  assert (Hones : forall r,
    sum_upto (Z.to_nat N) (fun c => entry B r c * (fun _ => 1) c) = 0).
  { intros r. apply (build_b_matrix_kernel N lines B (fun _ => 1) r Hv HB).
    reflexivity. }
  split.
  - intros r _. rewrite <- (Hones r). apply sum_upto_ext.
    intros c _. over_Qc. ring.
  - intros HN. exists (fun _ => 1). split.
    + exists 0%nat. split; [lia | discriminate].
    + intros r _. apply Hones.
Qed.

End ExactRows.

(** * The entries of the susceptance matrix *)

Section ExactEntries.

Local Open Scope Qc_scope.

Lemma line_delta_diagonal (N : Z) (l : line Exact) (r : nat) :
  valid_line N l = true ->
  line_delta l r r =
  if touches r l && negb (self_loop l) then 1 / l.2 else 0.
Proof.
  destruct l as [[i j] x]. intros Hv.
  apply valid_line_inv in Hv as (Hi & Hj & _).
  unfold line_delta, touches, self_loop, delta. cbn [fst snd].
  destruct (Z.eqb_spec i (Z.of_nat r)), (Z.eqb_spec j (Z.of_nat r)),
           (Z.eqb_spec i j); cbn [orb andb negb];
    repeat case_decide; try (exfalso; lia); ring.
Qed.

Lemma line_delta_off_diagonal (N : Z) (l : line Exact) (r c : nat) :
  valid_line N l = true -> r <> c ->
  line_delta l r c = if joins r c l then - (1 / l.2) else 0.
Proof.
  destruct l as [[i j] x]. intros Hv Hrc.
  apply valid_line_inv in Hv as (Hi & Hj & _).
  unfold line_delta, joins, delta. cbn [fst snd].
  destruct (Z.eqb_spec i (Z.of_nat r)), (Z.eqb_spec j (Z.of_nat c)),
           (Z.eqb_spec i (Z.of_nat c)), (Z.eqb_spec j (Z.of_nat r));
    cbn [orb andb];
    repeat case_decide; try (exfalso; lia); ring.
Qed.

Lemma susceptance_sum_filter_cons (f : line Exact -> bool) (l : line Exact)
    (lines : list (line Exact)) :
  susceptance_sum (List.filter f (l :: lines)) =
  (if f l then 1 / l.2 else 0) + susceptance_sum (List.filter f lines).
Proof. simpl. destruct (f l); simpl; ring. Qed.

Lemma delta_sum_diagonal (N : Z) (lines : list (line Exact)) (r : nat) :
  valid_lines N lines = true ->
  delta_sum lines r r =
  susceptance_sum
    (List.filter (fun l => touches r l && negb (self_loop l)) lines).
Proof.
  induction lines as [|l lines IH]; intros Hv; [reflexivity|].
  cbn [valid_lines forallb] in Hv. apply andb_true_iff in Hv as [Hl Hv].
  rewrite delta_sum_cons, susceptance_sum_filter_cons.
  rewrite (line_delta_diagonal N l r Hl), (IH Hv). reflexivity.
Qed.

Lemma delta_sum_off_diagonal (N : Z) (lines : list (line Exact))
    (r c : nat) :
  valid_lines N lines = true -> r <> c ->
  delta_sum lines r c = - susceptance_sum (List.filter (joins r c) lines).
Proof.
  intros Hv Hrc. induction lines as [|l lines IH]; [reflexivity|].
  cbn [valid_lines forallb] in Hv. apply andb_true_iff in Hv as [Hl Hv].
  rewrite delta_sum_cons, susceptance_sum_filter_cons.
  rewrite (line_delta_off_diagonal N l r c Hl Hrc), (IH Hv).
  destruct (joins r c l); ring.
Qed.

(** C2, as amended: over the rationals.  From a valid line list
    [build_b_matrix] returns an [N] by [N] matrix [B] in which [B[r][r]]
    is the sum of [1/x] over the lines with exactly one end at bus [r] (a
    self-loop adds and subtracts its [1/x] twice and leaves nothing),
    [B[r][c]] for [r <> c] is minus the sum of [1/x] over the lines
    joining [r] and [c], and [B[r][c] = B[c][r]] everywhere. *)
Theorem build_b_matrix_sums (N : Z) (lines : list (line Exact)) :
  valid_lines N lines = true ->
  exists B,
    build_b_matrix N lines = Ok B /\
    has_shape (Z.to_nat N) (Z.to_nat N) B = true /\
    (forall r, (r < Z.to_nat N)%nat ->
       entry B r r =
       susceptance_sum
         (List.filter (fun l => touches r l && negb (self_loop l)) lines)) /\
    (forall r c, (r < Z.to_nat N)%nat -> (c < Z.to_nat N)%nat -> r <> c ->
       entry B r c = - susceptance_sum (List.filter (joins r c) lines)) /\
    (forall r c, entry B r c = entry B c r).
Proof.
  intros Hv.
  destruct (build_b_matrix_exact N lines Hv) as (B & HB & Hshape & Hent).
  exists B. split; [exact HB|]. split; [|split; [|split]].
  - apply shape_has_shape. exact Hshape.
  - intros r _. rewrite Hent. apply (delta_sum_diagonal N). exact Hv.
  - intros r c _ _ Hrc. rewrite Hent.
    apply (delta_sum_off_diagonal N); assumption.
  - apply (build_b_matrix_symmetric N lines B Hv HB).
Qed.

End ExactEntries.

(** * Disconnected networks *)

Section Disconnected.

Local Open Scope Qc_scope.

(** C6, as amended: over the rationals.  If some bus [k] other than bus 0
    has no path of lines to bus 0, then [dc_power_flow], called on valid
    lines with an injection vector of matching length, raises the
    singular-matrix [ValueError] of the solver. *)
Theorem dc_power_flow_disconnected (N : Z) (lines : list (line Exact))
    (injections : list Qc) (k : nat) :
  valid_lines N lines = true ->
  Z.of_nat (length injections) = N ->
  (0 < k < Z.to_nat N)%nat ->
  connected_to_slack N lines k = false ->
  dc_power_flow N lines injections = Raise (ValueError singular_msg).
Proof.
  intros Hv Hlen Hk Hdis.
  destruct (build_b_matrix_exact N lines Hv) as (B & HB & Hshape & _).
  set (n := Z.to_nat N) in *.
  set (w := fun u : nat =>
              if connected_to_slack N lines u then 0 else 1 : Qc).
  assert (Hw : forall l, l ∈ lines -> w (Z.to_nat l.1.1) = w (Z.to_nat l.1.2)).
  { intros l Hl. unfold w.
    rewrite (connected_ends N lines Hv l) by (fold n; lia || exact Hl).
    reflexivity. }
  assert (Hw0 : w 0%nat = 0).
  { unfold w, connected_to_slack. rewrite reach_slack. reflexivity. }
  assert (Hsing : singular (n - 1) (drop_slack B)).
  { exists (fun c => w (S c)). split.
    - exists (k - 1)%nat. split; [lia|].
      replace (S (k - 1)) with k by lia. unfold w. rewrite Hdis. discriminate.
    - intros r Hr.
      pose proof (build_b_matrix_kernel N lines B w (S r) Hv HB Hw) as Hker.
      fold n in Hker. replace n with (S (n - 1)) in Hker by lia.
      rewrite sum_upto_first, Hw0 in Hker.
      rewrite <- Hker.
      rewrite (sum_upto_ext _ _
        (fun c => entry B (S r) (S c) * w (S c)))
        by (intros c _; rewrite entry_drop_slack; reflexivity).
      over_Qc. ring. }
  assert (Hsolve : solve_linear_system (drop_slack B) (drop 1 injections)
                   = Raise (ValueError singular_msg)).
  { apply (solve_linear_system_singular (n - 1)).
    - apply shape_drop_slack. exact Hshape.
    - rewrite length_drop. lia.
    - exact Hsing. }
  unfold dc_power_flow.
  destruct (decide _) as [Hne|_]; [contradiction|].
  rewrite HB. cbn [bind]. cbv zeta.
  change (num Exact) with Qc in *. rewrite Hsolve. reflexivity.
Qed.

End Disconnected.

(** * build_b_matrix at the edges of its domain *)

Section BuildEdges.

Context {K : Arith}.

Local Abbreviation F := (num K).

Lemma norm_index_negative (len : nat) (i : Z) :
  (- Z.of_nat len <= i < 0)%Z ->
  norm_index len i = Ok (Z.to_nat (Z.of_nat len + i)).
Proof.
  intros [H0 H1]. unfold norm_index.
  destruct (Z.leb_spec 0 i); [lia|]. cbn [andb].
  destruct (Z.ltb_spec i 0); [|lia].
  destruct (Z.leb_spec (- Z.of_nat len) i); [reflexivity | lia].
Qed.

Lemma norm_index_outside (len : nat) (i : Z) :
  ~ (- Z.of_nat len <= i < Z.of_nat len)%Z ->
  norm_index len i = Raise IndexError.
Proof.
  intros H. unfold norm_index.
  destruct (Z.leb_spec 0 i), (Z.ltb_spec i (Z.of_nat len)),
           (Z.ltb_spec i 0), (Z.leb_spec (- Z.of_nat len) i);
    cbn [andb]; try reflexivity; exfalso; lia.
Qed.

Lemma norm_index_wrap (len : nat) (i : Z) :
  (- Z.of_nat len <= i < Z.of_nat len)%Z ->
  norm_index len i = Ok (Z.to_nat (wrap_index (Z.of_nat len) i)) /\
  (0 <= wrap_index (Z.of_nat len) i < Z.of_nat len)%Z.
Proof.
  intros Hi. unfold wrap_index. destruct (Z.ltb_spec i 0).
  - split; [apply norm_index_negative; lia | lia].
  - split; [apply norm_index_range; lia | lia].
Qed.

(** An augmented assignment with any integer indices: the indices are
    normalised, and the entry they address is replaced. *)
Lemma aug_assign_norm (rows cols : nat) (B : matrix K) (i j : Z)
    (f : F -> F) (r c : nat) :
  shape rows cols B ->
  norm_index rows i = Ok r -> norm_index cols j = Ok c ->
  aug_assign B i j f = Ok (set_entry B r c (f (entry B r c))).
Proof.
  intros [Hlen Hrows] Hi Hj.
  pose proof (post_norm_index rows i) as Hr. rewrite Hi in Hr. simpl in Hr.
  pose proof (post_norm_index cols j) as Hc. rewrite Hj in Hc. simpl in Hc.
  unfold aug_assign, getitem, setitem.
  rewrite Hlen, Hi. cbn [bind].
  rewrite (item_lt B r []) by lia. cbn [bind].
  rewrite (Hrows r Hr), Hj. cbn [bind].
  rewrite (item_lt _ c (zero K)) by (rewrite Hrows; lia). cbn [bind].
  rewrite store_lt by (rewrite Hrows; lia). cbn [bind].
  rewrite store_lt by lia. reflexivity.
Qed.

Lemma aug_assign_row_outside (rows cols : nat) (B : matrix K) (i j : Z)
    (f : F -> F) :
  shape rows cols B ->
  ~ (- Z.of_nat rows <= i < Z.of_nat rows)%Z ->
  aug_assign B i j f = Raise IndexError.
Proof.
  intros [Hlen _] Hi. unfold aug_assign, getitem.
  rewrite Hlen, (norm_index_outside rows i Hi). reflexivity.
Qed.

Lemma aug_assign_column_outside (rows cols : nat) (B : matrix K) (i j : Z)
    (f : F -> F) :
  shape rows cols B ->
  (- Z.of_nat rows <= i < Z.of_nat rows)%Z ->
  ~ (- Z.of_nat cols <= j < Z.of_nat cols)%Z ->
  aug_assign B i j f = Raise IndexError.
Proof.
  intros [Hlen Hrows] Hi Hj.
  destruct (norm_index_wrap rows i Hi) as [Hn Hw].
  unfold aug_assign, getitem.
  rewrite Hlen, Hn. cbn [bind].
  rewrite (item_lt B _ []) by lia. cbn [bind].
  rewrite Hrows by lia. rewrite (norm_index_outside cols j Hj). reflexivity.
Qed.

(** Whatever its indices, an augmented assignment that returns keeps the
    shape, and otherwise raises [IndexError]. *)
Lemma aug_assign_outcome (rows cols : nat) (B : matrix K) (i j : Z)
    (f : F -> F) :
  shape rows cols B ->
  post (shape rows cols) (fun e => e = IndexError) (aug_assign B i j f).
Proof.
  intros HB.
  destruct (decide (- Z.of_nat rows <= i < Z.of_nat rows)%Z) as [Hi|Hi];
    [|rewrite (aug_assign_row_outside rows cols) by assumption; reflexivity].
  destruct (decide (- Z.of_nat cols <= j < Z.of_nat cols)%Z) as [Hj|Hj];
    [|rewrite (aug_assign_column_outside rows cols) by assumption;
      reflexivity].
  destruct (norm_index_wrap rows i Hi) as [Hni _].
  destruct (norm_index_wrap cols j Hj) as [Hnj _].
  rewrite (aug_assign_norm rows cols B i j f _ _ HB Hni Hnj).
  simpl. apply shape_set_entry. exact HB.
Qed.

Lemma add_line_outcome (n : nat) (l : line K) (B : matrix K) :
  shape n n B ->
  post (shape n n) (fun e => e = IndexError \/ e = ZeroDivisionError)
       (add_line l B).
Proof.
  intros HB. destruct l as [[i j] x]. unfold add_line. apply post_bind.
  eapply post_mono; [apply post_py_div | | intros e ->; right; reflexivity].
  intros b _. apply post_bind.
  eapply post_mono; [apply (aug_assign_outcome n n); exact HB | | auto].
  intros B1 HB1. apply post_bind.
  eapply post_mono; [apply (aug_assign_outcome n n); exact HB1 | | auto].
  intros B2 HB2. apply post_bind.
  eapply post_mono; [apply (aug_assign_outcome n n); exact HB2 | | auto].
  intros B3 HB3.
  eapply post_mono; [apply (aug_assign_outcome n n); exact HB3 | | auto].
  auto.
Qed.

(** X1. Whatever the line list is, [build_b_matrix] either returns a
    matrix with [num_nodes] rows of [num_nodes] entries or raises
    [IndexError] or [ZeroDivisionError]; it raises nothing else. *)
Theorem build_b_matrix_outcome (num_nodes : Z) (lines : list (line K)) :
  match build_b_matrix num_nodes lines with
  | Ok B => has_shape (Z.to_nat num_nodes) (Z.to_nat num_nodes) B = true
  | Raise e => e = IndexError \/ e = ZeroDivisionError
  end.
Proof.
  pose proof (post_for_each
    (fun _ (B : matrix K) => shape (Z.to_nat num_nodes) (Z.to_nat num_nodes) B)
    (fun e => e = IndexError \/ e = ZeroDivisionError)
    add_line lines (zeros (Z.to_nat num_nodes)) (shape_zeros _)) as H.
  unfold build_b_matrix.
  destruct (for_each lines add_line (zeros (Z.to_nat num_nodes))) as [B|e].
  - apply shape_has_shape. apply H.
    intros done l rest B' _ HB'. apply add_line_outcome. exact HB'.
  - apply H. intros done l rest B' _ HB'. apply add_line_outcome. exact HB'.
Qed.

Lemma build_b_matrix_prefix (N : Z) (pre rest : list (line K)) :
  valid_lines N pre = true ->
  exists B,
    shape (Z.to_nat N) (Z.to_nat N) B /\
    build_b_matrix N (pre ++ rest) = for_each rest add_line B.
Proof.
  intros Hv.
  destruct (build_b_matrix_entries N pre Hv) as (B & HB & Hshape & _).
  exists B. split; [exact Hshape|].
  unfold build_b_matrix in *. rewrite for_each_app, HB. reflexivity.
Qed.

(** X2. A line of zero reactance makes [build_b_matrix] raise
    [ZeroDivisionError] when the lines before it are valid: the division
    [1 / x] comes before any indexing, so the bus indices of that line
    and the lines after it do not matter. *)
Theorem build_b_matrix_zero_reactance (N : Z) (pre rest : list (line K))
    (i j : Z) (x : F) :
  valid_lines N pre = true -> is_zero K x = true ->
  build_b_matrix N (pre ++ (i, j, x) :: rest) = Raise ZeroDivisionError.
Proof.
  intros Hv Hx.
  destruct (build_b_matrix_prefix N pre ((i, j, x) :: rest) Hv)
    as (B & _ & ->).
  cbn [for_each]. unfold add_line, py_div. rewrite Hx. reflexivity.
Qed.

(** X3. A line of non-zero reactance with a bus index outside
    [[-N, N)] makes [build_b_matrix] raise [IndexError] when the lines
    before it are valid. *)
Theorem build_b_matrix_index_error (N : Z) (pre rest : list (line K))
    (i j : Z) (x : F) :
  valid_lines N pre = true -> is_zero K x = false ->
  in_range N (i, j, x) = false ->
  build_b_matrix N (pre ++ (i, j, x) :: rest) = Raise IndexError.
Proof.
  intros Hv Hx Hout.
  destruct (build_b_matrix_prefix N pre ((i, j, x) :: rest) Hv)
    as (B & HB & ->).
  set (n := Z.to_nat N) in *.
  cbn [for_each]. unfold add_line, py_div. rewrite Hx. cbn [bind].
  unfold in_range in Hout. cbn [fst snd] in Hout.
  destruct (decide (- Z.of_nat n <= i < Z.of_nat n)%Z) as [Hi|Hi];
    [|rewrite (aug_assign_row_outside n n) by assumption; reflexivity].
  assert (Hj : ~ (- Z.of_nat n <= j < Z.of_nat n)%Z).
  { intros Hj.
    destruct (Z.leb_spec (- N) i), (Z.ltb_spec i N),
             (Z.leb_spec (- N) j), (Z.ltb_spec j N);
      cbn [andb] in Hout; try discriminate; lia. }
  destruct (norm_index_wrap n i Hi) as [Hni _].
  rewrite (aug_assign_norm n n B i i _ _ _ HB Hni Hni). cbn [bind].
  rewrite (aug_assign_row_outside n n); [reflexivity | | exact Hj].
  apply shape_set_entry. exact HB.
Qed.

Lemma in_range_inv (N : Z) (l : line K) :
  in_range N l = true ->
  (- N <= l.1.1 < N)%Z /\ (- N <= l.1.2 < N)%Z.
Proof.
  unfold in_range. rewrite !andb_true_iff, !Z.leb_le, !Z.ltb_lt. lia.
Qed.

(** A negative index in range addresses the same entries as the index it
    wraps to. *)
Lemma add_line_wrap (N : Z) (l : line K) (B : matrix K) :
  shape (Z.to_nat N) (Z.to_nat N) B -> in_range N l = true ->
  add_line (wrap_line N l) B = add_line l B.
Proof.
  intros HB Hin. destruct l as [[i j] x].
  apply in_range_inv in Hin as [Hi Hj]. cbn [fst snd] in Hi, Hj.
  set (n := Z.to_nat N) in *.
  assert (HN : Z.of_nat n = N) by lia.
  destruct (norm_index_wrap n i ltac:(lia)) as [Hni Hwi].
  destruct (norm_index_wrap n j ltac:(lia)) as [Hnj Hwj].
  rewrite HN in Hni, Hnj, Hwi, Hwj.
  pose proof (norm_index_range n (wrap_index N i) ltac:(lia)) as Hni'.
  pose proof (norm_index_range n (wrap_index N j) ltac:(lia)) as Hnj'.
  unfold wrap_line, add_line. cbn [fst snd].
  destruct (py_div (one K) x) as [b|e]; [cbn [bind] | reflexivity].
  rewrite (aug_assign_norm n n B i i _ _ _ HB Hni Hni).
  rewrite (aug_assign_norm n n B _ _ _ _ _ HB Hni' Hni'). cbn [bind].
  set (B1 := set_entry B _ _ _).
  assert (HB1 : shape n n B1) by (apply shape_set_entry; exact HB).
  rewrite (aug_assign_norm n n B1 j j _ _ _ HB1 Hnj Hnj).
  rewrite (aug_assign_norm n n B1 _ _ _ _ _ HB1 Hnj' Hnj'). cbn [bind].
  set (B2 := set_entry B1 _ _ _).
  assert (HB2 : shape n n B2) by (apply shape_set_entry; exact HB1).
  rewrite (aug_assign_norm n n B2 i j _ _ _ HB2 Hni Hnj).
  rewrite (aug_assign_norm n n B2 _ _ _ _ _ HB2 Hni' Hnj'). cbn [bind].
  set (B3 := set_entry B2 _ _ _).
  assert (HB3 : shape n n B3) by (apply shape_set_entry; exact HB2).
  rewrite (aug_assign_norm n n B3 j i _ _ _ HB3 Hnj Hni).
  rewrite (aug_assign_norm n n B3 _ _ _ _ _ HB3 Hnj' Hni').
  reflexivity.
Qed.

Lemma for_each_add_line_wrap (N : Z) (lines : list (line K)) (B : matrix K) :
  shape (Z.to_nat N) (Z.to_nat N) B ->
  forallb (in_range N) lines = true ->
  for_each (map (wrap_line N) lines) add_line B = for_each lines add_line B.
Proof.
  revert B. induction lines as [|l lines IH]; intros B HB Hin;
    [reflexivity|].
  cbn [forallb] in Hin. apply andb_true_iff in Hin as [Hl Hin].
  cbn [map for_each]. rewrite (add_line_wrap N l B HB Hl).
  pose proof (add_line_outcome (Z.to_nat N) l B HB) as Hpost.
  destruct (add_line l B) as [B'|e]; [|reflexivity].
  cbn [bind]. apply IH; [exact Hpost | exact Hin].
Qed.

(** X4. Negative bus indices are not rejected: when every index lies in
    [[-N, N)], [build_b_matrix] gives the result it gives for the lines
    with each negative index [i] replaced by [N + i]. *)
Theorem build_b_matrix_negative_indices (N : Z) (lines : list (line K)) :
  forallb (in_range N) lines = true ->
  build_b_matrix N lines = build_b_matrix N (map (wrap_line N) lines).
Proof.
  intros Hin. unfold build_b_matrix. symmetry.
  apply for_each_add_line_wrap; [apply shape_zeros | exact Hin].
Qed.

(** X5. In every arithmetic, binary64 included, the matrix built from
    valid lines has the same value at [(r, c)] and at [(c, r)]: the two
    entries go through the same operations in the same order. *)
Theorem build_b_matrix_symmetric_entries (N : Z) (lines : list (line K))
    (B : matrix K) (r c : nat) :
  valid_lines N lines = true -> build_b_matrix N lines = Ok B ->
  entry B r c = entry B c r.
Proof. intros Hv HB. exact (build_b_matrix_symmetric N lines B Hv HB r c). Qed.

Lemma line_effect_flip (l : line K) (r c : nat) (v : F) :
  line_effect (flip_line l) r c v = line_effect l r c v.
Proof.
  destruct l as [[i j] x]. unfold flip_line, line_effect. cbn [fst snd].
  set (a := Z.to_nat i). set (b := Z.to_nat j).
  destruct (decide (r = a)), (decide (c = a)),
           (decide (r = b)), (decide (c = b));
    repeat match goal with
      | |- context [decide ?P] =>
          first [ rewrite (decide_True (P := P)) by lia
                | rewrite (decide_False (P := P)) by lia ]
      end;
    reflexivity.
Qed.

Lemma valid_line_flip (N : Z) (l : line K) :
  valid_line N (flip_line l) = valid_line N l.
Proof.
  destruct l as [[i j] x]. unfold flip_line, valid_line. cbn [fst snd].
  destruct (0 <=? i)%Z, (i <? N)%Z, (0 <=? j)%Z, (j <? N)%Z; reflexivity.
Qed.

Lemma flip_some_effect (flips : list bool) (lines : list (line K))
    (r c : nat) (v : F) :
  length flips = length lines ->
  foldl (fun v l => line_effect l r c v) v (flip_some flips lines) =
  foldl (fun v l => line_effect l r c v) v lines.
Proof.
  revert lines v. induction flips as [|b flips IH]; intros [|l lines] v Hlen;
    try discriminate; [reflexivity|].
  cbn [flip_some zip_with foldl]. fold (flip_some flips lines).
  rewrite IH by (simpl in Hlen; lia).
  destruct b; [rewrite line_effect_flip|]; reflexivity.
Qed.

Lemma valid_lines_flip_some (N : Z) (flips : list bool)
    (lines : list (line K)) :
  length flips = length lines ->
  valid_lines N (flip_some flips lines) = valid_lines N lines.
Proof.
  revert lines. induction flips as [|b flips IH]; intros [|l lines] Hlen;
    try discriminate; [reflexivity|].
  unfold valid_lines in *. cbn [flip_some zip_with forallb].
  fold (flip_some flips lines). rewrite IH by (simpl in Hlen; lia).
  destruct b; [rewrite valid_line_flip|]; reflexivity.
Qed.

Lemma build_b_matrix_flip_some (N : Z) (flips : list bool)
    (lines : list (line K)) :
  valid_lines N lines = true -> length flips = length lines ->
  build_b_matrix N (flip_some flips lines) = build_b_matrix N lines.
Proof.
  intros Hv Hlen.
  assert (Hv' : valid_lines N (flip_some flips lines) = true)
    by (rewrite valid_lines_flip_some; assumption).
  destruct (build_b_matrix_entries N lines Hv) as (B & -> & HB & Hent).
  destruct (build_b_matrix_entries N _ Hv') as (B' & -> & HB' & Hent').
  f_equal. apply (matrix_ext (Z.to_nat N) (Z.to_nat N)); try assumption.
  intros r c _ _. rewrite Hent, Hent'. apply flip_some_effect. exact Hlen.
Qed.

(** X6. In every arithmetic, exchanging the two ends of any of the
    lines of a valid line list leaves the built matrix unchanged. *)
Theorem build_b_matrix_flip (N : Z) (flips : list bool)
    (lines : list (line K)) :
  valid_lines N lines = true -> length flips = length lines ->
  build_b_matrix N (flip_some flips lines) = build_b_matrix N lines.
Proof. exact (build_b_matrix_flip_some N flips lines). Qed.

End BuildEdges.

(** * solve_linear_system and dc_power_flow on ill-formed arguments *)

Section SolverEdges.

Context {K : Arith}.

Local Abbreviation F := (num K).

(** The search stops at the first key that raises. *)
Lemma max_from_raises (key : nat -> result F) (rs1 rs2 : list nat)
    (r : nat) (e : exn) (best : nat) (best_key : F) :
  (forall r', r' ∈ rs1 -> exists k, key r' = Ok k) ->
  key r = Raise e ->
  max_from key (rs1 ++ r :: rs2) best best_key = Raise e.
Proof.
  revert best best_key. induction rs1 as [|r1 rs1 IH];
    intros best best_key Hok Hr.
  - cbn [app max_from]. rewrite Hr. reflexivity.
  - cbn [app max_from].
    destruct (Hok r1 ltac:(left)) as (k & ->). cbn [bind].
    assert (Hok' : forall r', r' ∈ rs1 -> exists k, key r' = Ok k)
      by (intros r' Hr'; apply Hok; right; exact Hr').
    destruct (ltb K best_key k); apply IH; assumption.
Qed.

Lemma py_max_raises (key : nat -> result F) (rs1 rs2 : list nat)
    (r : nat) (e : exn) :
  (forall r', r' ∈ rs1 -> exists k, key r' = Ok k) ->
  key r = Raise e ->
  py_max key (rs1 ++ r :: rs2) = Raise e.
Proof.
  intros Hok Hr. destruct rs1 as [|r1 rs1].
  - cbn [app py_max]. rewrite Hr. reflexivity.
  - cbn [app py_max].
    destruct (Hok r1 ltac:(left)) as (k & ->). cbn [bind].
    apply max_from_raises; [|exact Hr].
    intros r' Hr'. apply Hok. right. exact Hr'.
Qed.

(** X7. When [b] has fewer entries than [A] has rows,
    [solve_linear_system] raises [IndexError]: the augmented matrix is as
    short as [b], and the first pivot search reads past its end. *)
Theorem solve_linear_system_short_rhs (A : matrix K) (b : list F) :
  length b < length A ->
  solve_linear_system A b = Raise IndexError.
Proof.
  intros Hlen. unfold solve_linear_system, pivot_steps.
  set (n := length A) in *. set (m := length b) in *.
  set (M := augment A b).
  assert (HMlen : length M = m).
  { unfold M, augment. rewrite length_zip_with. lia. }
  assert (Hkey_ok : forall r, r < m -> exists k, pivot_key M 0 r = Ok k).
  { intros r Hr. unfold pivot_key.
    destruct (lookup_lt_is_Some_2 A r ltac:(lia)) as (row & Hrow).
    destruct (lookup_lt_is_Some_2 b r ltac:(lia)) as (bv & Hbv).
    assert (HM : M !! r = Some (row ++ [bv])).
    { unfold M, augment. rewrite lookup_zip_with, Hrow, Hbv. reflexivity. }
    unfold item at 1. rewrite HM. cbn [bind].
    rewrite (item_lt _ 0 bv) by (rewrite length_app; simpl; lia).
    cbn [bind]. eexists. reflexivity. }
  assert (Hkey_bad : pivot_key M 0 m = Raise IndexError).
  { unfold pivot_key. rewrite item_ge by lia. reflexivity. }
  assert (Hmax : py_max (pivot_key M 0) (seq 0 n) = Raise IndexError).
  { replace n with (m + S (n - m - 1)) by lia.
    rewrite seq_app. cbn [seq]. apply py_max_raises; [|exact Hkey_bad].
    intros r Hr. apply elem_of_seq in Hr. apply Hkey_ok. lia. }
  clearbody n. destruct n as [|n']; [lia|].
  cbn [seq for_each]. unfold pivot_step.
  replace (S n' - 0) with (S n') by lia. rewrite Hmax. reflexivity.
Qed.

(** X8. Entries of [b] beyond the number of rows of [A] are ignored. *)
Theorem solve_linear_system_long_rhs (A : matrix K) (b : list F) :
  solve_linear_system A b = solve_linear_system A (take (length A) b).
Proof.
  unfold solve_linear_system, augment. rewrite zip_with_take_r. reflexivity.
Qed.

(** X9. Whatever [A] and [b] are (rows of any lengths), a solution that
    is returned has as many entries as [A] has rows. *)
Theorem solve_linear_system_returns_length (A : matrix K) (b x : list F) :
  solve_linear_system A b = Ok x -> length x = length A.
Proof.
  intros H. exact (post_Ok _ _ _ _ (solve_linear_system_length A b) H).
Qed.

(** The injection at the slack bus is never read: two injection
    vectors that differ only in entry 0 give the same result. *)
Lemma dc_power_flow_slack_injection (num_nodes : Z) (lines : list (line K))
    (p q : F) (others : list F) :
  dc_power_flow num_nodes lines (p :: others) =
  dc_power_flow num_nodes lines (q :: others).
Proof. reflexivity. Qed.

(** X11. With injections of the right length, a line of zero reactance
    after valid lines makes [dc_power_flow] raise [ZeroDivisionError], and
    a line of non-zero reactance with an index outside [[-N, N)] makes it
    raise [IndexError]: the exceptions of [build_b_matrix] are not
    caught. *)
Theorem dc_power_flow_bad_line (N : Z) (pre rest : list (line K))
    (i j : Z) (x : F) (injections : list F) :
  Z.of_nat (length injections) = N -> valid_lines N pre = true ->
  (is_zero K x = true ->
   dc_power_flow N (pre ++ (i, j, x) :: rest) injections
   = Raise ZeroDivisionError) /\
  (is_zero K x = false -> in_range N (i, j, x) = false ->
   dc_power_flow N (pre ++ (i, j, x) :: rest) injections
   = Raise IndexError).
Proof.
  intros Hlen Hv. unfold dc_power_flow.
  destruct (decide _) as [Hne|_]; [contradiction|]. split.
  - intros Hx.
    destruct (build_b_matrix_prefix N pre ((i, j, x) :: rest) Hv)
      as (B & _ & ->).
    cbn [for_each]. unfold add_line, py_div. rewrite Hx. reflexivity.
  - intros Hx Hout.
    destruct (build_b_matrix_prefix N pre ((i, j, x) :: rest) Hv)
      as (B & HB & ->).
    set (n := Z.to_nat N) in *.
    cbn [for_each]. unfold add_line, py_div. rewrite Hx. cbn [bind].
    unfold in_range in Hout. cbn [fst snd] in Hout.
    destruct (decide (- Z.of_nat n <= i < Z.of_nat n)%Z) as [Hi|Hi];
      [|rewrite (aug_assign_row_outside n n) by assumption; reflexivity].
    assert (Hj : ~ (- Z.of_nat n <= j < Z.of_nat n)%Z).
    { intros Hj.
      destruct (Z.leb_spec (- N) i), (Z.ltb_spec i N),
               (Z.leb_spec (- N) j), (Z.ltb_spec j N);
        cbn [andb] in Hout; try discriminate; lia. }
    destruct (norm_index_wrap n i Hi) as [Hni _].
    rewrite (aug_assign_norm n n B i i _ _ _ HB Hni Hni). cbn [bind].
    rewrite (aug_assign_row_outside n n); [reflexivity | | exact Hj].
    apply shape_set_entry. exact HB.
Qed.

End SolverEdges.

(** * The solver's contract over the rationals *)

Section SolverContract.

Local Open Scope Qc_scope.

Lemma swap_idx_involutive (i p q : nat) :
  swap_idx i p (swap_idx i p q) = q.
Proof. unfold swap_idx. repeat case_decide; lia. Qed.

(** The step loses no equation: what the rows annihilate after the step
    they annihilated before it. *)
Lemma pivot_step_annihilates_back (n i p : nat) (y : nat -> Qc)
    (M M' : matrix Exact) :
  (i <= p < n)%nat -> reduced n i M -> entry M p i <> 0 ->
  (forall r c, (r < n)%nat -> (c <= n)%nat ->
     entry M' r c = pivot_entry M i p r c) ->
  annihilates n y M' -> annihilates n y M.
Proof.
  intros Hp Hred Hpv Hent Hann q Hq.
  set (pv := entry M p i) in *.
  set (r := swap_idx i p q).
  assert (Hr : (r < n)%nat) by (apply swap_idx_lt; lia).
  assert (Hrq : swap_idx i p r = q) by apply swap_idx_involutive.
  pose proof (Hann i ltac:(lia)) as Hrow_i.
  pose proof (Hann r Hr) as Hrow_r.
  rewrite (sum_upto_ext _ _
    (fun c => (if decide (r = i) then pv else 1) * (entry M' r c * y c)
              + (if decide (r = i) then 0 else entry M q i)
                * (entry M' i c * y c))).
  - rewrite sum_upto_linear, Hrow_i, Hrow_r. ring.
  - intros c Hc. rewrite !Hent by lia.
    rewrite !(pivot_entry_rows n) by (assumption || lia).
    rewrite (decide_True (P := i = i)) by reflexivity. fold pv. rewrite Hrq.
    destruct (decide (r = i)) as [Hri|Hri].
    + assert (q = p) as ->.
      { rewrite <- Hrq, Hri. unfold swap_idx.
        rewrite decide_True by reflexivity. reflexivity. }
      over_Qc. field. exact Hpv.
    + over_Qc. field. exact Hpv.
Qed.

Lemma pivot_steps_back (n k : nat) (M0 : matrix Exact) :
  shape n (n + 1) M0 -> (k <= n)%nat ->
  post (fun M => shape n (n + 1) M /\ reduced n k M /\
                 forall y, annihilates n y M -> annihilates n y M0)
       anything
       (pivot_steps n k M0).
Proof.
  intros HM0 Hk. unfold pivot_steps.
  apply (post_for_each_seq
    (fun j M => shape n (n + 1) M /\ reduced n j M /\
                forall y, annihilates n y M -> annihilates n y M0)
    anything (pivot_step n) k 0 M0).
  - split; [exact HM0|]. split; [intros r c _ Hc; lia | auto].
  - intros i M Hi (HM & Hred & Hback).
    destruct (pivot_step_exact n i M HM) as (p & Hp & _ & Hstep); [lia|].
    destruct (Qc_ltb (Qcabs (entry M p i)) Qc_eps) eqn:Htest.
    + rewrite Hstep. exact I.
    + destruct Hstep as (M' & -> & HM' & Hent).
      pose proof (pivot_not_zero _ Htest) as Hpv.
      simpl. split; [exact HM'|]. split.
      * exact (pivot_step_reduced n i p M M' Hp Hred Hpv Hent).
      * intros y Hy. apply Hback.
        exact (pivot_step_annihilates_back n i p y M M' Hp Hred Hpv Hent Hy).
Qed.

Lemma mat_vec_ext (n : nat) (A : matrix Exact) (x b : list Qc) :
  shape n n A -> length b = n ->
  (forall r, (r < n)%nat ->
     sum_upto n (fun c => entry A r c * nth c x 0) = nth r b 0) ->
  mat_vec A x = b.
Proof.
  intros HA Hb Hrows. apply (nth_ext _ _ 0 0).
  - rewrite length_mat_vec, (shape_length n n A HA). congruence.
  - intros r Hr. rewrite length_mat_vec, (shape_length n n A HA) in Hr.
    rewrite (nth_mat_vec n) by assumption. apply Hrows. exact Hr.
Qed.

(** A returned vector solves the system. *)
Lemma solve_linear_system_sound (n : nat) (A : matrix Exact)
    (b x : list Qc) :
  shape n n A -> length b = n ->
  solve_linear_system A b = Ok x -> mat_vec A x = b.
Proof.
  intros HA Hb Hsolve.
  assert (HM0 : shape n (n + 1) (augment A b)) by (apply shape_augment; auto).
  unfold solve_linear_system in Hsolve.
  rewrite (shape_length n n A HA) in Hsolve.
  pose proof (pivot_steps_back n n (augment A b) HM0 (Nat.le_refl n)) as Hpost.
  destruct (pivot_steps n n (augment A b)) as [M|e]; [|discriminate].
  cbn [bind] in Hsolve. destruct Hpost as (HM & Hred & Hback).
  rewrite (read_solution_eq n M HM) in Hsolve. injection Hsolve as <-.
  set (x := map (fun r => entry M r n) (seq 0 n)).
  assert (Hx : forall r, (r < n)%nat -> nth r x 0 = entry M r n).
  { intros r Hr. unfold x.
    rewrite nth_lookup, list_lookup_fmap, lookup_seq_lt by exact Hr.
    reflexivity. }
  set (y := fun c => if decide (c < n)%nat then nth c x 0 else - (1)).
  assert (Hy : annihilates n y M).
  { intros r Hr. replace (n + 1)%nat with (S n) by lia. cbn [sum_upto].
    unfold y at 2. rewrite decide_False by lia. unfold y.
    rewrite (sum_upto_cut n (fun c => entry M r c) (fun c => nth c x 0)).
    rewrite (sum_upto_ext _ _ (fun c => delta r c * nth c x 0))
      by (intros c Hc; rewrite Hred by assumption; reflexivity).
    rewrite sum_upto_delta, decide_True by exact Hr.
    rewrite (Hx r Hr). over_Qc. ring. }
  apply Hback in Hy.
  apply (mat_vec_ext n A x b HA Hb). intros r Hr.
  specialize (Hy r Hr). replace (n + 1)%nat with (S n) in Hy by lia.
  cbn [sum_upto] in Hy. unfold y at 2 in Hy.
  rewrite decide_False in Hy by lia. unfold y in Hy.
  rewrite (sum_upto_cut n (fun c => entry (augment A b) r c)
             (fun c => nth c x 0)) in Hy.
  rewrite (entry_augment n) in Hy by assumption.
  rewrite decide_False in Hy by lia. rewrite decide_True in Hy by reflexivity.
  rewrite (sum_upto_ext _ _ (fun c => entry A r c * nth c x 0)) in Hy.
  - change (num Exact) with Qc in *. cbn [zero Exact] in Hy.
    set (s := sum_upto n _) in *.
    assert (Hd : s = (s + nth r b 0 * - (1)) + nth r b 0) by ring.
    rewrite Hy in Hd. rewrite Hd. ring.
  - intros c Hc. rewrite (entry_augment (K := Exact) n) by assumption.
    rewrite decide_True by exact Hc. reflexivity.
Qed.

(** A returned vector is the only solution. *)
Lemma solve_linear_system_unique (n : nat) (A : matrix Exact)
    (b x z : list Qc) :
  shape n n A -> length b = n -> length z = n ->
  solve_linear_system A b = Ok x -> mat_vec A z = b -> z = x.
Proof.
  intros HA Hb Hz Hsolve Hzb.
  pose proof (solve_linear_system_annihilator n A b
    (fun c => if decide (c < n)%nat then nth c z 0 else - (1)) HA Hb) as Hpost.
  rewrite Hsolve in Hpost. cbn [post] in Hpost.
  destruct Hpost as [Hlen Heq].
  - intros r Hr. rewrite decide_False by lia.
    rewrite (sum_upto_cut n (fun c => entry A r c) (fun c => nth c z 0)).
    rewrite <- (nth_mat_vec n A z r HA Hr), Hzb.
    change (num Exact) with Qc. ring.
  - apply (nth_ext _ _ 0 0); [congruence|].
    intros r Hr. rewrite Hz in Hr. specialize (Heq r Hr).
    rewrite decide_True in Heq by exact Hr.
    rewrite decide_False in Heq by lia.
    change (num Exact) with Qc in *.
    assert (Hd : nth r z 0 = (nth r z 0 + nth r x 0 * - (1)) + nth r x 0)
      by ring.
    rewrite Heq in Hd. rewrite Hd. ring.
Qed.

(** X12. Over the rationals, on a square system of any right-hand side:
    a vector that [solve_linear_system] returns satisfies [A * x = b],
    and it is the only vector that does. *)
Theorem solve_linear_system_solves (n : nat) (A : matrix Exact)
    (b x : list Qc) :
  has_shape n n A = true -> length b = n ->
  solve_linear_system A b = Ok x ->
  mat_vec A x = b /\
  forall z, length z = n -> mat_vec A z = b -> z = x.
Proof.
  intros HA Hb Hsolve. apply has_shape_shape in HA. split.
  - exact (solve_linear_system_sound n A b x HA Hb Hsolve).
  - intros z Hz Hzb.
    exact (solve_linear_system_unique n A b x z HA Hb Hz Hsolve Hzb).
Qed.

(** X13. Over the rationals, on a square system the call ends in one of
    two ways: it returns a vector or it raises the singular-matrix
    [ValueError]; no [IndexError] and no [ZeroDivisionError] escapes. *)
Theorem solve_linear_system_square_outcome (n : nat) (A : matrix Exact)
    (b : list Qc) :
  has_shape n n A = true -> length b = n ->
  (exists x, solve_linear_system A b = Ok x /\ length x = n) \/
  solve_linear_system A b = Raise (ValueError singular_msg).
Proof.
  intros HA Hb. apply has_shape_shape in HA.
  pose proof (solve_linear_system_annihilator n A b (fun _ => 0) HA Hb)
    as Hpost.
  destruct (solve_linear_system A b) as [x|e]; cbn [post] in Hpost.
  - left. exists x. split; [reflexivity|]. apply Hpost.
    intros r _. rewrite (sum_upto_ext _ _ (fun _ => 0))
      by (intros c _; over_Qc; ring).
    rewrite sum_upto_zero. change (num Exact) with Qc. ring.
  - right. rewrite Hpost; [reflexivity|].
    intros r _. rewrite (sum_upto_ext _ _ (fun _ => 0))
      by (intros c _; over_Qc; ring).
    rewrite sum_upto_zero. change (num Exact) with Qc. ring.
Qed.

(** X14. Over the rationals, if [A * v = 0] for some vector [v] that is
    not zero, [solve_linear_system A b] raises the singular-matrix
    [ValueError] for every right-hand side [b] of the right length. *)
Theorem solve_linear_system_kernel (n : nat) (A : matrix Exact)
    (v b : list Qc) :
  has_shape n n A = true -> length b = n -> length v = n ->
  forallb (is_zero Exact) (mat_vec A v) = true ->
  existsb (fun a => negb (is_zero Exact a)) v = true ->
  solve_linear_system A b = Raise (ValueError singular_msg).
Proof.
  intros HA Hb Hv Hker Hnz. apply has_shape_shape in HA.
  apply (solve_linear_system_singular n A b HA Hb).
  exists (fun c => nth c v 0). split.
  - apply existsb_exists in Hnz as (a & Hin & Ha).
    destruct (In_nth v a 0 Hin) as (k & Hk & Hnth).
    exists k. split; [lia|]. rewrite Hnth.
    apply negb_true_iff in Ha. apply is_zero_exact. exact Ha.
  - intros r Hr. rewrite <- (nth_mat_vec n A v r HA Hr).
    rewrite forallb_forall in Hker.
    assert (Hin : In (nth r (mat_vec A v) 0) (mat_vec A v)).
    { apply nth_In. rewrite length_mat_vec, (shape_length n n A HA). exact Hr. }
    specialize (Hker _ Hin). cbn [is_zero Exact] in Hker.
    destruct (Qc_eq_dec (nth r (mat_vec A v) 0) 0); [assumption|discriminate].
Qed.

End SolverContract.

(** * What the flows of dc_power_flow satisfy, over the rationals *)

Section FlowBalance.

Local Open Scope Qc_scope.

(** The parts of a successful call. *)
Lemma dc_power_flow_Ok_inv {K : Arith} (N : Z) (lines : list (line K))
    (injections angles : list (num K)) (flows : list (line K)) :
  dc_power_flow N lines injections = Ok (angles, flows) ->
  Z.of_nat (length injections) = N /\
  exists B x,
    build_b_matrix N lines = Ok B /\
    solve_linear_system (drop_slack B) (drop 1 injections) = Ok x /\
    angles = zero K :: x /\
    collect (line_flow angles) lines = Ok flows.
Proof.
  unfold dc_power_flow. cbv zeta.
  destruct (decide _) as [|Hlen]; [discriminate|].
  destruct (build_b_matrix N lines) as [B|e] eqn:HB; cbn [bind];
    [|discriminate].
  destruct (solve_linear_system (drop_slack B) (drop 1 injections))
    as [x|e] eqn:Hx; cbn [bind]; [|discriminate].
  destruct (collect (line_flow (zero K :: x)) lines) as [fl|e] eqn:Hfl;
    cbn [bind]; [|discriminate].
  intros [= <- <-]. split.
  - destruct (decide (Z.of_nat (length injections) = N)); [assumption|].
    contradiction.
  - exists B, x. repeat split; assumption.
Qed.

(** On valid lines the flow list is the line list with each reactance
    replaced by the flow. *)
Lemma collect_line_flow_valid (N : Z) (lines : list (line Exact))
    (angles : list Qc) :
  valid_lines N lines = true -> length angles = Z.to_nat N ->
  collect (line_flow (K := Exact) angles) lines =
  Ok (map (fun l : line Exact =>
             (l.1.1, l.1.2,
              (nth (Z.to_nat l.1.1) angles 0
               - nth (Z.to_nat l.1.2) angles 0) / l.2)) lines).
Proof.
  intros Hv Hlen. induction lines as [|l lines IH]; [reflexivity|].
  cbn [valid_lines forallb] in Hv. apply andb_true_iff in Hv as [Hl Hv].
  destruct l as [[i j] x]. apply valid_line_inv in Hl as (Hi & Hj & Hx).
  cbn [collect map fst snd]. unfold line_flow at 1. cbn beta iota.
  change (num Exact) with Qc.
  rewrite (getitem_range angles i 0) by lia. cbn [bind].
  rewrite (getitem_range angles j 0) by lia. cbn [bind].
  unfold py_div. rewrite Hx. cbn [bind].
  change (num Exact) with Qc in *. rewrite (IH Hv). reflexivity.
Qed.

Lemma sum_upto_plus (n : nat) (f g : nat -> Qc) :
  sum_upto n (fun c => f c + g c) = sum_upto n f + sum_upto n g.
Proof.
  rewrite (sum_upto_ext _ _ (fun c => 1 * f c + 1 * g c))
    by (intros c _; ring).
  rewrite sum_upto_linear. ring.
Qed.

Lemma net_outflow_cons (f : line Exact) (flows : list (line Exact))
    (k : nat) :
  net_outflow (f :: flows) k =
  (delta k (Z.to_nat f.1.1) - delta k (Z.to_nat f.1.2)) * f.2
  + net_outflow flows k.
Proof. reflexivity. Qed.

(** The row of bus [r] applied to a weight on the buses is the sum, over
    the lines, of the weight differences across the lines at [r]. *)
Lemma delta_sum_weighted (N : Z) (lines : list (line Exact))
    (w : nat -> Qc) (r : nat) :
  valid_lines N lines = true ->
  sum_upto (Z.to_nat N) (fun c => delta_sum lines r c * w c) =
  net_outflow
    (map (fun l : line Exact =>
            (l.1.1, l.1.2,
             (w (Z.to_nat l.1.1) - w (Z.to_nat l.1.2)) / l.2)) lines) r.
Proof.
  intros Hv. induction lines as [|l lines IH].
  - rewrite (sum_upto_ext _ _ (fun _ => 0)) by (intros c _; simpl; ring).
    apply sum_upto_zero.
  - cbn [valid_lines forallb] in Hv. apply andb_true_iff in Hv as [Hl Hv].
    rewrite (sum_upto_ext _ _
      (fun c => line_delta l r c * w c + delta_sum lines r c * w c))
      by (intros c _; rewrite delta_sum_cons; ring).
    rewrite sum_upto_plus, (IH Hv).
    destruct l as [[i j] x].
    apply valid_line_inv in Hl as (Hi & Hj & _).
    rewrite (sum_line_delta (Z.to_nat N)) by lia.
    cbn [map]. rewrite net_outflow_cons. cbn [fst snd]. unfold Qcdiv. ring.
Qed.

(** The net outflow at bus [k] is row [k] of the susceptance matrix
    applied to the angles. *)
Lemma net_outflow_row (N : Z) (lines : list (line Exact))
    (B : matrix Exact) (angles : list Qc) (flows : list (line Exact))
    (k : nat) :
  valid_lines N lines = true -> length angles = Z.to_nat N ->
  build_b_matrix N lines = Ok B ->
  collect (line_flow (K := Exact) angles) lines = Ok flows ->
  net_outflow flows k =
  sum_upto (Z.to_nat N) (fun c => entry B k c * nth c angles 0).
Proof.
  intros Hv Hlen HB Hflows.
  rewrite (collect_line_flow_valid N lines angles Hv Hlen) in Hflows.
  injection Hflows as <-.
  destruct (build_b_matrix_exact N lines Hv) as (B' & HB' & _ & Hent).
  assert (B' = B) as -> by congruence.
  rewrite (sum_upto_ext _ _
    (fun c => delta_sum lines k c * (fun u => nth u angles 0) c))
    by (intros c _; rewrite Hent; reflexivity).
  rewrite (delta_sum_weighted N lines (fun u => nth u angles 0) k Hv).
  reflexivity.
Qed.

Lemma dc_power_flow_rows (N : Z) (lines : list (line Exact))
    (injections angles : list Qc) (flows : list (line Exact)) (k : nat) :
  valid_lines N lines = true ->
  dc_power_flow N lines injections = Ok (angles, flows) ->
  (0 < k < Z.to_nat N)%nat ->
  net_outflow flows k = nth k injections 0.
Proof.
  intros Hv Hrun Hk.
  apply (dc_power_flow_Ok_inv (K := Exact)) in Hrun
    as (Hlen & B & x & HB & Hsolve & -> & Hflows).
  set (n := Z.to_nat N) in *. change (num Exact) with Qc in Hlen.
  destruct (build_b_matrix_exact N lines Hv) as (B' & HB' & Hshape & _).
  assert (B' = B) as -> by congruence. fold n in Hshape.
  assert (Hred : shape (n - 1) (n - 1) (drop_slack B))
    by (apply shape_drop_slack; exact Hshape).
  assert (Hinj : length (drop 1 injections) = (n - 1)%nat)
    by (rewrite length_drop; lia).
  pose proof (post_Ok _ _ _ _ (solve_linear_system_length _ _) Hsolve)
    as Hlenx.
  cbn beta in Hlenx. rewrite (shape_length _ _ _ Hred) in Hlenx.
  change (num Exact) with Qc in Hlenx.
  pose proof (solve_linear_system_sound (n - 1) _ _ x Hred Hinj Hsolve)
    as Hsound.
  rewrite (net_outflow_row N lines B (zero Exact :: x) flows k Hv)
    by (assumption || (cbn [length]; fold n; lia)).
  fold n. replace n with (S (n - 1)) at 1 by lia.
  rewrite sum_upto_first. cbn [nth zero Exact].
  rewrite (sum_upto_ext _ _
    (fun c => entry (drop_slack B) (k - 1) c * nth c x 0)).
  - pose proof (nth_mat_vec (n - 1) _ x (k - 1) Hred ltac:(lia)) as Hmv.
    rewrite Hsound, nth_drop_1 in Hmv.
    replace (S (k - 1)) with k in Hmv by lia.
    change (num Exact) with Qc in *. rewrite <- Hmv. ring.
  - intros c _. rewrite entry_drop_slack.
    replace (S (k - 1)) with k by lia. reflexivity.
Qed.

(** X15. Over the rationals, on valid lines: at every bus other than
    bus 0 the flows that [dc_power_flow] returns balance the injection,
    the flows leaving the bus minus the flows entering it being
    [injections[k]]. *)
Theorem dc_power_flow_balance (N : Z) (lines : list (line Exact))
    (injections angles : list Qc) (flows : list (line Exact)) (k : nat) :
  valid_lines N lines = true ->
  dc_power_flow N lines injections = Ok (angles, flows) ->
  (0 < k < Z.to_nat N)%nat ->
  net_outflow flows k = nth k injections 0.
Proof. exact (dc_power_flow_rows N lines injections angles flows k). Qed.

(** Every line leaves one bus and enters another: the net outflows of
    all the buses sum to zero. *)
Lemma net_outflow_total (n : nat) (flows : list (line Exact)) :
  (forall f, In f flows ->
     (Z.to_nat f.1.1 < n)%nat /\ (Z.to_nat f.1.2 < n)%nat) ->
  sum_upto n (fun k => net_outflow flows k) = 0.
Proof.
  induction flows as [|f flows IH]; intros Hends.
  - apply sum_upto_zero.
  - destruct (Hends f ltac:(left; reflexivity)) as [H1 H2].
    specialize (IH (fun f' Hf' => Hends f' (or_intror Hf'))).
    set (a := Z.to_nat f.1.1) in *. set (b := Z.to_nat f.1.2) in *.
    rewrite (sum_upto_ext _ _
      (fun k => 1 * (f.2 * (delta a k * 1) + (- f.2) * (delta b k * 1))
                + 1 * net_outflow flows k)).
    + rewrite (sum_upto_linear n 1 1
                 (fun k => f.2 * (delta a k * 1) + (- f.2) * (delta b k * 1))
                 (fun k => net_outflow flows k)).
      rewrite IH.
      rewrite (sum_upto_linear n f.2 (- f.2)
                 (fun k => delta a k * 1) (fun k => delta b k * 1)).
      rewrite (sum_upto_delta n a (fun _ => 1)).
      rewrite (sum_upto_delta n b (fun _ => 1)).
      rewrite !decide_True by assumption. ring.
    + intros k _. rewrite net_outflow_cons. fold a b.
      rewrite (delta_sym k a), (delta_sym k b). ring.
Qed.

(** X16. Over the rationals, on valid lines: the slack bus absorbs the
    imbalance.  The net flow leaving bus 0 is minus the sum of the
    injections at the other buses, whatever [injections[0]] is. *)
Theorem dc_power_flow_slack_balance (N : Z) (lines : list (line Exact))
    (injections angles : list Qc) (flows : list (line Exact)) :
  valid_lines N lines = true ->
  dc_power_flow N lines injections = Ok (angles, flows) ->
  (1 <= Z.to_nat N)%nat ->
  net_outflow flows 0 =
  - sum_upto (Z.to_nat N - 1) (fun k => nth (S k) injections 0).
Proof.
  intros Hv Hrun HN.
  set (n := Z.to_nat N) in *.
  assert (Hends : forall f, In f flows ->
            (Z.to_nat f.1.1 < n)%nat /\ (Z.to_nat f.1.2 < n)%nat).
  { pose proof Hrun as Hinv.
    apply (dc_power_flow_Ok_inv (K := Exact)) in Hinv
      as (Hlen & B & x & HB & Hsolve & -> & Hflows).
    change (num Exact) with Qc in Hlen.
    destruct (build_b_matrix_exact N lines Hv) as (B' & HB' & Hshape & _).
    assert (B' = B) as -> by congruence. fold n in Hshape.
    pose proof (post_Ok _ _ _ _ (solve_linear_system_length _ _) Hsolve)
      as Hlenx.
    cbn beta in Hlenx. rewrite length_drop_slack in Hlenx.
    rewrite (shape_length _ _ _ Hshape) in Hlenx.
    change (num Exact) with Qc in Hlenx.
    rewrite (collect_line_flow_valid N lines (zero Exact :: x) Hv)
      in Hflows by (cbn [length]; fold n; lia).
    injection Hflows as <-.
    intros f Hf. apply in_map_iff in Hf as (l & <- & Hl).
    cbn [fst snd].
    unfold valid_lines in Hv. rewrite forallb_forall in Hv.
    specialize (Hv l Hl). destruct l as [[i j] y].
    apply valid_line_inv in Hv as (Hi & Hj & _). cbn [fst snd].
    fold n. lia. }
  pose proof (net_outflow_total n flows Hends) as Htotal.
  replace n with (S (n - 1)) in Htotal at 1 by lia.
  rewrite sum_upto_first in Htotal.
  rewrite (sum_upto_ext _ _ (fun k => nth (S k) injections 0)) in Htotal.
  - assert (Hd : net_outflow flows 0 =
                 (net_outflow flows 0
                  + sum_upto (n - 1) (fun k => nth (S k) injections 0))
                 - sum_upto (n - 1) (fun k => nth (S k) injections 0))
      by ring.
    rewrite Htotal in Hd. rewrite Hd. ring.
  - intros k Hk.
    apply (dc_power_flow_rows N lines injections angles flows (S k) Hv Hrun).
    fold n. lia.
Qed.

End FlowBalance.

(** * Reversed lines, merged line lists, the two-bus network *)

Section Composition.

Local Open Scope Qc_scope.

(** Exchanging the ends of a line negates its flow. *)
Lemma line_flow_flip (angles : list Qc) (l f : line Exact) :
  line_flow (K := Exact) angles l = Ok f ->
  line_flow (K := Exact) angles (flip_line l) = Ok (negate_flow f).
Proof.
  destruct l as [[i j] x]. unfold flip_line, line_flow. cbn [fst snd].
  cbn beta iota. change (num Exact) with Qc.
  destruct (getitem angles i) as [a_i|e]; cbn [bind]; [|discriminate].
  destruct (getitem angles j) as [a_j|e]; cbn [bind]; [|discriminate].
  unfold py_div. destruct (is_zero Exact x); cbn [bind]; [discriminate|].
  intros [= <-]. unfold negate_flow. cbn [fst snd quot sub Exact].
  f_equal. f_equal. unfold Qcdiv. ring.
Qed.

Lemma collect_cons_inv {X Y : Type} (f : X -> result Y) (x : X)
    (xs : list X) (ys : list Y) :
  collect f (x :: xs) = Ok ys ->
  exists y ys', f x = Ok y /\ collect f xs = Ok ys' /\ ys = y :: ys'.
Proof.
  cbn [collect]. destruct (f x) as [y|e]; cbn [bind]; [|discriminate].
  destruct (collect f xs) as [ys'|e]; cbn [bind]; [|discriminate].
  intros [= <-]. exists y, ys'. auto.
Qed.

Lemma collect_line_flow_flip (angles : list Qc) (flips : list bool)
    (lines flows : list (line Exact)) :
  length flips = length lines ->
  collect (line_flow (K := Exact) angles) lines = Ok flows ->
  collect (line_flow (K := Exact) angles) (flip_some flips lines) =
  Ok (negate_some flips flows).
Proof.
  revert lines flows.
  induction flips as [|b flips IH]; intros [|l lines] flows Hlen Hrun;
    try discriminate.
  - cbn [collect] in Hrun. injection Hrun as <-. reflexivity.
  - apply collect_cons_inv in Hrun as (f & fs & Hf & Hfs & ->).
    cbn [flip_some negate_some zip_with collect].
    fold (flip_some flips lines). fold (negate_some flips fs).
    injection Hlen as Hlen'.
    rewrite (IH lines fs Hlen' Hfs).
    destruct b.
    + rewrite (line_flow_flip angles l f Hf). reflexivity.
    + rewrite Hf. reflexivity.
Qed.

(** X17. Over the rationals, on valid lines: entering some of the lines
    with their two ends exchanged gives the same angles, and the same
    flows except that the flow of each such line is negated (and listed
    with its ends exchanged). *)
Theorem dc_power_flow_flip (N : Z) (flips : list bool)
    (lines : list (line Exact)) (injections angles : list Qc)
    (flows : list (line Exact)) :
  valid_lines N lines = true -> length flips = length lines ->
  dc_power_flow N lines injections = Ok (angles, flows) ->
  dc_power_flow N (flip_some flips lines) injections =
  Ok (angles, negate_some flips flows).
Proof.
  intros Hv Hlen Hrun.
  apply (dc_power_flow_Ok_inv (K := Exact)) in Hrun
    as (Hinj & B & x & HB & Hsolve & -> & Hflows).
  unfold dc_power_flow. cbv zeta.
  destruct (decide _) as [Hne|_]; [contradiction|].
  rewrite (build_b_matrix_flip_some N flips lines Hv Hlen), HB. cbn [bind].
  rewrite Hsolve. cbn [bind].
  rewrite (collect_line_flow_flip _ flips lines flows Hlen Hflows).
  reflexivity.
Qed.

Lemma delta_sum_app (l1 l2 : list (line Exact)) (r c : nat) :
  delta_sum (l1 ++ l2) r c = delta_sum l1 r c + delta_sum l2 r c.
Proof.
  induction l1 as [|l l1 IH].
  - cbn [app]. change (delta_sum [] r c) with (0 : Qc). ring.
  - cbn [app]. rewrite !delta_sum_cons, IH. ring.
Qed.

(** X18. Over the rationals, the matrix of two valid line lists put one
    after the other is the entrywise sum of their matrices: parallel
    lines, and networks laid over one another, add up. *)
Theorem build_b_matrix_app (N : Z) (l1 l2 : list (line Exact)) :
  valid_lines N l1 = true -> valid_lines N l2 = true ->
  exists B1 B2 B,
    build_b_matrix N l1 = Ok B1 /\ build_b_matrix N l2 = Ok B2 /\
    build_b_matrix N (l1 ++ l2) = Ok B /\
    forall r c, entry B r c = entry B1 r c + entry B2 r c.
Proof.
  intros H1 H2.
  assert (H12 : valid_lines N (l1 ++ l2) = true).
  { unfold valid_lines in *. rewrite forallb_app, H1, H2. reflexivity. }
  destruct (build_b_matrix_exact N l1 H1) as (B1 & HB1 & _ & Hent1).
  destruct (build_b_matrix_exact N l2 H2) as (B2 & HB2 & _ & Hent2).
  destruct (build_b_matrix_exact N _ H12) as (B & HB & _ & Hent).
  exists B1, B2, B. repeat split; try assumption.
  intros r c. rewrite Hent, Hent1, Hent2. apply delta_sum_app.
Qed.

(** X10. Over the rationals, the network of two buses joined by one
    line of non-zero reactance [x], in closed form: the slack injection
    [p0] is not read; when [|1 / x|] is below the threshold of the
    pivot test (the double [1e-12], [4951760157141521 * 2^-92]) the call
    raises the singular-matrix error although the network is
    connected; otherwise the angle of bus 1 is [p1 * x] and the flow
    from the slack bus to bus 1 is [- p1]. *)
Theorem dc_power_flow_two_bus (x p0 p1 : Qc) :
  is_zero Exact x = false ->
  dc_power_flow (K := Exact) 2 ((0%Z, 1%Z, x) :: nil) (p0 :: p1 :: nil) =
  if Qc_ltb (Qcabs (1 / x)) Qc_eps
  then Raise (ValueError singular_msg)
  else Ok (0 :: p1 * x :: nil, (0%Z, 1%Z, - p1) :: nil).
Proof.
  intros Hx. unfold dc_power_flow, build_b_matrix. cbn [length Z.of_nat].
  destruct (decide _) as [H|_]; [exfalso; apply H; reflexivity|].
  cbn [for_each add_line]. unfold py_div. rewrite Hx. cbn [bind].
  cbv -[Qcplus Qcminus Qcmult Qcdiv Qcabs Qc_ltb Qc_eq_dec Qcinv Qc_eps
        Qcopp Q2Qc].
  change (Q2Qc 0) with 0. rewrite !Qcplus_0_l.
  destruct (Qc_ltb _ _) eqn:Hlt; [reflexivity|].
  destruct (Qc_eq_dec (1 / x) 0) as [E|NE].
  { exfalso. rewrite E in Hlt. vm_compute in Hlt. discriminate. }
  cbv beta iota.
  assert (Hx0 : x <> 0) by (intros ->; vm_compute in Hx; discriminate).
  destruct (Qc_eq_dec x (Q2Qc 0)) as [E|_]; [contradiction|].
  change (Q2Qc 0) with 0.
  replace (p1 / (1 / x)) with (p1 * x)
    by (field; split; [exact Hx0 | apply Q_apart_0_1 || idtac]).
  replace ((0 - p1 * x) / x) with (- p1) by (field; exact Hx0).
  reflexivity.
Qed.

End Composition.

(** * Runs compared: other right-hand sides, superposition *)

Section RhsIndependence.

Context {K : Arith}.

Local Abbreviation F := (num K).

Lemma max_from_agree (key key' : nat -> result F) (rs : list nat)
    (best : nat) (k : F) :
  (forall r, r ∈ rs -> key r = key' r) ->
  max_from key rs best k = max_from key' rs best k.
Proof.
  revert best k. induction rs as [|r rs IH]; intros best k H; [reflexivity|].
  cbn [max_from]. rewrite <- (H r) by left.
  destruct (key r) as [v|e]; cbn [bind]; [|reflexivity].
  destruct (ltb K k v); apply IH; intros r' Hr'; apply H; right; exact Hr'.
Qed.

Lemma max_from_total (key : nat -> result F) (rs : list nat)
    (best : nat) (k : F) :
  (forall r, r ∈ rs -> exists v, key r = Ok v) ->
  exists p, max_from key rs best k = Ok p /\ (p = best \/ p ∈ rs).
Proof.
  revert best k. induction rs as [|r rs IH]; intros best k H.
  - exists best. split; [reflexivity | left; reflexivity].
  - cbn [max_from]. destruct (H r) as [v Hv]; [left|]. rewrite Hv. cbn [bind].
    assert (H' : forall r', r' ∈ rs -> exists v, key r' = Ok v)
      by (intros r' Hr'; apply H; right; exact Hr').
    destruct (ltb K k v).
    + destruct (IH r v H') as (p & Hp & Hin). exists p. split; [exact Hp|].
      right. destruct Hin as [->|Hin]; [left | right; exact Hin].
    + destruct (IH best k H') as (p & Hp & Hin). exists p. split; [exact Hp|].
      destruct Hin as [->|Hin]; [left; reflexivity | right; right; exact Hin].
Qed.

(** The pivot search reads column [i] only. *)
Lemma pivot_search_agree (n i : nat) (M M' : matrix K) :
  shape n (n + 1) M -> shape n (n + 1) M' -> i < n -> same_left n M M' ->
  exists p, i <= p < n /\
    py_max (pivot_key M i) (seq i (n - i)) = Ok p /\
    py_max (pivot_key M' i) (seq i (n - i)) = Ok p.
Proof.
  intros HM HM' Hi Hsame.
  assert (Hkey : forall r, r < n ->
            pivot_key M i r = Ok (absv K (entry M r i)) /\
            pivot_key M' i r = Ok (absv K (entry M r i))).
  { intros r Hr. split.
    - apply (pivot_key_eq n (n + 1)); assumption || lia.
    - rewrite (Hsame r i) by lia.
      apply (pivot_key_eq n (n + 1)); assumption || lia. }
  replace (n - i) with (S (n - i - 1)) by lia. cbn [seq py_max].
  destruct (Hkey i Hi) as [-> ->]. cbn [bind].
  destruct (max_from_total (pivot_key M i) (seq (S i) (n - i - 1)) i
              (absv K (entry M i i))) as (p & Hp & Hin).
  { intros r Hr. apply elem_of_seq in Hr. eexists. apply Hkey. lia. }
  exists p. split.
  { destruct Hin as [->|Hin]; [lia|]. apply elem_of_seq in Hin. lia. }
  split; [exact Hp|]. rewrite <- Hp. symmetry. apply max_from_agree.
  intros r Hr. apply elem_of_seq in Hr.
  destruct (Hkey r) as [-> ->]; [lia|reflexivity].
Qed.

(** Dividing the pivot row by a zero pivot raises at its first entry. *)
Lemma normalize_zero (n i : nat) (pivot : F) (M : matrix K) :
  shape n (n + 1) M -> i < n -> is_zero K pivot = true ->
  normalize n i pivot M = Raise ZeroDivisionError.
Proof.
  intros HM Hi Hz. unfold normalize.
  replace (n + 1 - i) with (S (n - i)) by lia. cbn [seq for_each].
  unfold aug_at. rewrite (item_row n (n + 1)) by assumption. cbn [bind].
  rewrite (item_entry n (n + 1)) by (assumption || lia). cbn [bind].
  unfold py_div. rewrite Hz. reflexivity.
Qed.

(** Two working matrices that agree left of the last column take the
    pivot step alike: both raise the same exception, or both return, and
    the results agree left of the last column. *)
Lemma pivot_step_agree (n i : nat) (M M' : matrix K) :
  shape n (n + 1) M -> shape n (n + 1) M' -> i < n -> same_left n M M' ->
  (exists e, pivot_step n i M = Raise e /\ pivot_step n i M' = Raise e) \/
  (exists M1 M1', pivot_step n i M = Ok M1 /\ pivot_step n i M' = Ok M1' /\
     shape n (n + 1) M1 /\ shape n (n + 1) M1' /\ same_left n M1 M1').
Proof.
  intros HM HM' Hi Hsame.
  destruct (pivot_search_agree n i M M' HM HM' Hi Hsame)
    as (p & Hp & Hmax & Hmax').
  unfold pivot_step. rewrite Hmax, Hmax'. cbn [bind].
  destruct (swap_rows_entries n (n + 1) M i p HM) as (S1 & -> & HS1 & Hent1);
    [lia..|].
  destruct (swap_rows_entries n (n + 1) M' i p HM')
    as (S1' & -> & HS1' & Hent1'); [lia..|].
  cbn [bind]. rewrite !(item_row n (n + 1)) by assumption. cbn [bind].
  rewrite !(item_entry n (n + 1)) by (assumption || lia). cbn [bind].
  assert (Hswap : forall r, r < n -> swap_idx i p r < n).
  { intros r Hr. unfold swap_idx. repeat destruct (decide _); lia. }
  assert (Hsame1 : same_left n S1 S1').
  { intros r c Hr Hc. rewrite Hent1, Hent1'. apply Hsame; auto. }
  rewrite <- (Hsame1 i i) by lia.
  destruct (ltb K (absv K (entry S1 i i)) (eps K)).
  { left. eexists. split; reflexivity. }
  destruct (is_zero K (entry S1 i i)) eqn:Hz.
  { left. exists ZeroDivisionError.
    rewrite !normalize_zero by assumption. split; reflexivity. }
  destruct (normalize_entries n i (entry S1 i i) S1 HS1 Hi Hz)
    as (S2 & -> & HS2 & Hent2).
  destruct (normalize_entries n i (entry S1 i i) S1' HS1' Hi Hz)
    as (S2' & -> & HS2' & Hent2').
  cbn [bind].
  destruct (eliminate_entries n i S2 HS2 Hi) as (S3 & -> & HS3 & Hent3).
  destruct (eliminate_entries n i S2' HS2' Hi) as (S3' & -> & HS3' & Hent3').
  right. exists S3, S3'.
  split; [reflexivity|]. split; [reflexivity|].
  split; [exact HS3|]. split; [exact HS3'|].
  intros r c Hr Hc. rewrite Hent3, Hent3', !Hent2, !Hent2'.
  rewrite !(Hsame1 _ _) by lia. reflexivity.
Qed.

Lemma pivot_steps_agree (n k : nat) (M M' : matrix K) :
  shape n (n + 1) M -> shape n (n + 1) M' -> k <= n -> same_left n M M' ->
  (exists e, pivot_steps n k M = Raise e /\ pivot_steps n k M' = Raise e) \/
  (exists M1 M1', pivot_steps n k M = Ok M1 /\ pivot_steps n k M' = Ok M1' /\
     shape n (n + 1) M1 /\ shape n (n + 1) M1' /\ same_left n M1 M1').
Proof.
  intros HM HM' Hk Hsame. induction k as [|k IH].
  - right. exists M, M'. auto.
  - unfold pivot_steps. rewrite seq_S, !for_each_app. cbn [Nat.add].
    change (for_each (seq 0 k) (pivot_step n)) with (pivot_steps (K := K) n k).
    destruct IH as [(e & -> & ->)|(M1 & M1' & -> & -> & H1 & H1' & Hs)];
      [lia| |].
    + left. exists e. split; reflexivity.
    + cbn [bind for_each].
      destruct (pivot_step_agree n k M1 M1' H1 H1' ltac:(lia) Hs)
        as [(e & -> & ->)|(M2 & M2' & -> & -> & H2 & H2' & Hs2)].
      * left. exists e. split; reflexivity.
      * right. exists M2, M2'. auto.
Qed.

Lemma same_left_augment (n : nat) (A : matrix K) (b b' : list F) :
  shape n n A -> length b = n -> length b' = n ->
  same_left n (augment A b) (augment A b').
Proof.
  intros HA Hb Hb' r c Hr Hc.
  rewrite (entry_augment n A b) by assumption.
  rewrite (entry_augment n A b') by assumption.
  destruct (decide (c < n)); [reflexivity | contradiction].
Qed.

Lemma solve_linear_system_rhs (n : nat) (A : matrix K) (b b' : list F) :
  shape n n A -> length b = n -> length b' = n ->
  (exists e, solve_linear_system A b = Raise e /\
             solve_linear_system A b' = Raise e) \/
  (exists x x', solve_linear_system A b = Ok x /\
                solve_linear_system A b' = Ok x').
Proof.
  intros HA Hb Hb'. unfold solve_linear_system.
  rewrite (shape_length n n A HA).
  destruct (pivot_steps_agree n n (augment A b) (augment A b'))
    as [(e & -> & ->)|(M1 & M1' & -> & -> & H1 & H1' & _)].
  - apply shape_augment; assumption.
  - apply shape_augment; assumption.
  - lia.
  - apply same_left_augment; assumption.
  - left. exists e. split; reflexivity.
  - right. cbn [bind]. rewrite !read_solution_eq by assumption.
    eexists. eexists. split; reflexivity.
Qed.

Lemma same_outcome_bind {A A' B B' : Type} (m : result A) (m' : result A')
    (k : A -> result B) (k' : A' -> result B') :
  same_outcome m m' ->
  (forall a a', m = Ok a -> m' = Ok a' -> same_outcome (k a) (k' a')) ->
  same_outcome (bind m k) (bind m' k').
Proof.
  destruct m as [a|e], m' as [a'|e']; cbn [same_outcome bind]; auto;
    intros [].
Qed.

(** X19. In every arithmetic, binary64 included, whether a square
    system is solved or rejected does not depend on the right-hand
    side: for two right-hand sides of the right length,
    [solve_linear_system] returns for both or raises the same exception
    for both. *)
Theorem solve_linear_system_rhs_independent (n : nat) (A : matrix K)
    (b b' : list F) :
  has_shape n n A = true -> length b = n -> length b' = n ->
  same_outcome (solve_linear_system A b) (solve_linear_system A b').
Proof.
  intros HA Hb Hb'. apply has_shape_shape in HA.
  destruct (solve_linear_system_rhs n A b b' HA Hb Hb')
    as [(e & -> & ->)|(x & x' & -> & ->)]; reflexivity.
Qed.

Lemma build_b_matrix_shape (N : Z) (lines : list (line K)) (B : matrix K) :
  build_b_matrix N lines = Ok B -> shape (Z.to_nat N) (Z.to_nat N) B.
Proof.
  intros HB.
  pose proof (post_for_each
    (fun _ (B : matrix K) => shape (Z.to_nat N) (Z.to_nat N) B)
    anything add_line lines (zeros (Z.to_nat N)) (shape_zeros _)) as H.
  unfold build_b_matrix in HB. rewrite HB in H. apply H.
  intros done l rest B' _ HB'.
  eapply post_mono; [apply add_line_outcome; exact HB' | auto | ].
  intros e _. exact I.
Qed.

Lemma getitem_agree {A : Type} (l l' : list A) (i : Z) :
  length l = length l' -> same_outcome (getitem l i) (getitem l' i).
Proof.
  intros Hlen. unfold getitem. rewrite <- Hlen.
  pose proof (post_norm_index (length l) i) as Hk.
  destruct (norm_index (length l) i) as [k|e]; cbn [post bind] in *;
    [|reflexivity].
  unfold item.
  destruct (lookup_lt_is_Some_2 l k Hk) as [a ->].
  destruct (lookup_lt_is_Some_2 l' k ltac:(lia)) as [a' ->].
  exact I.
Qed.

(** Whether a flow is computed depends on the number of angles and on
    the line, not on the angles. *)
Lemma line_flow_agree (angles angles' : list F) (l : line K) :
  length angles = length angles' ->
  same_outcome (line_flow angles l) (line_flow angles' l).
Proof.
  intros Hlen. destruct l as [[i j] x]. unfold line_flow.
  apply same_outcome_bind; [apply getitem_agree, Hlen|]. intros a a' _ _.
  apply same_outcome_bind; [apply getitem_agree, Hlen|]. intros c c' _ _.
  unfold py_div. destruct (is_zero K x); reflexivity.
Qed.

Lemma collect_agree {X Y Y' : Type} (f : X -> result Y) (g : X -> result Y')
    (xs : list X) :
  (forall x, same_outcome (f x) (g x)) ->
  same_outcome (collect f xs) (collect g xs).
Proof.
  intros H. induction xs as [|x xs IH]; [exact I|].
  cbn [collect]. apply same_outcome_bind; [apply H|]. intros y y' _ _.
  apply same_outcome_bind; [exact IH|]. intros ys ys' _ _. exact I.
Qed.

(** X20. In every arithmetic, binary64 included, whether
    [dc_power_flow] returns, and the exception it raises otherwise, do
    not depend on the values of the injections, only on how many there
    are. *)
Theorem dc_power_flow_injection_independent (N : Z) (lines : list (line K))
    (p q : list F) :
  length p = length q ->
  same_outcome (dc_power_flow N lines p) (dc_power_flow N lines q).
Proof.
  intros Hlen. unfold dc_power_flow. cbv zeta. rewrite <- Hlen.
  destruct (decide (Z.of_nat (length p) <> N)) as [|HN]; [reflexivity|].
  destruct (build_b_matrix N lines) as [B|e] eqn:HB; cbn [bind];
    [|reflexivity].
  apply build_b_matrix_shape in HB.
  apply same_outcome_bind.
  - destruct (solve_linear_system_rhs (Z.to_nat N - 1) (drop_slack B)
                (drop 1 p) (drop 1 q))
      as [(e & -> & ->)|(x & x' & -> & ->)]; try reflexivity.
    + apply shape_drop_slack. exact HB.
    + rewrite length_drop. lia.
    + rewrite length_drop. lia.
  - intros x x' Hx Hx'.
    apply same_outcome_bind; [|intros; exact I].
    apply collect_agree. intros l. apply line_flow_agree.
    cbn [length]. f_equal.
    pose proof (post_Ok _ _ _ _ (solve_linear_system_length _ _) Hx) as H1.
    pose proof (post_Ok _ _ _ _ (solve_linear_system_length _ _) Hx') as H2.
    congruence.
Qed.

End RhsIndependence.

Section Superposition.

Local Open Scope Qc_scope.

Variables a b : Qc.

Lemma length_combine (u v : list Qc) :
  length u = length v -> length (combine a b u v) = length u.
Proof. intros H. unfold combine. rewrite length_zip_with. lia. Qed.

Lemma nth_combine (u v : list Qc) (k : nat) :
  length u = length v ->
  nth k (combine a b u v) 0 = a * nth k u 0 + b * nth k v 0.
Proof.
  intros Hlen. unfold combine. rewrite !nth_lookup, lookup_zip_with.
  destruct (u !! k) as [p|] eqn:Hu; cbn.
  - destruct (lookup_lt_is_Some_2 v k) as [q ->].
    { apply lookup_lt_Some in Hu. lia. }
    reflexivity.
  - apply lookup_ge_None in Hu.
    rewrite (proj2 (lookup_ge_None v k)) by lia. cbn. ring.
Qed.

Lemma solve_linear_system_combine (n : nat) (A : matrix Exact)
    (u v x y : list Qc) :
  shape n n A -> length u = n -> length v = n ->
  solve_linear_system A u = Ok x -> solve_linear_system A v = Ok y ->
  solve_linear_system A (combine a b u v) = Ok (combine a b x y).
Proof.
  intros HA Hu Hv Hx Hy.
  assert (Hlx : length x = n).
  { rewrite <- (shape_length n n A HA).
    exact (post_Ok _ _ _ _ (solve_linear_system_length A u) Hx). }
  assert (Hly : length y = n).
  { rewrite <- (shape_length n n A HA).
    exact (post_Ok _ _ _ _ (solve_linear_system_length A v) Hy). }
  assert (Huv : length (combine a b u v) = n)
    by (rewrite length_combine; congruence).
  destruct (solve_linear_system_rhs (K := Exact) n A u (combine a b u v)
              HA Hu Huv) as [(e & He & _)|(x0 & z & _ & Hz)]; [congruence|].
  rewrite Hz. f_equal. symmetry.
  apply (solve_linear_system_unique n A (combine a b u v) z _ HA Huv);
    [rewrite length_combine; congruence | exact Hz |].
  pose proof (solve_linear_system_sound n A u x HA Hu Hx) as Hsx.
  pose proof (solve_linear_system_sound n A v y HA Hv Hy) as Hsy.
  apply (mat_vec_ext n); [exact HA | exact Huv |].
  intros r Hr. rewrite nth_combine by congruence.
  rewrite <- Hsx at 1. rewrite <- Hsy at 1.
  rewrite !(nth_mat_vec n) by assumption.
  rewrite <- sum_upto_linear. apply sum_upto_ext.
  intros c _. rewrite nth_combine by congruence.
  over_Qc. ring.
Qed.

(** X21. Over the rationals the solution is linear in the right-hand
    side: when a square system is solved for [u] and for [v], it is
    solved for [a * u + b * v], by the same combination of the two
    solutions. *)
Theorem solve_linear_system_linear (n : nat) (A : matrix Exact)
    (u v x y : list Qc) :
  has_shape n n A = true -> length u = n -> length v = n ->
  solve_linear_system A u = Ok x -> solve_linear_system A v = Ok y ->
  solve_linear_system A (combine a b u v) = Ok (combine a b x y).
Proof.
  intros HA. apply has_shape_shape in HA.
  exact (solve_linear_system_combine n A u v x y HA).
Qed.

Lemma getitem_combine (u v : list Qc) (i : Z) (p q : Qc) :
  length u = length v -> getitem u i = Ok p -> getitem v i = Ok q ->
  getitem (combine a b u v) i = Ok (a * p + b * q).
Proof.
  intros Hlen. unfold getitem. rewrite length_combine by exact Hlen.
  rewrite <- Hlen.
  destruct (norm_index (length u) i) as [k|e]; cbn [bind]; [|discriminate].
  unfold item, combine. rewrite lookup_zip_with.
  destruct (u !! k) as [p'|]; [|discriminate].
  destruct (v !! k) as [q'|]; [|discriminate].
  intros [= ->] [= ->]. reflexivity.
Qed.

Lemma line_flow_combine (u v : list Qc) (l f g : line Exact) :
  length u = length v ->
  line_flow (K := Exact) u l = Ok f -> line_flow (K := Exact) v l = Ok g ->
  line_flow (K := Exact) (combine a b u v) l =
  Ok (f.1.1, f.1.2, a * f.2 + b * g.2).
Proof.
  intros Hlen. destruct l as [[i j] x]. unfold line_flow.
  cbn beta iota. change (num Exact) with Qc.
  destruct (getitem u i) as [ui|e] eqn:Hui; cbn [bind]; [|discriminate].
  destruct (getitem u j) as [uj|e] eqn:Huj; cbn [bind]; [|discriminate].
  destruct (getitem v i) as [vi|e] eqn:Hvi; cbn [bind]; [|discriminate].
  destruct (getitem v j) as [vj|e] eqn:Hvj; cbn [bind]; [|discriminate].
  rewrite (getitem_combine u v i ui vi Hlen Hui Hvi),
          (getitem_combine u v j uj vj Hlen Huj Hvj). cbn [bind].
  unfold py_div. destruct (is_zero Exact x); cbn [bind]; [discriminate|].
  intros [= <-] [= <-]. cbn [fst snd quot sub Exact].
  f_equal. f_equal. unfold Qcdiv. ring.
Qed.

Lemma collect_line_flow_combine (u v : list Qc) (lines : list (line Exact))
    (f g : list (line Exact)) :
  length u = length v ->
  collect (line_flow (K := Exact) u) lines = Ok f ->
  collect (line_flow (K := Exact) v) lines = Ok g ->
  collect (line_flow (K := Exact) (combine a b u v)) lines =
  Ok (combine_flows a b f g).
Proof.
  intros Hlen. revert f g.
  induction lines as [|l lines IH]; intros f g Hf Hg.
  - cbn [collect] in *. injection Hf as <-. injection Hg as <-. reflexivity.
  - apply collect_cons_inv in Hf as (f1 & fs & Hf1 & Hfs & ->).
    apply collect_cons_inv in Hg as (g1 & gs & Hg1 & Hgs & ->).
    cbn [collect].
    rewrite (line_flow_combine u v l f1 g1 Hlen Hf1 Hg1). cbn [bind].
    rewrite (IH fs gs Hfs Hgs). reflexivity.
Qed.

(** X22. Superposition, over the rationals: when [dc_power_flow]
    returns for the injections [p] and for the injections [q], it
    returns for [a * p + b * q], and the angles and the flows are the
    same combination of the angles and of the flows of the two runs. *)
Theorem dc_power_flow_superposition (N : Z) (lines : list (line Exact))
    (p q angles angles' : list Qc) (flows flows' : list (line Exact)) :
  dc_power_flow N lines p = Ok (angles, flows) ->
  dc_power_flow N lines q = Ok (angles', flows') ->
  dc_power_flow N lines (combine a b p q) =
  Ok (combine a b angles angles', combine_flows a b flows flows').
Proof.
  intros Hp Hq.
  apply (dc_power_flow_Ok_inv (K := Exact)) in Hp
    as (Hlp & B & x & HB & Hx & -> & Hf).
  apply (dc_power_flow_Ok_inv (K := Exact)) in Hq
    as (Hlq & B' & y & HB' & Hy & -> & Hg).
  rewrite HB in HB'. injection HB' as <-.
  pose proof (build_b_matrix_shape (K := Exact) N lines B HB) as HBs.
  apply shape_drop_slack in HBs.
  change (num Exact) with Qc in Hlp, Hlq.
  assert (Hpq : length p = length q) by lia.
  unfold dc_power_flow. cbv zeta. change (num Exact) with Qc.
  rewrite length_combine by exact Hpq.
  destruct (decide _) as [Hne|_]; [contradiction|].
  rewrite HB. cbn [bind].
  assert (Hdrop : drop 1 (combine a b p q) =
                  combine a b (drop 1 p) (drop 1 q)).
  { unfold combine. destruct p as [|p0 p'], q as [|q0 q'];
      try discriminate; reflexivity. }
  rewrite Hdrop.
  rewrite (solve_linear_system_combine (Z.to_nat N - 1)
             (drop_slack (K := Exact) B)
             (drop 1 p) (drop 1 q) x y HBs) by
    (try rewrite length_drop; try assumption; lia).
  cbn [bind].
  assert (Hxy : length x = length y).
  { pose proof (post_Ok _ _ _ _ (solve_linear_system_length _ _) Hx) as H1.
    pose proof (post_Ok _ _ _ _ (solve_linear_system_length _ _) Hy) as H2.
    congruence. }
  assert (Hangles : zero Exact :: combine a b x y =
                    combine a b (zero Exact :: x) (zero Exact :: y)).
  { unfold combine. cbn [zip_with zero Exact]. f_equal.
    change (@eq (num Exact)) with (@eq Qc). ring. }
  change (num Exact) with Qc in *. rewrite Hangles.
  assert (Hlen : length (zero Exact :: x) = length (zero Exact :: y))
    by (cbn [length]; f_equal; exact Hxy).
  pose proof (collect_line_flow_combine (zero Exact :: x) (zero Exact :: y)
                lines flows flows' Hlen Hf Hg) as Hc.
  etransitivity; [apply bind_Ok; exact Hc | reflexivity].
Qed.

End Superposition.

(** * The pivot test where [<] is an order *)

Section FloatOrder.

Lemma SFltb_nan_l (y : spec_float) : SFltb S754_nan y = false.
Proof. reflexivity. Qed.

Lemma SFltb_nan_r (x : spec_float) : SFltb x S754_nan = false.
Proof. destruct x; reflexivity. Qed.

Lemma SFltb_rank (x y : spec_float) :
  x <> S754_nan -> y <> S754_nan ->
  (SFltb x y = true <-> rank_lt (rank x) (rank y)).
Proof.
  intros Hx Hy. unfold SFltb, rank_lt.
  destruct x as [sx|sx| |sx mx ex], y as [sy|sy| |sy my ey];
    try congruence; cbn [SFcompare rank fst snd];
    try (destruct sx); try (destruct sy); cbn [fst snd];
    try (split; [discriminate | lia]);
    try (split; [intros _; lia | reflexivity]).
  - change (PosDef.Pos.compare_cont Eq mx my) with (Pos.compare mx my).
    destruct (Z.compare_spec ex ey), (Pos.compare_spec mx my);
      cbn [CompOpp]; split; try discriminate; try reflexivity; lia.
  - change (PosDef.Pos.compare_cont Eq mx my) with (Pos.compare mx my).
    destruct (Z.compare_spec ex ey), (Pos.compare_spec mx my);
      split; try discriminate; try reflexivity; lia.
Qed.

Lemma Prim2SF_not_nan (v : float) :
  not_nan v = true -> Prim2SF v <> S754_nan.
Proof.
  unfold not_nan, is_nan. rewrite FloatAxioms.eqb_spec. intros H E. rewrite E in H.
  discriminate.
Qed.

Lemma ltb_not_nan (a b : float) :
  (a <? b)%float = true ->
  Prim2SF a <> S754_nan /\ Prim2SF b <> S754_nan.
Proof.
  rewrite FloatAxioms.ltb_spec. intros H. split; intros E; rewrite E in H.
  - discriminate.
  - rewrite SFltb_nan_r in H. discriminate.
Qed.

(** [<] on the doubles is transitive. *)
Lemma float_ltb_trans (a b c : float) :
  (a <? b)%float = true -> (b <? c)%float = true -> (a <? c)%float = true.
Proof.
  intros Hab Hbc.
  destruct (ltb_not_nan a b Hab) as [Ha Hb].
  destruct (ltb_not_nan b c Hbc) as [_ Hc].
  rewrite FloatAxioms.ltb_spec in *.
  apply SFltb_rank in Hab; [|assumption..].
  apply SFltb_rank in Hbc; [|assumption..].
  apply SFltb_rank; [assumption..|].
  unfold rank_lt in *. lia.
Qed.

(** A double that is not NaN and that [a] is not below is below whatever
    [a] is below. *)
Lemma float_ltb_total (a b c : float) :
  not_nan b = true ->
  (a <? b)%float = false -> (a <? c)%float = true -> (b <? c)%float = true.
Proof.
  intros Hb Hab Hac. apply Prim2SF_not_nan in Hb.
  destruct (ltb_not_nan a c Hac) as [Ha Hc].
  rewrite FloatAxioms.ltb_spec in *.
  apply SFltb_rank in Hac; [|assumption..].
  apply SFltb_rank; [assumption..|].
  assert (Hn : ~ rank_lt (rank (Prim2SF a)) (rank (Prim2SF b))).
  { intros H. apply SFltb_rank in H; [|assumption..]. congruence. }
  unfold rank_lt in *. lia.
Qed.

(** [<] orders the doubles that are not NaN. *)
Lemma float_ordered : ordered_on (K := Float64) not_nan.
Proof.
  split.
  - exact float_ltb_trans.
  - exact float_ltb_total.
Qed.

(** [<] orders the rationals. *)
Lemma exact_ordered : ordered_on (K := Exact) (fun _ => true).
Proof.
  split.
  - intros a b c Hab Hbc. apply Qc_ltb_lt in Hab, Hbc. apply Qc_ltb_lt.
    exact (Qclt_trans _ _ _ Hab Hbc).
  - intros a b c _ Hab Hac. apply Qc_ltb_ge in Hab. apply Qc_ltb_lt in Hac.
    apply Qc_ltb_lt. exact (Qcle_lt_trans _ _ _ Hab Hac).
Qed.

(** The threshold of the two instances is the same number: the double
    that the literal [1e-12] denotes. *)
Lemma eps_is_the_double :
  Prim2SF (eps Float64) = S754_finite false 4951760157141521 (-92) /\
  this (eps Exact) = (4951760157141521 # 2 ^ 92)%Q.
Proof. split; vm_compute; reflexivity. Qed.

(** A pivot equal to the threshold passes the test, in both instances. *)
Lemma threshold_pivot_passes :
  solve_linear_system (K := Float64) [[1e-12%float]] [1%float] =
    Ok [1000000000000%float] /\
  exists x, solve_linear_system (K := Exact) [[Qc_eps]] [1%Qc] = Ok x.
Proof.
  split; [vm_compute; reflexivity|].
  destruct (solve_linear_system (K := Exact) [[Qc_eps]] [1%Qc]) as [x|e] eqn:E.
  - exists x. reflexivity.
  - exfalso. vm_compute in E. discriminate.
Qed.

End FloatOrder.

Section SingularTest.

Context {K : Arith}.

Local Abbreviation F := (num K).

Variable ok : F -> bool.

(** The key that [max] selects is below a bound exactly when every key
    is. *)
Lemma max_from_small (g : nat -> F) (key : nat -> result F)
    (rs : list nat) (best p : nat) (c : F) :
  ordered_on ok ->
  (forall r, r ∈ rs -> key r = Ok (g r)) ->
  (forall r, r ∈ rs -> ok (g r) = true) ->
  max_from key rs best (g best) = Ok p ->
  ltb K (g p) c = true <->
  ltb K (g best) c = true /\ forall r, r ∈ rs -> ltb K (g r) c = true.
Proof.
  intros [ltb_trans ltb_total].
  revert best. induction rs as [|r rs IH]; intros best Hkey Hok Hmax.
  - cbn [max_from] in Hmax. injection Hmax as <-. split; [|tauto].
    intros H. split; [exact H|]. intros r Hr. inversion Hr.
  - cbn [max_from] in Hmax. rewrite (Hkey r) in Hmax by left.
    cbn [bind] in Hmax.
    assert (Hkey' : forall r', r' ∈ rs -> key r' = Ok (g r'))
      by (intros r' Hr'; apply Hkey; right; exact Hr').
    assert (Hok' : forall r', r' ∈ rs -> ok (g r') = true)
      by (intros r' Hr'; apply Hok; right; exact Hr').
    destruct (ltb K (g best) (g r)) eqn:Hlt.
    + rewrite (IH r Hkey' Hok' Hmax). split.
      * intros [Hr Hrest]. split; [exact (ltb_trans _ _ _ Hlt Hr)|].
        intros r' Hr'. apply elem_of_cons in Hr' as [->|Hr']; auto.
      * intros [_ Hall]. split; [apply Hall; left|].
        intros r' Hr'. apply Hall. right. exact Hr'.
    + rewrite (IH best Hkey' Hok' Hmax). split.
      * intros [Hb Hrest]. split; [exact Hb|].
        intros r' Hr'. apply elem_of_cons in Hr' as [->|Hr']; auto.
        apply (ltb_total (g best)); [apply Hok; left | exact Hlt | exact Hb].
      * intros [Hb Hall]. split; [exact Hb|].
        intros r' Hr'. apply Hall. right. exact Hr'.
Qed.

Lemma all_below_spec (M : matrix K) (i n : nat) :
  all_below M i n = true <->
  forall r, i <= r < n -> ltb K (absv K (entry M r i)) (eps K) = true.
Proof.
  unfold all_below, candidates. rewrite forallb_forall. split.
  - intros H r Hr. apply H. apply in_map_iff. exists r. split; [reflexivity|].
    apply in_seq. lia.
  - intros H v Hv. apply in_map_iff in Hv as (r & <- & Hr).
    apply in_seq in Hr. apply H. lia.
Qed.

(** One pivot step raises the singular-matrix exception exactly when all
    candidates of its column are below the threshold. *)
Lemma pivot_step_singular (n i : nat) (M : matrix K) :
  ordered_on ok -> shape n (n + 1) M -> i < n ->
  forallb (fun v => ok (absv K v)) (candidates M i n) = true ->
  (pivot_step n i M = Raise (ValueError singular_msg) <->
   all_below M i n = true) /\
  (pivot_step n i M = Raise (ValueError singular_msg) \/
   pivot_step n i M = Raise ZeroDivisionError \/
   exists M', pivot_step n i M = Ok M' /\ shape n (n + 1) M').
Proof.
  intros Hord HM Hi Hok.
  assert (Hok' : forall r, i <= r < n -> ok (absv K (entry M r i)) = true).
  { intros r Hr. rewrite forallb_forall in Hok. apply Hok.
    apply in_map_iff. exists r. split; [reflexivity|]. apply in_seq. lia. }
  assert (Hkey : forall r, r < n ->
            pivot_key M i r = Ok (absv K (entry M r i)))
    by (intros r Hr; apply (pivot_key_eq n (n + 1)); assumption || lia).
  destruct (pivot_search_agree n i M M HM HM Hi) as (p & Hp & Hmax & _).
  { intros r c _ _. reflexivity. }
  assert (Hsel : ltb K (absv K (entry M p i)) (eps K) = true <->
                 all_below M i n = true).
  { rewrite all_below_spec.
    revert Hmax. replace (n - i) with (S (n - i - 1)) by lia.
    cbn [seq py_max]. rewrite (Hkey i Hi). cbn [bind]. intros Hmax.
    assert (H1 : forall r, r ∈ seq (S i) (n - i - 1) ->
              pivot_key M i r = Ok (absv K (entry M r i)))
      by (intros r Hr; apply elem_of_seq in Hr; apply Hkey; lia).
    assert (H2 : forall r, r ∈ seq (S i) (n - i - 1) ->
              ok (absv K (entry M r i)) = true)
      by (intros r Hr; apply elem_of_seq in Hr; apply Hok'; lia).
    rewrite (max_from_small (fun r => absv K (entry M r i)) _ _ i p (eps K)
               Hord H1 H2 Hmax).
    split.
    - intros [Hb Hall] r Hr. destruct (decide (r = i)) as [->|Hne];
        [exact Hb|]. apply Hall. apply elem_of_seq. lia.
    - intros H. split; [apply H; lia|]. intros r Hr.
      apply elem_of_seq in Hr. apply H. lia. }
  unfold pivot_step. rewrite Hmax. cbn [bind].
  destruct (swap_rows_entries n (n + 1) M i p HM) as (S1 & -> & HS1 & Hent1);
    [lia..|].
  cbn [bind]. rewrite (item_row n (n + 1)) by assumption. cbn [bind].
  rewrite (item_entry n (n + 1)) by (assumption || lia). cbn [bind].
  assert (Hpv : entry S1 i i = entry M p i).
  { rewrite Hent1. unfold swap_idx. rewrite decide_True by reflexivity.
    reflexivity. }
  rewrite Hpv.
  destruct (ltb K (absv K (entry M p i)) (eps K)) eqn:Htest.
  { split; [|left; reflexivity]. split; [intros _; apply Hsel; reflexivity|].
    reflexivity. }
  assert (Hno : all_below M i n = true -> False).
  { intros H. apply Hsel in H. discriminate. }
  destruct (is_zero K (entry M p i)) eqn:Hz.
  { rewrite (normalize_zero n i _ S1 HS1 Hi Hz). cbn [bind]. split.
    - split; [discriminate | intros H; destruct (Hno H)].
    - right. left. reflexivity. }
  destruct (normalize_entries n i (entry M p i) S1 HS1 Hi Hz)
    as (S2 & -> & HS2 & _).
  cbn [bind].
  destruct (eliminate_entries n i S2 HS2 Hi) as (S3 & -> & HS3 & _).
  split.
  - split; [discriminate | intros H; destruct (Hno H)].
  - right. right. exists S3. auto.
Qed.

Lemma pivot_steps_keep_shape (n k : nat) (M0 M : matrix K) :
  shape n (n + 1) M0 -> k <= n -> pivot_steps n k M0 = Ok M ->
  shape n (n + 1) M.
Proof.
  intros HM0 Hk Hrun.
  destruct (pivot_steps_agree n k M0 M0 HM0 HM0 Hk)
    as [(e & He & _)|(M1 & _ & H1 & _ & HM1 & _)].
  - intros r c _ _. reflexivity.
  - congruence.
  - congruence.
Qed.

Lemma comparable_at_candidates (A : matrix K) (b : list F) (i : nat)
    (M : matrix K) :
  comparable_candidates ok A b = true -> i < length A ->
  pivot_steps (length A) i (augment A b) = Ok M ->
  forallb (fun v => ok (absv K v)) (candidates M i (length A)) = true.
Proof.
  unfold comparable_candidates. rewrite forallb_forall. intros H Hi Hrun.
  specialize (H i ltac:(apply in_seq; lia)). unfold comparable_at in H.
  rewrite Hrun in H. exact H.
Qed.

(** C4, as amended.  On a square system, in every arithmetic whose [<]
    is transitive and total on the absolute values of the candidate
    pivots (the doubles when no candidate is NaN, with [ok] the test
    [not_nan]; the rationals always): [solve_linear_system] raises the
    singular-matrix [ValueError] exactly when, at some pivot column [i]
    that the loop reaches, the largest absolute value in column [i]
    among the rows [i .. n-1] of the working matrix is below [1e-12],
    that is, when every candidate is below it.  An exception of the call
    is raised by the elimination loop, before the solution is read off
    the working matrix. *)
Theorem solve_linear_system_singular_iff (n : nat) (A : matrix K)
    (b : list F) :
  ordered_on ok ->
  has_shape n n A = true -> length b = n ->
  comparable_candidates ok A b = true ->
  (solve_linear_system A b = Raise (ValueError singular_msg) <->
   exists i, i < n /\ largest_below_at A b i = true) /\
  (forall e, solve_linear_system A b = Raise e ->
     pivot_steps n n (augment A b) = Raise e).
Proof.
  intros Hord HA Hb Hcmp. apply has_shape_shape in HA.
  assert (HM0 : shape n (n + 1) (augment A b)) by (apply shape_augment; auto).
  assert (Hn : length A = n) by exact (shape_length n n A HA).
  assert (Hloop : forall e, solve_linear_system A b = Raise e ->
            pivot_steps n n (augment A b) = Raise e).
  { unfold solve_linear_system. rewrite Hn. intros e Hraise.
    destruct (pivot_steps n n (augment A b)) as [M|e'] eqn:Hrun.
    - pose proof (pivot_steps_keep_shape n n _ M HM0 (Nat.le_refl n) Hrun)
        as HM.
      cbn [bind] in Hraise. rewrite (read_solution_eq n M HM) in Hraise.
      discriminate.
    - cbn [bind] in Hraise. injection Hraise as ->. reflexivity. }
  split; [|exact Hloop].
  unfold largest_below_at. rewrite Hn. split.
  - intros Hraise. apply Hloop in Hraise.
    apply for_each_seq_Raise in Hraise as (i & Mi & Hi & Hrun & Hstep).
    exists i. split; [exact Hi|].
    change (for_each (seq 0 i) (pivot_step n) (augment A b))
      with (pivot_steps n i (augment A b)) in Hrun.
    rewrite Hrun.
    pose proof (pivot_steps_keep_shape n i _ Mi HM0 ltac:(lia) Hrun) as HMi.
    apply (pivot_step_singular n i Mi Hord HMi Hi); [|exact Hstep].
    rewrite <- Hn. apply (comparable_at_candidates A b i Mi Hcmp);
      rewrite Hn; assumption.
  - intros (i & Hi & Hsmall).
    destruct (pivot_steps n i (augment A b)) as [Mi|e] eqn:Hrun;
      [|discriminate].
    pose proof (pivot_steps_keep_shape n i _ Mi HM0 ltac:(lia) Hrun) as HMi.
    assert (Hstep : pivot_step n i Mi = Raise (ValueError singular_msg)).
    { apply (pivot_step_singular n i Mi Hord HMi Hi); [|exact Hsmall].
      rewrite <- Hn. apply (comparable_at_candidates A b i Mi Hcmp);
        rewrite Hn; assumption. }
    assert (Hrun' : pivot_steps n n (augment A b)
                    = Raise (ValueError singular_msg)).
    { apply for_each_seq_Raise. exists i, Mi. auto. }
    unfold solve_linear_system. rewrite Hn, Hrun'. reflexivity.
Qed.

End SingularTest.

(** * The pivot test: the rationals, NaN, and rows that do not sum to zero *)

Section PivotOrderRuns.

(** Over the rationals, that every candidate is below the threshold says
    that the largest absolute value of the column, [column_max], is. *)
Lemma all_below_column_max (n i : nat) (M : matrix Exact) :
  shape n (n + 1) M -> i < n ->
  all_below M i n = Qc_ltb (column_max M i n) Qc_eps.
Proof.
  intros HM Hi.
  destruct (pivot_search n i M HM Hi) as (p & _ & Hp & Hall).
  rewrite (column_max_selected M i n p Hp Hall).
  destruct (Qc_ltb (Qcabs (entry M p i)) Qc_eps) eqn:Htest.
  - apply all_below_spec. intros r Hr. cbn [ltb absv eps Exact].
    apply Qc_ltb_lt. apply Qc_ltb_lt in Htest.
    exact (Qcle_lt_trans _ _ _ (Hall r Hr) Htest).
  - destruct (all_below M i n) eqn:Hb; [|reflexivity].
    rewrite all_below_spec in Hb. specialize (Hb p Hp).
    cbn [ltb absv eps Exact] in Hb. congruence.
Qed.

Lemma largest_below_at_exact (n : nat) (A : matrix Exact) (b : list Qc)
    (i : nat) :
  shape n n A -> length b = n -> i < n ->
  largest_below_at A b i = small_pivot_at A b i.
Proof.
  intros HA Hb Hi. unfold largest_below_at, small_pivot_at.
  rewrite (shape_length n n A HA).
  destruct (pivot_steps n i (augment A b)) as [M|e] eqn:Hrun; [|reflexivity].
  apply (all_below_column_max n i M); [|exact Hi].
  apply (pivot_steps_keep_shape n i (augment A b) M); [|lia|exact Hrun].
  apply shape_augment; assumption.
Qed.

(** Every candidate over the rationals is comparable. *)
Lemma comparable_candidates_exact (A : matrix Exact) (b : list Qc) :
  comparable_candidates (K := Exact) (fun _ => true) A b = true.
Proof.
  unfold comparable_candidates. apply forallb_forall. intros i _.
  unfold comparable_at.
  destruct (pivot_steps (length A) i (augment A b)); [|reflexivity].
  apply forallb_forall. reflexivity.
Qed.

(** With NaN among the candidates the largest absolute value of a column
    does not decide the pivot test.  The two systems have the same
    candidates in column 0, NaN and [1e-13], in the two orders.  With NaN
    first [max] selects NaN, which is not below the threshold, and the
    call returns; with NaN last [max] keeps [1e-13] and the call raises,
    although no pivot column has all its candidates below the
    threshold. *)
Lemma nan_pivot_order_matters :
  (has_shape 2 2 nan_first_A = true /\ has_shape 2 2 nan_last_A = true /\
   candidates (augment nan_first_A unit_rhs) 0 2 ≡ₚ
   candidates (augment nan_last_A unit_rhs) 0 2) /\
  solve_linear_system nan_first_A unit_rhs = Ok [nan; nan] /\
  solve_linear_system nan_last_A unit_rhs =
    Raise (ValueError singular_msg) /\
  forallb (fun i => negb (largest_below_at nan_last_A unit_rhs i))
          (seq 0 2) = true.
Proof.
  split; [split; [reflexivity|]; split; [reflexivity|]|].
  - vm_compute. apply perm_swap.
  - repeat split; vm_compute; reflexivity.
Qed.

(** In binary64 the rows of the matrix of a valid line list need not sum
    to zero.  A reactance of [1e-320] has the susceptance infinity, and
    the row [inf, -inf] sums to NaN, which is within no tolerance of
    zero; reactances of [1e-16] and [1] give a first row that sums, from
    the left, to [-1].  Over the rationals, the matrix of no bus at all
    is not singular. *)
Lemma row_sum_not_zero :
  (valid_lines 2 tiny_reactance_lines = true /\
   build_b_matrix 2 tiny_reactance_lines =
     Ok [[infinity; neg_infinity]; [neg_infinity; infinity]] /\
   PrimFloat.is_nan (row_sum (K := Float64) [infinity; neg_infinity]) = true /\
   forall tol : float,
     (PrimFloat.abs (row_sum (K := Float64) [infinity; neg_infinity])
      <=? tol)%float = false) /\
  (valid_lines 3 skewed_lines = true /\
   build_b_matrix 3 skewed_lines = Ok skewed_B /\
   row_sum (K := Float64) (nth 0 skewed_B []) = (-1)%float) /\
  (build_b_matrix (K := Exact) 0 [] = Ok [] /\
   ~ singular 0 []).
Proof.
  split; [|split].
  - split; [vm_compute; reflexivity|]. split; [vm_compute; reflexivity|].
    split; [vm_compute; reflexivity|]. intros tol.
    replace (PrimFloat.abs (row_sum (K := Float64) [infinity; neg_infinity]))
      with nan by (vm_compute; reflexivity).
    rewrite FloatAxioms.leb_spec. reflexivity.
  - repeat split; vm_compute; reflexivity.
  - split; [reflexivity|]. intros (v & (k & Hk & _) & _). lia.
Qed.

End PivotOrderRuns.

(** * The theorems at concrete systems and networks *)

Section Instances.

(** The theorem of C1 at a two-by-two system. *)
Lemma solve_linear_system_round_trip_small :
  (has_shape 2 2 small_A = true /\
   length small_x = 2 /\
   no_small_pivot small_A (mat_vec small_A small_x) = true) /\
  exists x',
    solve_linear_system small_A (mat_vec small_A small_x) = Ok x' /\
    x' = small_x /\ mat_vec small_A x' = mat_vec small_A small_x.
Proof.
  split.
  - split; [reflexivity|]. split; [reflexivity | vm_compute; reflexivity].
  - apply (solve_linear_system_round_trip 2 small_A small_x).
    + reflexivity.
    + reflexivity.
    + vm_compute. reflexivity.
Defined.

(** The theorem of C2 at the network of [main]. *)
Lemma build_b_matrix_sums_main :
  valid_lines 3 main_lines_exact = true /\
  exists B,
    build_b_matrix 3 main_lines_exact = Ok B /\
    has_shape (Z.to_nat 3) (Z.to_nat 3) B = true /\
    (forall r, r < Z.to_nat 3 ->
       entry B r r =
       susceptance_sum
         (List.filter (fun l => touches r l && negb (self_loop l))
                      main_lines_exact)) /\
    (forall r c, r < Z.to_nat 3 -> c < Z.to_nat 3 -> r <> c ->
       entry B r c =
       (- susceptance_sum (List.filter (joins r c) main_lines_exact))%Qc) /\
    (forall r c, entry B r c = entry B c r).
Proof.
  split; [reflexivity|].
  apply (build_b_matrix_sums 3 main_lines_exact). reflexivity.
Defined.

(** The theorem of C3 at the run of [main]. *)
Lemma dc_power_flow_returns_main :
  dc_power_flow (K := Float64) 3 main_lines main_injections =
    Ok (main_angles, main_flows) /\
  ((1 <= 3)%Z -> length main_angles = Z.to_nat 3) /\
  main_angles !! 0 = Some (zero Float64) /\
  (exists B,
     build_b_matrix (K := Float64) 3 main_lines = Ok B /\
     solve_linear_system (drop_slack B) (drop 1 main_injections) =
       Ok (drop 1 main_angles)) /\
  length main_flows = length main_lines /\
  Forall2 (flow_of (K := Float64) main_angles) main_lines main_flows.
Proof.
  split; [vm_compute; reflexivity|].
  apply (dc_power_flow_returns (K := Float64) 3 main_lines main_injections
           main_angles main_flows).
  vm_compute. reflexivity.
Defined.

(** The theorem of C4 at a matrix of rank one, in binary64. *)
Lemma solve_linear_system_singular_iff_doubles :
  (has_shape 2 2 rank_one_A_float = true /\ length unit_rhs = 2 /\
   comparable_candidates (K := Float64) not_nan rank_one_A_float unit_rhs
     = true) /\
  (solve_linear_system rank_one_A_float unit_rhs
     = Raise (ValueError singular_msg) <->
   exists i, i < 2 /\ largest_below_at rank_one_A_float unit_rhs i = true) /\
  (forall e, solve_linear_system rank_one_A_float unit_rhs = Raise e ->
     pivot_steps 2 2 (augment rank_one_A_float unit_rhs) = Raise e).
Proof.
  split; [split; [|split]; vm_compute; reflexivity|].
  apply (solve_linear_system_singular_iff (K := Float64) not_nan 2
           rank_one_A_float unit_rhs float_ordered);
    vm_compute; reflexivity.
Defined.

(** The theorem of X23 at a matrix of rank one. *)
Lemma solve_linear_system_singular_column_max_rank_one :
  (has_shape 2 2 rank_one_A = true /\ length rank_one_b = 2) /\
  (solve_linear_system rank_one_A rank_one_b
     = Raise (ValueError singular_msg) <->
   exists i, i < 2 /\ small_pivot_at rank_one_A rank_one_b i = true).
Proof.
  split; [split; reflexivity|].
  apply (solve_linear_system_singular_column_max 2 rank_one_A rank_one_b);
    reflexivity.
Defined.

(** The theorem of C6 at the island network, over the rationals. *)
Lemma dc_power_flow_disconnected_island :
  (valid_lines 4 island_lines_exact = true /\
   Z.of_nat (length island_injections_exact) = 4%Z /\
   0 < 1 < Z.to_nat 4 /\
   connected_to_slack 4 island_lines_exact 1 = false) /\
  dc_power_flow 4 island_lines_exact island_injections_exact =
    Raise (ValueError singular_msg).
Proof.
  split.
  - split; [reflexivity|]. split; [reflexivity|].
    split; [simpl; lia | vm_compute; reflexivity].
  - apply (dc_power_flow_disconnected 4 island_lines_exact
             island_injections_exact 1).
    + reflexivity.
    + reflexivity.
    + simpl. lia.
    + vm_compute. reflexivity.
Defined.

(** The theorem of C7 at the network of [main]. *)
Lemma build_b_matrix_row_sums_main :
  valid_lines 3 main_lines_exact = true /\
  exists B,
    build_b_matrix 3 main_lines_exact = Ok B /\
    (forall r, r < Z.to_nat 3 ->
       sum_upto (Z.to_nat 3) (fun c => entry B r c) = 0%Qc) /\
    ((1 <= 3)%Z -> singular (Z.to_nat 3) B).
Proof.
  split; [reflexivity|].
  apply (build_b_matrix_row_sums 3 main_lines_exact). reflexivity.
Defined.

(** The theorem of C8 at the star network and its reverse. *)
Lemma build_b_matrix_Permutation_star :
  (valid_lines 4 star_lines_exact = true /\
   star_lines_exact ≡ₚ rev star_lines_exact) /\
  exists B,
    build_b_matrix 4 star_lines_exact = Ok B /\
    build_b_matrix 4 (rev star_lines_exact) = Ok B.
Proof.
  split; [split; [reflexivity | apply Permutation_rev]|].
  apply (build_b_matrix_Permutation 4 star_lines_exact (rev star_lines_exact)).
  - reflexivity.
  - apply Permutation_rev.
Defined.

(** Over the rationals the run of [main] gives the angles [-52/9] and
    [-76/9] and the flows [520/9], [380/9] and [160/9]. *)
Lemma main_run_exact :
  exists angles flows,
    dc_power_flow (K := Exact) 3 main_lines_exact main_injections_exact =
      Ok (angles, flows) /\
    map this angles = [0; -52 # 9; -76 # 9]%Q /\
    map (fun l : line Exact => this l.2) flows = [520 # 9; 380 # 9; 160 # 9]%Q.
Proof.
  eexists. eexists. split; [vm_compute; reflexivity|].
  split; reflexivity.
Qed.

End Instances.

(** * The further theorems at concrete inputs *)

Section EdgeInstances.

(** Rationals are equal when their reduced fractions are. *)
Lemma Qc_eq_this (a b : Qc) : this a = this b -> a = b.
Proof. intros H. apply Qc_is_canon. rewrite H. reflexivity. Qed.

Lemma Qcs_eq_this (l1 l2 : list Qc) : map this l1 = map this l2 -> l1 = l2.
Proof.
  revert l2. induction l1 as [|a l1 IH]; intros [|b l2] H;
    try discriminate; [reflexivity|].
  cbn [map] in H. injection H as Hab Hl.
  f_equal; [apply Qc_eq_this, Hab | apply IH, Hl].
Qed.

Lemma lines_eq_this (f1 f2 : list (line Exact)) :
  map (fun l : line Exact => (l.1, this l.2)) f1 =
  map (fun l : line Exact => (l.1, this l.2)) f2 -> f1 = f2.
Proof.
  revert f2. induction f1 as [|[e a] f1 IH]; intros [|[e' b] f2] H;
    try discriminate; [reflexivity|].
  cbn [map fst snd] in H. injection H as He Hab Hl.
  f_equal; [f_equal; [exact He | apply Qc_eq_this, Hab] | apply IH, Hl].
Qed.

(** A run of the solver, read off the reduced fractions. *)
Lemma solve_run_this (A : matrix Exact) (b x : list Qc) :
  match solve_linear_system A b with
  | Ok y => map this y = map this x
  | Raise _ => False
  end ->
  solve_linear_system A b = Ok x.
Proof.
  destruct (solve_linear_system A b) as [y|e]; [|intros []].
  intros H. f_equal. apply Qcs_eq_this, H.
Qed.

(** A run of [dc_power_flow], read off the reduced fractions. *)
Lemma dc_run_this (N : Z) (lines : list (line Exact)) (p angles : list Qc)
    (flows : list (line Exact)) :
  match dc_power_flow (K := Exact) N lines p with
  | Ok (a, f) =>
      map this a = map this angles /\
      map (fun l : line Exact => (l.1, this l.2)) f =
      map (fun l : line Exact => (l.1, this l.2)) flows
  | Raise _ => False
  end ->
  dc_power_flow (K := Exact) N lines p = Ok (angles, flows).
Proof.
  destruct (dc_power_flow (K := Exact) N lines p) as [[a f]|e]; [|intros []].
  intros [Ha Hf]. f_equal.
  f_equal; [apply Qcs_eq_this, Ha | apply lines_eq_this, Hf].
Qed.

(** The solver at [small_A], for two right-hand sides. *)
Lemma small_run : solve_linear_system small_A small_b = Ok small_x.
Proof. apply solve_run_this. vm_compute. reflexivity. Qed.

Lemma small_run' : solve_linear_system small_A small_b' = Ok small_x'.
Proof. apply solve_run_this. vm_compute. reflexivity. Qed.

(** The run of [main] over the rationals, and a second run on the same
    network. *)
Lemma main_run_exact_values :
  dc_power_flow (K := Exact) 3 main_lines_exact main_injections_exact =
  Ok (main_angles_exact, main_flows_exact).
Proof. apply dc_run_this. vm_compute. split; reflexivity. Qed.

Lemma transfer_run_exact_values :
  dc_power_flow (K := Exact) 3 main_lines_exact transfer_injections_exact =
  Ok (transfer_angles_exact, transfer_flows_exact).
Proof. apply dc_run_this. vm_compute. split; reflexivity. Qed.

(** The theorem of X2 at a line of zero reactance between a valid line
    and a line of indices out of range. *)
Lemma build_b_matrix_zero_reactance_stray :
  (valid_lines 3 first_line = true /\ is_zero Float64 0%float = true) /\
  build_b_matrix 3 (first_line ++ (1%Z, 2%Z, 0%float) :: stray_lines) =
  Raise ZeroDivisionError.
Proof.
  split; [split; vm_compute; reflexivity|].
  apply (build_b_matrix_zero_reactance (K := Float64) 3 first_line
           stray_lines 1 2 0%float); vm_compute; reflexivity.
Defined.

(** The theorem of X3 at a line that names bus 3 of three buses. *)
Lemma build_b_matrix_index_error_bus_3 :
  (valid_lines 3 first_line = true /\
   is_zero Float64 0.2%float = false /\
   in_range (K := Float64) 3 (1%Z, 3%Z, 0.2%float) = false) /\
  build_b_matrix 3 (first_line ++ (1%Z, 3%Z, 0.2%float) :: stray_lines) =
  Raise IndexError.
Proof.
  split; [split; [|split]; vm_compute; reflexivity|].
  apply (build_b_matrix_index_error (K := Float64) 3 first_line
           stray_lines 1 3 0.2%float); vm_compute; reflexivity.
Defined.

(** The theorem of X4 at the network of [main] with indices counted from
    the end. *)
Lemma build_b_matrix_negative_indices_main :
  forallb (in_range 3) main_lines_negative = true /\
  build_b_matrix 3 main_lines_negative =
  build_b_matrix 3 (map (wrap_line 3) main_lines_negative).
Proof.
  split; [vm_compute; reflexivity|].
  apply (build_b_matrix_negative_indices (K := Float64) 3
           main_lines_negative).
  vm_compute. reflexivity.
Defined.

(** The theorem of X5 at the binary64 matrix of [main]. *)
Lemma build_b_matrix_symmetric_entries_main :
  (valid_lines 3 main_lines = true /\
   build_b_matrix 3 main_lines = Ok main_B) /\
  entry main_B 1 2 = entry main_B 2 1.
Proof.
  split; [split; vm_compute; reflexivity|].
  apply (build_b_matrix_symmetric_entries (K := Float64) 3 main_lines
           main_B 1 2); vm_compute; reflexivity.
Defined.

(** The theorem of X6 at the network of [main] in binary64. *)
Lemma build_b_matrix_flip_main :
  (valid_lines 3 main_lines = true /\
   length main_flips = length main_lines) /\
  build_b_matrix 3 (flip_some main_flips main_lines) =
  build_b_matrix 3 main_lines.
Proof.
  split; [split; [vm_compute; reflexivity | reflexivity]|].
  apply (build_b_matrix_flip (K := Float64) 3 main_flips main_lines);
    [vm_compute; reflexivity | reflexivity].
Defined.

(** The theorem of X7 at two rows and one right-hand value. *)
Lemma solve_linear_system_short_rhs_near_singular :
  length [1%float] < length near_singular_A /\
  solve_linear_system near_singular_A [1%float] = Raise IndexError.
Proof.
  split; [simpl; lia|].
  apply (solve_linear_system_short_rhs (K := Float64) near_singular_A
           [1%float]).
  simpl. lia.
Defined.

(** The theorem of X9 at one row of two entries. *)
Lemma solve_linear_system_returns_length_wide :
  solve_linear_system (K := Float64) [[2%float; 1%float]] [4%float] =
    Ok [4%float] /\
  length [4%float] = length [[2%float; 1%float]].
Proof.
  split; [vm_compute; reflexivity|].
  apply (solve_linear_system_returns_length (K := Float64)
           [[2%float; 1%float]] [4%float] [4%float]).
  vm_compute. reflexivity.
Defined.

(** The theorem of X11 at the injections of [main]: a line of zero
    reactance, and a line that names bus 3. *)
Lemma dc_power_flow_bad_line_main :
  (Z.of_nat (length main_injections) = 3%Z /\
   valid_lines 3 first_line = true /\
   is_zero Float64 0%float = true /\
   is_zero Float64 0.2%float = false /\
   in_range (K := Float64) 3 (1%Z, 3%Z, 0.2%float) = false) /\
  dc_power_flow 3 (first_line ++ (1%Z, 2%Z, 0%float) :: stray_lines)
    main_injections = Raise ZeroDivisionError /\
  dc_power_flow 3 (first_line ++ (1%Z, 3%Z, 0.2%float) :: stray_lines)
    main_injections = Raise IndexError.
Proof.
  split; [repeat split; vm_compute; reflexivity|].
  split.
  - apply (dc_power_flow_bad_line (K := Float64) 3 first_line stray_lines
             1 2 0%float main_injections); vm_compute; reflexivity.
  - apply (dc_power_flow_bad_line (K := Float64) 3 first_line stray_lines
             1 3 0.2%float main_injections); vm_compute; reflexivity.
Defined.

(** The theorem of X12 at [small_A]. *)
Lemma solve_linear_system_solves_small :
  (has_shape 2 2 small_A = true /\ length small_b = 2 /\
   solve_linear_system small_A small_b = Ok small_x) /\
  mat_vec small_A small_x = small_b /\
  forall z, length z = 2 -> mat_vec small_A z = small_b -> z = small_x.
Proof.
  split; [split; [reflexivity | split; [reflexivity | exact small_run]]|].
  apply (solve_linear_system_solves 2 small_A small_b small_x).
  - reflexivity.
  - reflexivity.
  - exact small_run.
Defined.

(** The theorem of X13 at [small_A]. *)
Lemma solve_linear_system_square_outcome_small :
  (has_shape 2 2 small_A = true /\ length small_b = 2) /\
  ((exists x, solve_linear_system small_A small_b = Ok x /\ length x = 2) \/
   solve_linear_system small_A small_b = Raise (ValueError singular_msg)).
Proof.
  split; [split; reflexivity|].
  apply (solve_linear_system_square_outcome 2 small_A small_b); reflexivity.
Defined.

(** The theorem of X14 at the matrix of rank one. *)
Lemma solve_linear_system_kernel_rank_one :
  (has_shape 2 2 rank_one_A = true /\ length rank_one_b = 2 /\
   length rank_one_v = 2 /\
   forallb (is_zero Exact) (mat_vec rank_one_A rank_one_v) = true /\
   existsb (fun a => negb (is_zero Exact a)) rank_one_v = true) /\
  solve_linear_system rank_one_A rank_one_b =
  Raise (ValueError singular_msg).
Proof.
  split; [repeat split; vm_compute; reflexivity|].
  apply (solve_linear_system_kernel 2 rank_one_A rank_one_v rank_one_b);
    vm_compute; reflexivity.
Defined.

(** The theorem of X15 at bus 1 of the network of [main]. *)
Lemma dc_power_flow_balance_main :
  (valid_lines 3 main_lines_exact = true /\
   dc_power_flow 3 main_lines_exact main_injections_exact =
     Ok (main_angles_exact, main_flows_exact) /\
   0 < 1 < Z.to_nat 3) /\
  net_outflow main_flows_exact 1 = nth 1 main_injections_exact 0%Qc.
Proof.
  split.
  - split; [reflexivity|]. split; [exact main_run_exact_values | simpl; lia].
  - apply (dc_power_flow_balance 3 main_lines_exact main_injections_exact
             main_angles_exact main_flows_exact 1).
    + reflexivity.
    + exact main_run_exact_values.
    + simpl. lia.
Defined.

(** The theorem of X16 at the network of [main]. *)
Lemma dc_power_flow_slack_balance_main :
  (valid_lines 3 main_lines_exact = true /\
   dc_power_flow 3 main_lines_exact main_injections_exact =
     Ok (main_angles_exact, main_flows_exact) /\
   1 <= Z.to_nat 3) /\
  net_outflow main_flows_exact 0 =
  (- sum_upto (Z.to_nat 3 - 1)
       (fun k => nth (S k) main_injections_exact 0%Qc))%Qc.
Proof.
  split.
  - split; [reflexivity|]. split; [exact main_run_exact_values | simpl; lia].
  - apply (dc_power_flow_slack_balance 3 main_lines_exact
             main_injections_exact main_angles_exact main_flows_exact).
    + reflexivity.
    + exact main_run_exact_values.
    + simpl. lia.
Defined.

(** The theorem of X17 at the network of [main], its first and third
    lines entered the other way round. *)
Lemma dc_power_flow_flip_main :
  (valid_lines 3 main_lines_exact = true /\
   length main_flips = length main_lines_exact /\
   dc_power_flow 3 main_lines_exact main_injections_exact =
     Ok (main_angles_exact, main_flows_exact)) /\
  dc_power_flow 3 (flip_some main_flips main_lines_exact)
    main_injections_exact =
  Ok (main_angles_exact, negate_some main_flips main_flows_exact).
Proof.
  split.
  - split; [reflexivity|]. split; [reflexivity | exact main_run_exact_values].
  - apply (dc_power_flow_flip 3 main_flips main_lines_exact
             main_injections_exact main_angles_exact main_flows_exact).
    + reflexivity.
    + reflexivity.
    + exact main_run_exact_values.
Defined.

(** The theorem of X18 at the network of [main] and a line parallel to
    its third line. *)
Lemma build_b_matrix_app_parallel :
  (valid_lines 3 main_lines_exact = true /\
   valid_lines 3 parallel_line_exact = true) /\
  exists B1 B2 B,
    build_b_matrix 3 main_lines_exact = Ok B1 /\
    build_b_matrix 3 parallel_line_exact = Ok B2 /\
    build_b_matrix 3 (main_lines_exact ++ parallel_line_exact) = Ok B /\
    forall r c, entry B r c = (entry B1 r c + entry B2 r c)%Qc.
Proof.
  split; [split; reflexivity|].
  apply (build_b_matrix_app 3 main_lines_exact parallel_line_exact);
    reflexivity.
Defined.

(** The theorem of X10 at a line of reactance [1/10] and an injection of
    [-5] at bus 1. *)
Lemma dc_power_flow_two_bus_tenth :
  is_zero Exact (Qc_of 1 10) = false /\
  dc_power_flow (K := Exact) 2 [(0%Z, 1%Z, Qc_of 1 10)]
    [Qc_of 5 1; Qc_of (-5) 1] =
  if Qc_ltb (Qcabs (1 / Qc_of 1 10)) Qc_eps
  then Raise (ValueError singular_msg)
  else Ok ([0%Qc; (Qc_of (-5) 1 * Qc_of 1 10)%Qc],
           [(0%Z, 1%Z, (- Qc_of (-5) 1)%Qc)]).
Proof.
  split; [reflexivity|].
  apply (dc_power_flow_two_bus (Qc_of 1 10) (Qc_of 5 1) (Qc_of (-5) 1)).
  reflexivity.
Defined.

(** The theorem of X19 at the nearly singular matrix in binary64. *)
Lemma solve_linear_system_rhs_independent_near_singular :
  (has_shape 2 2 near_singular_A = true /\
   length near_singular_b = 2 /\ length [1%float; 1%float] = 2) /\
  same_outcome (solve_linear_system near_singular_A near_singular_b)
               (solve_linear_system near_singular_A [1%float; 1%float]).
Proof.
  split; [repeat split; reflexivity|].
  apply (solve_linear_system_rhs_independent (K := Float64) 2
           near_singular_A near_singular_b [1%float; 1%float]);
    reflexivity.
Defined.

(** The theorem of X20 at the island network in binary64. *)
Lemma dc_power_flow_injection_independent_island :
  length island_injections = length unit_injections /\
  same_outcome (dc_power_flow 4 island_lines island_injections)
               (dc_power_flow 4 island_lines unit_injections).
Proof.
  split; [reflexivity|].
  apply (dc_power_flow_injection_independent (K := Float64) 4 island_lines
           island_injections unit_injections).
  reflexivity.
Defined.

(** The theorem of X21 at [small_A]: twice the first right-hand side
    minus three times the second. *)
Lemma solve_linear_system_linear_small :
  (has_shape 2 2 small_A = true /\
   length small_b = 2 /\ length small_b' = 2 /\
   solve_linear_system small_A small_b = Ok small_x /\
   solve_linear_system small_A small_b' = Ok small_x') /\
  solve_linear_system small_A
    (combine (Qc_of 2 1) (Qc_of (-3) 1) small_b small_b') =
  Ok (combine (Qc_of 2 1) (Qc_of (-3) 1) small_x small_x').
Proof.
  split.
  - split; [reflexivity|]. split; [reflexivity|]. split; [reflexivity|].
    split; [exact small_run | exact small_run'].
  - apply (solve_linear_system_linear (Qc_of 2 1) (Qc_of (-3) 1) 2 small_A
             small_b small_b' small_x small_x').
    + reflexivity.
    + reflexivity.
    + reflexivity.
    + exact small_run.
    + exact small_run'.
Defined.

(** The theorem of X22 at the network of [main]: the run of [main] plus
    twice the transfer from bus 0 to bus 1. *)
Lemma dc_power_flow_superposition_main :
  (dc_power_flow 3 main_lines_exact main_injections_exact =
     Ok (main_angles_exact, main_flows_exact) /\
   dc_power_flow 3 main_lines_exact transfer_injections_exact =
     Ok (transfer_angles_exact, transfer_flows_exact)) /\
  dc_power_flow 3 main_lines_exact
    (combine (Qc_of 1 1) (Qc_of 2 1) main_injections_exact
       transfer_injections_exact) =
  Ok (combine (Qc_of 1 1) (Qc_of 2 1) main_angles_exact
        transfer_angles_exact,
      combine_flows (Qc_of 1 1) (Qc_of 2 1) main_flows_exact
        transfer_flows_exact).
Proof.
  split; [split; [exact main_run_exact_values
                 | exact transfer_run_exact_values]|].
  apply (dc_power_flow_superposition (Qc_of 1 1) (Qc_of 2 1) 3
           main_lines_exact main_injections_exact transfer_injections_exact
           main_angles_exact transfer_angles_exact main_flows_exact
           transfer_flows_exact).
  - exact main_run_exact_values.
  - exact transfer_run_exact_values.
Defined.

End EdgeInstances.
